(** * Stage: the kinematic core of [libstage/model.cc]

    A shallow embedding of the [StgModel] methods that move models, test
    collisions, compose poses along the model tree and count
    subscriptions, followed by the properties established about them.

    Conventions of the embedding.
    - A C [double] is read as a real number ([R]); [memcmp] on poses is
      equality of reals, [cos], [sin], [sqrt] and [atan] are those of the
      Standard Library.
    - A [StgModel*] is the model's id, the index of its record in the
      world's table of models; the null pointer is [None].
    - Methods that follow pointers or recurse along the tree run in a state
      and error monad over the world; recursion is bounded by a fuel
      argument and running out of it is reported as its own fault.
    - Callbacks and [initfunc] are user code: calling them is recorded in
      the world's event log and has no other effect.
    - What the code calls in files that are not at hand (the pose
      arithmetic of stage.hh, the rasteriser that fills the spatial index,
      the world's lists and its tick) is modelled from the specification
      and marked so; the world's raytracer is a parameter.

    The definitions come first: the data, the methods in the order of
    the source, then the notions used to state the properties and the
    scenarios.  The lemmas and theorems follow. *)

From Stdlib Require Import Reals Lra Lia ZArith.
From stdpp Require Import base list.

(** ** Geometry primitives *)

Record stg_pose_t := mk_pose { pose_x : R; pose_y : R; pose_z : R; pose_a : R }.

(** Velocities carry the same four components as poses. *)
Definition stg_velocity_t := stg_pose_t.

Record stg_point_t := mk_point { pt_x : R; pt_y : R }.

Record stg_size_t := mk_size { size_x : R; size_y : R; size_z : R }.

Record stg_geom_t := mk_geom { geom_pose : stg_pose_t; geom_size : stg_size_t }.

Definition new_pose (x y z a : R) : stg_pose_t := mk_pose x y z a.

Definition pose_zero : stg_pose_t := new_pose 0 0 0 0.

(** Modelled from the spec: [pose_sum] (declared in the absent stage.hh)
    composes [b] expressed in [a]'s frame: the result is
    (a.x + b.x cos a.a - b.y sin a.a, a.y + b.x sin a.a + b.y cos a.a,
     a.z + b.z, a.a + b.a). *)
Definition pose_sum (p1 p2 : stg_pose_t) : stg_pose_t :=
  mk_pose (pose_x p1 + pose_x p2 * cos (pose_a p1) - pose_y p2 * sin (pose_a p1))
          (pose_y p1 + pose_x p2 * sin (pose_a p1) + pose_y p2 * cos (pose_a p1))
          (pose_z p1 + pose_z p2)
          (pose_a p1 + pose_a p2).

(** Modelled from the spec: [stg_pose_sum( &result, &p1, &p2 )] (absent
    stage.cc) is the same composition, written through a pointer. *)
Definition stg_pose_sum (p1 p2 : stg_pose_t) : stg_pose_t := pose_sum p1 p2.

(** Modelled from the spec: [normalize] (absent stage.hh) returns its
    argument modulo 2 pi shifted into (-pi, pi]. *)
Definition normalize (a : R) : R :=
  (a - 2 * PI * IZR (1 - up ((PI - a) / (2 * PI))))%R.

(** The C library's [hypot] and [atan2] on reals. *)
Definition hypot (dx dy : R) : R := sqrt (dx * dx + dy * dy).

Definition atan2 (y x : R) : R :=
  if Rlt_dec 0 x then atan (y / x)
  else if Rlt_dec x 0 then
         (if Rlt_dec y 0 then atan (y / x) - PI else atan (y / x) + PI)%R
  else if Rlt_dec 0 y then (PI / 2)%R
  else if Rlt_dec y 0 then (- (PI / 2))%R
  else 0%R.

Definition pose_eq_dec (p q : stg_pose_t) : {p = q} + {p <> q}.
Proof. decide equality; apply Req_dec_T. Defined.

(** The arithmetic of [StgModel::GlobalToLocal], as a function of the
    frame [org] that the method obtains from [GetGlobalPose].  Only x, y
    and a are assigned: z keeps the value it came in with. *)
Definition global_to_local (org pose : stg_pose_t) : stg_pose_t :=
  let sx := ((pose_x pose - pose_x org) * cos (pose_a org)
             + (pose_y pose - pose_y org) * sin (pose_a org))%R in
  let sy := (- (pose_x pose - pose_x org) * sin (pose_a org)
             + (pose_y pose - pose_y org) * cos (pose_a org))%R in
  let sa := (pose_a pose - pose_a org)%R in
  mk_pose sx sy (pose_z pose) sa.

(** [bool velocity_is_nonzero( stg_velocity_t* v )]:
    [v->x || v->y || v->z || v->a]. *)
Definition nonzero (r : R) : bool := if Req_dec_T r 0 then false else true.

Definition velocity_is_nonzero (v : stg_velocity_t) : bool :=
  nonzero (pose_x v) || nonzero (pose_y v) || nonzero (pose_z v) || nonzero (pose_a v).

(** ** Models, blocks and the world *)

Abbreviation model_id := nat.

Record StgBlock := mk_block {
  blk_pts : list stg_point_t;
  blk_zmin : R;
  blk_zmax : R;
  blk_color : Z;
  blk_inherit_color : bool
}.

(** A block is named by its owner ([StgBlock::Model()]) and its position
    in the owner's block list. *)
Definition block_ref := (model_id * nat)%type.

Definition Model (b : block_ref) : model_id := fst b.

Record stg_trail_item_t := mk_trail_item {
  trail_pose : stg_pose_t;
  trail_color : Z;
  trail_time : Z
}.

Record StgModel := mk_model {
  parent : option model_id;
  children : list model_id;
  pose : stg_pose_t;
  global_pose : stg_pose_t;
  gpose_dirty : bool;
  velocity : stg_velocity_t;
  on_velocity_list : bool;
  stall : bool;
  disabled : bool;
  blocks : list StgBlock;
  rebuild_displaylist : bool;
  geom : stg_geom_t;
  color : Z;
  obstacle_return : Z;
  subs : Z;
  initfunc : bool;
  trail : list stg_trail_item_t
}.

(** The attribute whose address keys a callback list. *)
Inductive cb_key :=
  | K_pose | K_velocity | K_stall | K_startup_hook | K_shutdown_hook.

Inductive event :=
  | EvCallback (m : model_id) (k : cb_key)
  | EvInit (m : model_id).

Record StgWorld := mk_world {
  models : list StgModel;
  velocity_list : list model_id;
  update_list : list model_id;
  total_subs : Z;
  updates : Z;
  sim_time : Z;
  interval_sim : Z;
  bitmap : list block_ref;
  events : list event;
  world_children : list model_id   (* the [children] of the world: the
                                      models made without parent *)
}.

(** Field assignments. *)
Definition set_children (v : list model_id) (X : StgModel) : StgModel :=
  mk_model (parent X) v (pose X) (global_pose X) (gpose_dirty X)
    (velocity X) (on_velocity_list X) (stall X) (disabled X) (blocks X)
    (rebuild_displaylist X) (geom X) (color X) (obstacle_return X) (subs X)
    (initfunc X) (trail X).

Definition set_geom (v : stg_geom_t) (X : StgModel) : StgModel :=
  mk_model (parent X) (children X) (pose X) (global_pose X) (gpose_dirty X)
    (velocity X) (on_velocity_list X) (stall X) (disabled X) (blocks X)
    (rebuild_displaylist X) v (color X) (obstacle_return X) (subs X)
    (initfunc X) (trail X).

Definition set_initfunc (v : bool) (X : StgModel) : StgModel :=
  mk_model (parent X) (children X) (pose X) (global_pose X) (gpose_dirty X)
    (velocity X) (on_velocity_list X) (stall X) (disabled X) (blocks X)
    (rebuild_displaylist X) (geom X) (color X) (obstacle_return X) (subs X)
    v (trail X).

Definition set_pose (v : stg_pose_t) (M : StgModel) : StgModel :=
  mk_model (parent M) (children M) v (global_pose M) (gpose_dirty M)
    (velocity M) (on_velocity_list M) (stall M) (disabled M) (blocks M)
    (rebuild_displaylist M) (geom M) (color M) (obstacle_return M) (subs M)
    (initfunc M) (trail M).

Definition set_global_pose (v : stg_pose_t) (M : StgModel) : StgModel :=
  mk_model (parent M) (children M) (pose M) v (gpose_dirty M)
    (velocity M) (on_velocity_list M) (stall M) (disabled M) (blocks M)
    (rebuild_displaylist M) (geom M) (color M) (obstacle_return M) (subs M)
    (initfunc M) (trail M).

Definition set_gpose_dirty (v : bool) (M : StgModel) : StgModel :=
  mk_model (parent M) (children M) (pose M) (global_pose M) v
    (velocity M) (on_velocity_list M) (stall M) (disabled M) (blocks M)
    (rebuild_displaylist M) (geom M) (color M) (obstacle_return M) (subs M)
    (initfunc M) (trail M).

Definition set_velocity (v : stg_velocity_t) (M : StgModel) : StgModel :=
  mk_model (parent M) (children M) (pose M) (global_pose M) (gpose_dirty M)
    v (on_velocity_list M) (stall M) (disabled M) (blocks M)
    (rebuild_displaylist M) (geom M) (color M) (obstacle_return M) (subs M)
    (initfunc M) (trail M).

Definition set_on_velocity_list (v : bool) (M : StgModel) : StgModel :=
  mk_model (parent M) (children M) (pose M) (global_pose M) (gpose_dirty M)
    (velocity M) v (stall M) (disabled M) (blocks M)
    (rebuild_displaylist M) (geom M) (color M) (obstacle_return M) (subs M)
    (initfunc M) (trail M).

Definition set_stall (v : bool) (M : StgModel) : StgModel :=
  mk_model (parent M) (children M) (pose M) (global_pose M) (gpose_dirty M)
    (velocity M) (on_velocity_list M) v (disabled M) (blocks M)
    (rebuild_displaylist M) (geom M) (color M) (obstacle_return M) (subs M)
    (initfunc M) (trail M).

Definition set_rebuild_displaylist (v : bool) (M : StgModel) : StgModel :=
  mk_model (parent M) (children M) (pose M) (global_pose M) (gpose_dirty M)
    (velocity M) (on_velocity_list M) (stall M) (disabled M) (blocks M)
    v (geom M) (color M) (obstacle_return M) (subs M)
    (initfunc M) (trail M).

Definition set_subs (v : Z) (M : StgModel) : StgModel :=
  mk_model (parent M) (children M) (pose M) (global_pose M) (gpose_dirty M)
    (velocity M) (on_velocity_list M) (stall M) (disabled M) (blocks M)
    (rebuild_displaylist M) (geom M) (color M) (obstacle_return M) v
    (initfunc M) (trail M).

Definition set_trail (v : list stg_trail_item_t) (M : StgModel) : StgModel :=
  mk_model (parent M) (children M) (pose M) (global_pose M) (gpose_dirty M)
    (velocity M) (on_velocity_list M) (stall M) (disabled M) (blocks M)
    (rebuild_displaylist M) (geom M) (color M) (obstacle_return M) (subs M)
    (initfunc M) v.

Definition set_models (v : list StgModel) (w : StgWorld) : StgWorld :=
  mk_world v (velocity_list w) (update_list w) (total_subs w) (updates w)
    (sim_time w) (interval_sim w) (bitmap w) (events w) (world_children w).

Definition set_velocity_list (v : list model_id) (w : StgWorld) : StgWorld :=
  mk_world (models w) v (update_list w) (total_subs w) (updates w)
    (sim_time w) (interval_sim w) (bitmap w) (events w) (world_children w).

Definition set_update_list (v : list model_id) (w : StgWorld) : StgWorld :=
  mk_world (models w) (velocity_list w) v (total_subs w) (updates w)
    (sim_time w) (interval_sim w) (bitmap w) (events w) (world_children w).

Definition set_total_subs (v : Z) (w : StgWorld) : StgWorld :=
  mk_world (models w) (velocity_list w) (update_list w) v (updates w)
    (sim_time w) (interval_sim w) (bitmap w) (events w) (world_children w).

Definition set_updates (v : Z) (w : StgWorld) : StgWorld :=
  mk_world (models w) (velocity_list w) (update_list w) (total_subs w) v
    (sim_time w) (interval_sim w) (bitmap w) (events w) (world_children w).

Definition set_sim_time (v : Z) (w : StgWorld) : StgWorld :=
  mk_world (models w) (velocity_list w) (update_list w) (total_subs w)
    (updates w) v (interval_sim w) (bitmap w) (events w) (world_children w).

Definition set_bitmap (v : list block_ref) (w : StgWorld) : StgWorld :=
  mk_world (models w) (velocity_list w) (update_list w) (total_subs w)
    (updates w) (sim_time w) (interval_sim w) v (events w) (world_children w).

Definition set_events (v : list event) (w : StgWorld) : StgWorld :=
  mk_world (models w) (velocity_list w) (update_list w) (total_subs w)
    (updates w) (sim_time w) (interval_sim w) (bitmap w) v (world_children w).

(** ** The state and error monad of the methods *)

Inductive fault :=
  | NullPointer   (* a method was called through a null [StgModel*] *)
  | WildPointer   (* an id that names no model of the world *)
  | OutOfFuel     (* the recursion bound of the embedding was reached *)
  | AssertFailed. (* an [assert] of the source failed: the process aborts *)

Inductive result (A : Type) :=
  | Ok (a : A)
  | Fault (f : fault).
Arguments Ok {A} a.
Arguments Fault {A} f.

Definition M (A : Type) : Type := StgWorld -> result (A * StgWorld).

Definition ret {A} (a : A) : M A := fun w => Ok (a, w).

Definition raise {A} (f : fault) : M A := fun _ => Fault f.

Definition bind {A B} (c : M A) (k : A -> M B) : M B :=
  fun w => match c w with
           | Ok (a, w') => k a w'
           | Fault f => Fault f
           end.

Notation "x <- c ;; k" := (bind c (fun x => k))
  (at level 100, c at next level, right associativity).
Notation "c ;; k" := (bind c (fun _ => k))
  (at level 100, right associativity).

Definition get_world : M StgWorld := fun w => Ok (w, w).

Definition modify_world (f : StgWorld -> StgWorld) : M unit :=
  fun w => Ok (tt, f w).

(** Reading [*m]. *)
Definition get_model (m : model_id) : M StgModel :=
  fun w => match models w !! m with
           | Some Mm => Ok (Mm, w)
           | None => Fault WildPointer
           end.

(** Assigning to fields of [*m]. *)
Definition modify_model (m : model_id) (f : StgModel -> StgModel) : M unit :=
  fun w => match models w !! m with
           | Some Mm => Ok (tt, set_models (<[m := f Mm]> (models w)) w)
           | None => Fault WildPointer
           end.

(** A [for] loop over a list, threading the world. *)
Fixpoint for_each {A} (l : list A) (body : A -> M unit) : M unit :=
  match l with
  | [] => ret tt
  | a :: l' => body a ;; for_each l' body
  end.

(** A [for] loop that carries a local variable. *)
Fixpoint for_fold {A S} (l : list A) (body : A -> S -> M S) (s : S) : M S :=
  match l with
  | [] => ret s
  | a :: l' => s' <- body a s ;; for_fold l' body s'
  end.

(** Calling a method through a pointer that may be null. *)
Definition deref (p : option model_id) : M model_id :=
  match p with
  | Some m => ret m
  | None => raise NullPointer
  end.

(** ** What the model methods call outside model.cc *)

(** Modelled from the spec: [StgModel::CallCallbacks] (absent
    model_callbacks.cc) runs the callbacks registered under the address of
    the changed attribute; the call is logged. *)
Definition CallCallbacks (m : model_id) (k : cb_key) : M unit :=
  modify_world (fun w => set_events (events w ++ [EvCallback m k]) w).

(** A call of user code that is not a callback ([initfunc]), logged. *)
Definition log_event (e : event) : M unit :=
  modify_world (fun w => set_events (events w ++ [e]) w).

(** GLib's [g_list_remove]: drop the first element equal to [m]. *)
Fixpoint g_list_remove (l : list model_id) (m : model_id) : list model_id :=
  match l with
  | [] => []
  | x :: l' => if Nat.eqb x m then l' else x :: g_list_remove l' m
  end.

Definition g_list_prepend (l : list model_id) (m : model_id) : list model_id :=
  m :: l.

Definition g_list_append (l : list model_id) (m : model_id) : list model_id :=
  l ++ [m].

Definition g_list_find (l : list model_id) (m : model_id) : bool :=
  existsb (Nat.eqb m) l.

Definition block_ref_eqb (a b : block_ref) : bool :=
  Nat.eqb (fst a) (fst b) && Nat.eqb (snd a) (snd b).

(** Modelled from the spec: [stg_polygon_3d] with [StgWorld::AddBlockPixel]
    (absent), the last call of [StgBlock::Map], records the block in the
    index for every pixel that an edge of its outline crosses.  The
    spatial index is kept as the collection of the mapped blocks: those
    that [StgBlock::Map] entered and [StgBlock::UnMap] has not taken out
    since.  The pixels of a footprint, and what a block stores for the
    raytracer when it is mapped (its outline in pixels, its global z
    bounds, the handles of its entries), are not represented. *)
Definition stg_polygon_3d (b : block_ref) : M unit :=
  modify_world (fun w => set_bitmap (b :: bitmap w) w).

(** [void StgBlock::UnMap()]: every entry recorded for the block is
    deleted from the index and the record of them is emptied; a second
    call finds nothing to delete. *)
Definition StgBlock_UnMap (b : block_ref) : M unit :=
  modify_world
    (fun w => set_bitmap (List.filter (fun e => negb (block_ref_eqb e b)) (bitmap w)) w).

(** Modelled from the spec: [StgWorld::StartUpdatingModel] (absent
    world.cc) places the model on the world's update list, once. *)
Definition StartUpdatingModel (m : model_id) : M unit :=
  modify_world
    (fun w => if g_list_find (update_list w) m then w
              else set_update_list (g_list_append (update_list w) m) w).

(** Modelled from the spec: [StgWorld::StopUpdatingModel] (absent
    world.cc) removes the model from the world's update list. *)
Definition StopUpdatingModel (m : model_id) : M unit :=
  modify_world (fun w => set_update_list (g_list_remove (update_list w) m) w).

(** ** The methods of [StgModel] *)

(** [void StgModel::AddBlockRect( double x, double y, double width,
     double height )]: the rectangle handed to [AddBlock]. *)
Definition AddBlockRect (x y width height : R) : StgBlock :=
  mk_block [ mk_point x y;
             mk_point (x + width) y;
             mk_point (x + width) (y + height);
             mk_point x (y + height) ]
           0 1 0 true.

(** The fields as the constructor [StgModel::StgModel] leaves them. *)
Definition DEFAULT_COLOR : Z := 4294901760.

Definition new_model (parent0 : option model_id) : StgModel :=
  mk_model parent0 [] pose_zero pose_zero true pose_zero false false false
    [AddBlockRect (-0.5) (-0.5) 1 1] true
    (mk_geom pose_zero (mk_size 0.1 0.1 0.1)) DEFAULT_COLOR 1 0 false [].

(** [bool StgModel::IsAntecedent( StgModel* testmod )].  The recursive
    call goes through [this->Parent()] without testing it. *)
Fixpoint IsAntecedent (fuel : nat) (m testmod : model_id) : M bool :=
  match fuel with
  | O => raise OutOfFuel
  | S f =>
      if Nat.eqb m testmod then ret true
      else
        Mm <- get_model m ;;
        p <- deref (parent Mm) ;;
        r <- IsAntecedent f p testmod ;;
        if r then ret true else ret false
  end.

Definition add_z (dz : R) (p : stg_pose_t) : stg_pose_t :=
  mk_pose (pose_x p) (pose_y p) (pose_z p + dz) (pose_a p).

(** [stg_pose_t StgModel::GetGlobalPose()].  The test of [gpose_dirty] is
    commented out in the source: the pose is recomputed on every call. *)
Fixpoint GetGlobalPose (fuel : nat) (m : model_id) : M stg_pose_t :=
  match fuel with
  | O => raise OutOfFuel
  | S f =>
      Mm <- get_model m ;;
      match parent Mm with
      | Some p =>
          parent_pose <- GetGlobalPose f p ;;
          Mm <- get_model m ;;
          modify_model m (set_global_pose (stg_pose_sum parent_pose (pose Mm))) ;;
          Pm <- get_model p ;;
          modify_model m
            (fun X => set_global_pose (add_z (size_z (geom_size (geom Pm))) (global_pose X)) X)
      | None =>
          modify_model m (fun X => set_global_pose (pose X) X)
      end ;;
      modify_model m (set_gpose_dirty false) ;;
      Mm <- get_model m ;;
      ret (global_pose Mm)
  end.

(** [stg_pose_t StgModel::LocalToGlobal( stg_pose_t pose )] *)
Definition LocalToGlobal (fuel : nat) (m : model_id) (pose0 : stg_pose_t)
  : M stg_pose_t :=
  g <- GetGlobalPose fuel m ;;
  Mm <- get_model m ;;
  ret (pose_sum (pose_sum g (geom_pose (geom Mm))) pose0).

(** [void StgModel::GlobalToLocal( stg_pose_t* pose )]; the pose written
    through the pointer is the result. *)
Definition GlobalToLocal (fuel : nat) (m : model_id) (pose0 : stg_pose_t)
  : M stg_pose_t :=
  org <- GetGlobalPose fuel m ;;
  ret (global_to_local org pose0).

Record stg_point3_t := mk_point3 { pt3_x : R; pt3_y : R; pt3_z : R }.

(** [stg_point3_t StgModel::LocalToGlobal( stg_point3_t point )] *)
Definition LocalToGlobal_point (fuel : nat) (m : model_id) (point : stg_point3_t)
  : M stg_point3_t :=
  let pose0 := mk_pose (pt3_x point) (pt3_y point) (pt3_z point) 0 in
  pose1 <- LocalToGlobal fuel m pose0 ;;
  ret (mk_point3 (pose_x pose1) (pose_y pose1) (pose_z pose1)).

(** The blocks of model [m], by reference, in list order. *)
Definition block_refs (m : model_id) (Mm : StgModel) : list block_ref :=
  map (fun i => (m, i)) (seq 0 (length (blocks Mm))).

(** Reading [*block]. *)
Definition get_block (b : block_ref) : M StgBlock :=
  Mm <- get_model (Model b) ;;
  match blocks Mm !! snd b with
  | Some blk => ret blk
  | None => raise WildPointer
  end.

(** [void StgBlock::Map()]: every vertex of the outline is sent through
    the owner's [LocalToGlobal], which recomputes the cached global pose
    of the owner and of its ancestors; then the outline is entered in
    the index. *)
Definition StgBlock_Map (fuel : nat) (b : block_ref) : M unit :=
  blk <- get_block b ;;
  for_each (blk_pts blk)
    (fun pt =>
       LocalToGlobal_point fuel (Model b)
         (mk_point3 (pt_x pt) (pt_y pt) (blk_zmin blk)) ;;
       ret tt) ;;
  stg_polygon_3d b.

(** [void StgModel::Map()] *)
Definition Map (fuel : nat) (m : model_id) : M unit :=
  Mm <- get_model m ;;
  for_each (block_refs m Mm) (StgBlock_Map fuel).

(** [void StgModel::UnMap()] *)
Definition UnMap (m : model_id) : M unit :=
  Mm <- get_model m ;;
  for_each (block_refs m Mm) StgBlock_UnMap.

(** [void StgModel::MapWithChildren()].  The fuel bounds the depth of
    the walk down the children; each [Map] on the way is given the whole
    of it for the walks up the parents that it starts. *)
Definition MapWithChildren (fuel : nat) : model_id -> M unit :=
  (fix down (n : nat) (m : model_id) {struct n} : M unit :=
     match n with
     | O => raise OutOfFuel
     | S n' =>
         Map fuel m ;;
         Mm <- get_model m ;;
         for_each (children Mm) (down n')
     end) fuel.

(** [void StgModel::UnMapWithChildren()] *)
Fixpoint UnMapWithChildren (fuel : nat) (m : model_id) : M unit :=
  match fuel with
  | O => raise OutOfFuel
  | S f =>
      UnMap m ;;
      Mm <- get_model m ;;
      for_each (children Mm) (UnMapWithChildren f)
  end.

(** [void StgModel::Startup( void )] *)
Definition Startup (m : model_id) : M unit :=
  Mm <- get_model m ;;
  (if initfunc Mm then log_event (EvInit m) else ret tt) ;;
  StartUpdatingModel m ;;
  CallCallbacks m K_startup_hook.

(** [void StgModel::Shutdown( void )] *)
Definition Shutdown (m : model_id) : M unit :=
  StopUpdatingModel m ;;
  CallCallbacks m K_shutdown_hook.

(** [void StgModel::Subscribe( void )] *)
Definition Subscribe (m : model_id) : M unit :=
  modify_model m (fun X => set_subs (subs X + 1) X) ;;
  modify_world (fun w => set_total_subs (total_subs w + 1) w) ;;
  Mm <- get_model m ;;
  if (subs Mm =? 1)%Z then Startup m else ret tt.

(** [void StgModel::Unsubscribe( void )] (the [printf] is not modelled) *)
Definition Unsubscribe (m : model_id) : M unit :=
  modify_model m (fun X => set_subs (subs X - 1) X) ;;
  modify_world (fun w => set_total_subs (total_subs w - 1) w) ;;
  Mm <- get_model m ;;
  if (subs Mm <? 1)%Z then Shutdown m else ret tt.

(** [void StgModel::SetVelocity( stg_velocity_t vel )] *)
Definition SetVelocity (m : model_id) (vel : stg_velocity_t) : M unit :=
  modify_model m (set_velocity vel) ;;
  Mm <- get_model m ;;
  (if negb (on_velocity_list Mm) && velocity_is_nonzero (velocity Mm) then
     modify_world (fun w => set_velocity_list (g_list_prepend (velocity_list w) m) w) ;;
     modify_model m (set_on_velocity_list true)
   else ret tt) ;;
  Mm <- get_model m ;;
  (if on_velocity_list Mm && negb (velocity_is_nonzero (velocity Mm)) then
     modify_world (fun w => set_velocity_list (g_list_remove (velocity_list w) m) w) ;;
     modify_model m (set_on_velocity_list false)
   else ret tt) ;;
  CallCallbacks m K_velocity.

(** [void StgModel::SetStall( stg_bool_t stall )] *)
Definition SetStall (m : model_id) (b : bool) : M unit :=
  modify_model m (set_stall b) ;;
  CallCallbacks m K_stall.

(** [void StgModel::NeedRedraw( void )] *)
Fixpoint NeedRedraw (fuel : nat) (m : model_id) : M unit :=
  match fuel with
  | O => raise OutOfFuel
  | S f =>
      modify_model m (set_rebuild_displaylist true) ;;
      Mm <- get_model m ;;
      match parent Mm with
      | Some p => NeedRedraw f p
      | None => ret tt
      end
  end.

(** [void StgModel::GPoseDirtyTree( void )] *)
Fixpoint GPoseDirtyTree (fuel : nat) (m : model_id) : M unit :=
  match fuel with
  | O => raise OutOfFuel
  | S f =>
      modify_model m (set_gpose_dirty true) ;;
      Mm <- get_model m ;;
      for_each (children Mm) (GPoseDirtyTree f)
  end.

Definition with_a (a : R) (p : stg_pose_t) : stg_pose_t :=
  mk_pose (pose_x p) (pose_y p) (pose_z p) a.

(** [void StgModel::SetPose( stg_pose_t pose )] *)
Definition SetPose (fuel : nat) (m : model_id) (pose0 : stg_pose_t) : M unit :=
  Mm <- get_model m ;;
  (if pose_eq_dec (pose Mm) pose0 then ret tt
   else
     UnMapWithChildren fuel m ;;
     let pose1 := with_a (normalize (pose_a pose0)) pose0 in
     modify_model m (set_pose pose1) ;;
     modify_model m (fun X => set_pose (with_a (normalize (pose_a (pose X))) (pose X)) X) ;;
     NeedRedraw fuel m ;;
     GPoseDirtyTree fuel m ;;
     MapWithChildren fuel m) ;;
  CallCallbacks m K_pose.

(** What the raytracer and the match functions can see of the world: the
    cached global poses and their dirty flags are blanked, since neither
    the pixel index nor a match function reads them. *)
Definition blank_cache (X : StgModel) : StgModel :=
  set_gpose_dirty true (set_global_pose pose_zero X).

Definition raster_view (w : StgWorld) : StgWorld :=
  set_models (map blank_cache (models w)) w.

(** [int StgModel::ObstacleReturn()], read through a block's owner. *)
Definition ObstacleReturn (w : StgWorld) (m : model_id) : bool :=
  match models w !! m with
  | Some Mm => negb (obstacle_return Mm =? 0)%Z
  | None => false
  end.

(** [static bool collision_match( StgBlock* testblock, StgModel* finder )] *)
Definition collision_match (w : StgWorld) (testblock : block_ref)
    (finder : model_id) : bool :=
  negb (Nat.eqb (Model testblock) finder) && ObstacleReturn w (Model testblock).

Definition stg_block_match_func_t : Type := StgWorld -> block_ref -> model_id -> bool.

Definition point_zero : stg_point_t := mk_point 0 0.

(** The ray cast along the edge that starts at vertex [p] of a block:
    the body of the inner loop of [TestCollision], up to the call. *)
Definition edge_pose (pts : list stg_point_t) (p : nat) : stg_pose_t :=
  let pt1 := nth p pts point_zero in
  let pt2 := nth ((p + 1) mod length pts) pts point_zero in
  let dx := (pt_x pt2 - pt_x pt1)%R in
  let dy := (pt_y pt2 - pt_y pt1)%R in
  let bearing := atan2 dy dx in
  mk_pose (pt_x pt1) (pt_y pt1) 0 bearing.

Definition edge_range (pts : list stg_point_t) (p : nat) : R :=
  let pt1 := nth p pts point_zero in
  let pt2 := nth ((p + 1) mod length pts) pts point_zero in
  let dx := (pt_x pt2 - pt_x pt1)%R in
  let dy := (pt_y pt2 - pt_y pt1)%R in
  hypot dx dy.

Section Raytracing.

(** [StgWorld::Raytrace( pose, range, func, finder, arg, sample, ztest )]
    lives in the absent world.cc and is a parameter of the development:
    given the world as rasterised, the ray's origin and range, the match
    function, the requesting model and the z-test flag, it yields
    [sample.block], the first block the match function accepts along the
    ray, if any. *)
Variable world_Raytrace :
  StgWorld -> stg_pose_t -> R -> (block_ref -> model_id -> bool) ->
  model_id -> bool -> option block_ref.

(** [void StgModel::Raytrace( stg_pose_t pose, stg_meters_t range,
     stg_block_match_func_t func, const void* arg,
     stg_raytrace_sample_t* sample, bool ztest )] *)
Definition Raytrace (fuel : nat) (m : model_id) (pose0 : stg_pose_t)
    (range : R) (func : stg_block_match_func_t) (ztest : bool)
  : M (option block_ref) :=
  origin <- LocalToGlobal fuel m pose0 ;;
  w <- get_world ;;
  ret (world_Raytrace (raster_view w) origin range (func (raster_view w)) m ztest).

(** [StgModel* StgModel::TestCollision( stg_pose_t posedelta,
     stg_meters_t* hitx, stg_meters_t* hity )] *)
Definition TestCollision (fuel : nat) (m : model_id) (posedelta : stg_pose_t)
  : M (option model_id) :=
  Mm <- get_model m ;;
  match blocks Mm with
  | [] => ret None
  | _ :: _ =>
      UnMap m ;;
      hitmod <-
        for_fold (blocks Mm)
          (fun b hitmod =>
             let pts := blk_pts b in
             let pt_count := length pts in
             for_fold (seq 0 pt_count)
               (fun p hitmod =>
                  sample <- Raytrace fuel m (pose_sum posedelta (edge_pose pts p))
                              (edge_range pts p) collision_match true ;;
                  ret (match sample with
                       | Some blk => Some (Model blk)
                       | None => hitmod
                       end))
               hitmod)
          None ;;
      Map fuel m ;;
      ret hitmod
  end.

(** [void StgModel::UpdatePose( void )] *)
Definition UpdatePose (fuel : nat) (m : model_id) : M unit :=
  Mm <- get_model m ;;
  if disabled Mm then ret tt
  else
    w <- get_world ;;
    (if (updates w mod 10 =? 0)%Z then
       let checkpoint := mk_trail_item (pose Mm) (color Mm) (sim_time w) in
       (if 100 <? length (trail Mm)
        then modify_model m (fun X => set_trail (drop 1 (trail X)) X)
        else ret tt) ;;
       modify_model m (fun X => set_trail (trail X ++ [checkpoint]) X)
     else ret tt) ;;
    let interval := (IZR (interval_sim w) / 1000000)%R in
    let p := mk_pose (pose_x (velocity Mm) * interval)
                     (pose_y (velocity Mm) * interval)
                     0
                     (pose_a (velocity Mm) * interval) in
    hitthing <- TestCollision fuel m p ;;
    match hitthing with
    | Some _ => SetStall m true
    | None =>
        SetStall m false ;;
        Mm <- get_model m ;;
        let newpose := stg_pose_sum (pose Mm) p in
        SetPose fuel m newpose
    end.

(** Modelled from the spec: the world's tick (absent world.cc) drives
    [UpdatePose] for each model on the velocity list, advances [sim_time]
    by [interval_sim] and counts the update. *)
Definition Tick (fuel : nat) : M unit :=
  w <- get_world ;;
  for_each (velocity_list w) (UpdatePose fuel) ;;
  modify_world
    (fun w => set_updates (updates w + 1) (set_sim_time (sim_time w + interval_sim w) w)).

Fixpoint run_ticks (fuel : nat) (n : nat) : M unit :=
  match n with
  | O => ret tt
  | S n' => Tick fuel ;; run_ticks fuel n'
  end.

End Raytracing.

(** ** Shape of the model tree *)

(** The chain of parents that starts at [m] stays inside the world and
    ends at a model without parent, visiting at most [n] models. *)
Fixpoint rooted (w : StgWorld) (n : nat) (m : model_id) : bool :=
  match n with
  | O => false
  | S n' =>
      match models w !! m with
      | None => false
      | Some X =>
          match parent X with
          | None => true
          | Some p => rooted w n' p
          end
      end
  end.

(** [m] followed by its ancestors, nearest first. *)
Fixpoint ancestors (w : StgWorld) (n : nat) (m : model_id) : list model_id :=
  match n with
  | O => []
  | S n' =>
      m :: match models w !! m with
           | None => []
           | Some X =>
               match parent X with
               | None => []
               | Some p => ancestors w n' p
               end
           end
  end.

(** The subtree below [m] stays inside the world and has at most [n]
    levels. *)
Fixpoint tree_ok (w : StgWorld) (n : nat) (m : model_id) : bool :=
  match n with
  | O => false
  | S n' =>
      match models w !! m with
      | None => false
      | Some X => forallb (tree_ok w n') (children X)
      end
  end.

(** [m] followed by its descendants, in the order the recursive walks
    visit them. *)
Fixpoint subtree (w : StgWorld) (n : nat) (m : model_id) : list model_id :=
  match n with
  | O => []
  | S n' =>
      m :: match models w !! m with
           | None => []
           | Some X => flat_map (subtree w n') (children X)
           end
  end.

(** Every model of the subtree below [m] has a chain of parents that
    ends within [n] models. *)
Definition subtree_rooted (w : StgWorld) (n : nat) (m : model_id) : bool :=
  forallb (rooted w n) (subtree w n m).

(** The model is one of the world. *)
Definition present (w : StgWorld) (d : model_id) : Prop :=
  exists X, models w !! d = Some X.

(** What [Map] asks of the model it acts on: the model is there and its
    chain of parents ends within the fuel. *)
Definition mappable (fuel : nat) (w : StgWorld) (d : model_id) : Prop :=
  present w d /\ rooted w fuel d = true.

(** The global pose as the specification words it: the parent's global
    pose composed with the model's own pose, raised by the parent's
    height; the model's own pose when it has no parent. *)
Fixpoint global_pose_of (w : StgWorld) (n : nat) (m : model_id) : option stg_pose_t :=
  match n with
  | O => None
  | S n' =>
      match models w !! m with
      | None => None
      | Some X =>
          match parent X with
          | None => Some (pose X)
          | Some p =>
              match global_pose_of w n' p, models w !! p with
              | Some g, Some P =>
                  Some (add_z (size_z (geom_size (geom P))) (pose_sum g (pose X)))
              | _, _ => None
              end
          end
      end
  end.

(** ** Invariants of the world's lists *)

(** Invariant 5 of the specification: a model is on the update list
    exactly when its subscription count is at least 1 (and it is listed
    once). *)
Definition update_inv (w : StgWorld) : Prop :=
  NoDup (update_list w) /\
  forall m X, models w !! m = Some X ->
              g_list_find (update_list w) m = (1 <=? subs X)%Z.

(** Invariant 4 of the specification: a model is on the velocity list
    exactly when its [on_velocity_list] flag is set (and it is listed
    once). *)
Definition velocity_inv (w : StgWorld) : Prop :=
  NoDup (velocity_list w) /\
  forall m X, models w !! m = Some X ->
              g_list_find (velocity_list w) m = on_velocity_list X.

(** ** Frames: what a computation leaves alone *)

Definition keeps {T A} (phi : StgWorld -> T) (c : M A) : Prop :=
  forall w a w', c w = Ok (a, w') -> phi w' = phi w.

Definition model_blind {T} (phi : StgWorld -> T) (f : StgModel -> StgModel) : Prop :=
  forall w m X, models w !! m = Some X ->
                phi (set_models (<[m := f X]> (models w)) w) = phi w.

Definition world_blind {T} (phi : StgWorld -> T) (f : StgWorld -> StgWorld) : Prop :=
  forall w, phi (f w) = phi w.

(** Projections of the world that are blind to assignments. *)
Definition field {T} (g : StgModel -> T) (i : model_id) : StgWorld -> option T :=
  fun w => g <$> models w !! i.

Definition view {T} (g : StgModel -> T) : StgWorld -> list T :=
  fun w => g <$> models w.

(** Projections that do not look at the pixel index, or at the log. *)
Definition bitmap_blind {T} (phi : StgWorld -> T) : Prop :=
  forall bm w, phi (set_bitmap bm w) = phi w.

Definition events_blind {T} (phi : StgWorld -> T) : Prop :=
  forall ev w, phi (set_events ev w) = phi w.

(** ** The methods, in pieces *)

(** The world after the count of [m] moved by [d]. *)
Definition after_sub (d : Z) (m : model_id) (X : StgModel) (w : StgWorld) : StgWorld :=
  set_total_subs (total_subs w + d)
    (set_models (<[m := set_subs (subs X + d) X]> (models w)) w).

(** What [Startup] logs. *)
Definition startup_events (m : model_id) (X : StgModel) : list event :=
  (if initfunc X then [EvInit m] else []) ++ [EvCallback m K_startup_hook].

(** ** The recursive walks, uniformly *)

(** The three walks over a subtree ([MapWithChildren], [UnMapWithChildren]
    and [GPoseDirtyTree]) share one shape: act on the model, then recurse
    into its children. *)
Fixpoint walk (op : model_id -> M unit) (fuel : nat) (m : model_id) : M unit :=
  match fuel with
  | O => raise OutOfFuel
  | S f =>
      op m ;;
      Mm <- get_model m ;;
      for_each (children Mm) (walk op f)
  end.

(** The world after [op d], the world itself if [op d] faults. *)
Definition apply_op (op : model_id -> M unit) (w : StgWorld) (d : model_id) : StgWorld :=
  match op d w with
  | Ok (_, w') => w'
  | Fault _ => w
  end.

(** The heading [SetPose] stores. *)
Definition stored_pose (p : stg_pose_t) : stg_pose_t :=
  with_a (normalize (normalize (pose_a p))) p.

(** ** The edge rays of [TestCollision], listed *)

Definition hit_update (hitmod : option model_id) (sample : option block_ref)
  : option model_id :=
  match sample with
  | Some blk => Some (Model blk)
  | None => hitmod
  end.

(** The model of the last sample that holds a block. *)
Definition last_hit (samples : list (option block_ref)) : option model_id :=
  fold_left hit_update samples None.

(** The model of the first sample that holds a block. *)
Fixpoint first_hit (samples : list (option block_ref)) : option model_id :=
  match samples with
  | [] => None
  | Some blk :: _ => Some (Model blk)
  | None :: l => first_hit l
  end.

Section EdgeSamples.

Variable world_Raytrace :
  StgWorld -> stg_pose_t -> R -> (block_ref -> model_id -> bool) ->
  model_id -> bool -> option block_ref.

(** The sample of the ray along the edge that starts at vertex [p], for a
    mover [m] with record [X] and global pose [gp], in the rasterised
    world [wv]. *)
Definition edge_sample (wv : StgWorld) (gp : stg_pose_t) (X : StgModel)
    (m : model_id) (posedelta : stg_pose_t) (pts : list stg_point_t) (p : nat)
  : option block_ref :=
  world_Raytrace wv
    (pose_sum (pose_sum gp (geom_pose (geom X)))
              (pose_sum posedelta (edge_pose pts p)))
    (edge_range pts p) (collision_match wv) m true.

(** All samples, block after block and edge after edge. *)
Definition edge_samples (wv : StgWorld) (gp : stg_pose_t) (X : StgModel)
    (m : model_id) (posedelta : stg_pose_t) : list (option block_ref) :=
  flat_map
    (fun b => map (edge_sample wv gp X m posedelta (blk_pts b))
                  (seq 0 (length (blk_pts b))))
    (blocks X).

End EdgeSamples.

(** The trail [UpdatePose] leaves: a checkpoint is appended when the
    update counter is a multiple of 10, after dropping the oldest entry
    when more than 100 are held. *)
Definition checkpointed (w : StgWorld) (X : StgModel) : list stg_trail_item_t :=
  if (updates w mod 10 =? 0)%Z then
    (if 100 <? length (trail X) then drop 1 (trail X) else trail X)
    ++ [mk_trail_item (pose X) (color X) (sim_time w)]
  else trail X.

(** The world when the collision test starts. *)
Definition trail_checked (w : StgWorld) (m : model_id) (X : StgModel) : StgWorld :=
  set_models (<[m := set_trail (checkpointed w X) X]> (models w)) w.

(** The pose change of one tick: the velocity times the tick length in
    seconds, with no change of height. *)
Definition pose_delta (w : StgWorld) (X : StgModel) : stg_pose_t :=
  let interval := (IZR (interval_sim w) / 1000000)%R in
  mk_pose (pose_x (velocity X) * interval)
          (pose_y (velocity X) * interval)
          0
          (pose_a (velocity X) * interval).

(** The pose [SetPose] leaves when asked for [p] on a model at [old]. *)
Definition pose_after_SetPose (old p : stg_pose_t) : stg_pose_t :=
  if pose_eq_dec old p then old else stored_pose p.

(** The length of the trail after one more tick, and after [n]. *)
Definition trail_len_step (u : Z) (len : nat) : nat :=
  if (u mod 10 =? 0)%Z then (if 100 <? len then len - 1 else len) + 1 else len.

Fixpoint trail_len_after (n : nat) (u : Z) (len : nat) : nat :=
  match n with
  | O => len
  | S n' => trail_len_after n' (u + 1) (trail_len_step u len)
  end.

(** The pose change as the specification words it: the velocity times
    the tick length, in all four components. *)
Definition claimed_delta (w : StgWorld) (X : StgModel) : stg_pose_t :=
  let interval := (IZR (interval_sim w) / 1000000)%R in
  mk_pose (pose_x (velocity X) * interval)
          (pose_y (velocity X) * interval)
          (pose_z (velocity X) * interval)
          (pose_a (velocity X) * interval).

(** A world of one enabled model without parent or children, which is
    the only entry of the velocity list. *)
Definition solo (w : StgWorld) : Prop :=
  velocity_list w = [0]
  /\ view (fun Y => (parent Y, children Y, disabled Y)) w = [(None, [], false)].

(** ** The raytracer, as far as the specification fixes it *)

(** The point at distance [s] along the ray that starts at [origin] with
    the bearing of [origin]. *)
Definition ray_point (origin : stg_pose_t) (s : R) : stg_point_t :=
  mk_point (pose_x origin + s * cos (pose_a origin))
           (pose_y origin + s * sin (pose_a origin)).

(** The vertex [pt] of a block of model [d] in global coordinates, as
    [StgBlock::Map] obtains it from the owner's [LocalToGlobal], for the
    poses that [wv] holds. *)
Definition global_vertex (wv : StgWorld) (d : model_id) (pt : stg_point_t)
  : option stg_point_t :=
  match models wv !! d, global_pose_of wv (length (models wv)) d with
  | Some Y, Some gp =>
      let q := pose_sum (pose_sum gp (geom_pose (geom Y)))
                        (mk_pose (pt_x pt) (pt_y pt) 0 0) in
      Some (mk_point (pose_x q) (pose_y q))
  | _, _ => None
  end.

(** [q] lies on the outline of the block [b]: on the edge between two
    consecutive vertices, the last edge closing the outline. *)
Definition on_outline (wv : StgWorld) (b : block_ref) (q : stg_point_t) : Prop :=
  exists Y blk i v1 v2 t,
    models wv !! Model b = Some Y
    /\ blocks Y !! snd b = Some blk
    /\ i < length (blk_pts blk)
    /\ global_vertex wv (Model b) (nth i (blk_pts blk) point_zero) = Some v1
    /\ global_vertex wv (Model b)
         (nth ((i + 1) mod length (blk_pts blk)) (blk_pts blk) point_zero) = Some v2
    /\ (0 <= t <= 1)%R
    /\ q = mk_point (pt_x v1 + t * (pt_x v2 - pt_x v1))
                    (pt_y v1 + t * (pt_y v2 - pt_y v1)).

(** Modelled from the spec: what [StgWorld::Raytrace] (absent world.cc)
    may return.  The ray is walked pixel by pixel from its origin along
    its bearing up to [range]; in each pixel the blocks recorded there
    are scanned, those of the requesting model are passed over, and the
    first block that the match function accepts ends the ray and is
    returned.  [StgBlock::Map] records a block in the pixels that the
    edges of its outline cross.  So a block that is returned is in the
    index, belongs to another model than the requester, is accepted by
    the match function, and a point of its outline shares a pixel with a
    point of the ray: the two are within [tol] of each other in x and in
    y, [tol] being the width of a pixel or of a few.  Which pixels a line
    is drawn through exactly is left to the implementation, and nothing
    is asked here of a ray that returns no block. *)
Definition conforming (tol : R)
    (world_Raytrace : StgWorld -> stg_pose_t -> R -> (block_ref -> model_id -> bool) ->
                      model_id -> bool -> option block_ref) : Prop :=
  forall wv origin range func finder ztest b,
    world_Raytrace wv origin range func finder ztest = Some b ->
    In b (bitmap wv)
    /\ Model b <> finder
    /\ func b finder = true
    /\ exists s q,
         (0 <= s <= range)%R
         /\ on_outline wv b q
         /\ (Rabs (pt_x (ray_point origin s) - pt_x q) <= tol)%R
         /\ (Rabs (pt_y (ray_point origin s) - pt_y q) <= tol)%R.

(** ** Scenarios *)

(** Modelled from the spec: the world is the root of the models that
    have no parent.  The constructor hands them to the world's
    [AddChild] (absent ancestor.cc), taken to append to the world's
    [children]: the models without parent among [ms], numbered from [i],
    in the order of construction. *)
Fixpoint top_level (i : model_id) (ms : list StgModel) : list model_id :=
  match ms with
  | [] => []
  | X :: ms' =>
      match parent X with
      | None => i :: top_level (S i) ms'
      | Some _ => top_level (S i) ms'
      end
  end.

(** A world that holds the models [ms]: nothing mapped, nothing moving,
    ticks of 100 ms. *)
Definition new_world (ms : list StgModel) : StgWorld :=
  mk_world ms [] [] 0 0 0 100000 [] [] (top_level 0 ms).

(** Scenario S1: a parent at (1, 0, 0, pi/2) of height 0.2 and its child
    at local pose (1, 0, 0, 0). *)
Definition S1_parent : StgModel :=
  set_children [1]
    (set_geom (mk_geom pose_zero (mk_size 0.1 0.1 0.2))
       (set_pose (new_pose 1 0 0 (PI / 2)) (new_model None))).

Definition S1_child : StgModel :=
  set_pose (new_pose 1 0 0 0) (new_model (Some 0)).

Definition S1_world : StgWorld := new_world [S1_parent; S1_child].

(** A chain of three models: 0 is the root, 1 its child, 2 the child of
    1; model 3 stands apart as a second root. *)
Definition chain_world : StgWorld :=
  new_world [ set_children [1] (new_model None);
              set_children [2] (new_model (Some 0));
              new_model (Some 1);
              new_model None ].

(** Scenario S5: a model with an [initfunc]. *)
Definition S5_world : StgWorld := new_world [set_initfunc true (new_model None)].

Definition S5_run : M unit :=
  Subscribe 0 ;; Subscribe 0 ;; Subscribe 0 ;; Unsubscribe 0 ;; Unsubscribe 0.

(** Scenario for [SetPose]: the chain world with every block mapped. *)
Definition mapped_chain_world : StgWorld :=
  set_bitmap [(0, 0); (1, 0); (2, 0); (3, 0)] chain_world.

(** The mover, model 0, at the origin; model 1 north of it at
    (0, 1, 0, 0) and model 2 south of it at (0, -1, 0, 0); all three are
    unit squares and obstacles. *)
Definition flank_world : StgWorld :=
  set_bitmap [(0, 0); (1, 0); (2, 0)]
    (new_world [ new_model None;
                 set_pose (new_pose 0 1 0 0) (new_model None);
                 set_pose (new_pose 0 (-1) 0 0) (new_model None) ]).

(** A raytracer for that scene: a ray that starts south of the x axis
    meets the block of model 2, any other ray the block of model 1; the
    block is the sample when the match function accepts it. *)
Definition flank_Raytrace (wv : StgWorld) (origin : stg_pose_t) (range : R)
    (func : block_ref -> model_id -> bool) (finder : model_id) (ztest : bool)
  : option block_ref :=
  let cand := if Rlt_dec (pose_y origin) 0 then (2, 0) else (1, 0) in
  if func cand finder then Some cand else None.

(** A raytracer that never finds a block: open space. *)
Definition clear_Raytrace (wv : StgWorld) (origin : stg_pose_t) (range : R)
    (func : block_ref -> model_id -> bool) (finder : model_id) (ztest : bool)
  : option block_ref := None.

(** A body of 1 x 1 x 1 m centred on the model's origin. *)
Definition unit_cube : stg_geom_t := mk_geom pose_zero (mk_size 1 1 1).

(** A model on the velocity list with velocity [v]. *)
Definition moving (v : stg_velocity_t) (X : StgModel) : StgModel :=
  set_on_velocity_list true (set_velocity v X).

(** A world that holds the models [ms], with the velocity list [vl], ticks
    of [interval] microseconds and the blocks [bm] mapped. *)
Definition world_of (ms : list StgModel) (vl : list model_id) (interval : Z)
    (bm : list block_ref) : StgWorld :=
  mk_world ms vl [] 0 0 0 interval bm [] (top_level 0 ms).

(** Scenario S2: A at the origin moving along x at speed [v], the
    obstacle B at (2, 0, 0, 0), both unit squares; a tick lasts 1 s. *)
Definition S2_world (v : R) : StgWorld :=
  world_of [ moving (new_pose v 0 0 0) (set_geom unit_cube (new_model None));
             set_pose (new_pose 2 0 0 0) (set_geom unit_cube (new_model None)) ]
           [0] 1000000 [(0, 0); (1, 0)].

(** The mover A of scenario S2 at speed [v], and the obstacle B. *)
Definition S2_A (v : R) : StgModel :=
  moving (new_pose v 0 0 0) (set_geom unit_cube (new_model None)).

Definition S2_B : StgModel :=
  set_pose (new_pose 2 0 0 0) (set_geom unit_cube (new_model None)).

(** A raytracer that conforms and does find blocks: it returns block 0 of
    model 1 for a ray that starts on the first vertex of that block's
    outline, when the block is mapped, is not the requester's and is
    accepted by the match function. *)
Definition corner_Raytrace (wv : StgWorld) (origin : stg_pose_t) (range : R)
    (func : block_ref -> model_id -> bool) (finder : model_id) (ztest : bool)
  : option block_ref :=
  match models wv !! 1 with
  | Some Y =>
      match blocks Y !! 0 with
      | Some blk =>
          match blk_pts blk with
          | pt :: _ =>
              match global_vertex wv 1 pt with
              | Some v =>
                  if existsb (block_ref_eqb (1, 0)) (bitmap wv)
                     && negb (Nat.eqb 1 finder)
                     && func (1, 0) finder
                  then
                    if Req_dec_T (pose_x origin) (pt_x v) then
                      if Req_dec_T (pose_y origin) (pt_y v) then
                        if Rle_dec 0 range then Some (1, 0) else None
                      else None
                    else None
                  else None
              | None => None
              end
          | [] => None
          end
      | None => None
      end
  | None => None
  end.

(** A raytracer that finds the block of model 1 on every ray. *)
Definition wall_Raytrace (wv : StgWorld) (origin : stg_pose_t) (range : R)
    (func : block_ref -> model_id -> bool) (finder : model_id) (ztest : bool)
  : option block_ref :=
  if func (1, 0) finder then Some (1, 0) else None.

(** A single model rising at 1 m/s; a tick lasts 1 s. *)
Definition climb_world : StgWorld :=
  world_of [moving (new_pose 0 0 1 0) (new_model None)] [0] 1000000 [(0, 0)].

(** A single model at heading 3 rad that turns at 2 rad/s; a tick lasts
    1 s. *)
Definition spin_world : StgWorld :=
  world_of [moving (new_pose 0 0 0 2) (set_pose (new_pose 0 0 0 3) (new_model None))]
           [0] 1000000 [(0, 0)].

(** Scenario S6: a single model moving along x. *)
Definition S6_world : StgWorld :=
  world_of [moving (new_pose 1 0 0 0) (new_model None)] [0] 100000 [(0, 0)].

(** A single model whose body centre is offset by 1 m along x. *)
Definition offset_world : StgWorld :=
  new_world [set_geom (mk_geom (new_pose 1 0 0 0) (mk_size 0.1 0.1 0.1)) (new_model None)].

(** ** Further methods of [StgModel] *)

(** [void pose_invert( stg_pose_t* pose )]: x and y change sign, the
    heading is assigned to itself and z is not mentioned. *)
Definition pose_invert (p : stg_pose_t) : stg_pose_t :=
  mk_pose (- pose_x p) (- pose_y p) (pose_z p) (pose_a p).

(** A [for] loop whose body may [return] from the enclosing function:
    [Some b] leaves the loop with [b], [None] goes on with the next
    element. *)
Fixpoint for_return {A B} (l : list A) (body : A -> M (option B)) : M (option B) :=
  match l with
  | [] => ret None
  | a :: l' =>
      r <- body a ;;
      match r with
      | Some b => ret (Some b)
      | None => for_return l' body
      end
  end.

(** The value such a loop hands back when the body has no effect on the
    world and yields [g a] for the element [a]. *)
Definition first_some {A B} (g : A -> option B) (l : list A) : option B :=
  fold_right (fun a acc => match g a with Some b => Some b | None => acc end) None l.

(** [void StgModel::Init()] *)
Definition Init (m : model_id) : M unit :=
  Mm <- get_model m ;;
  if initfunc Mm then Subscribe m else ret tt.

(** The flag list of a model is touched by the four flag methods only;
    they are written as functions of that list.  A [StgFlag*] is the
    flag's id, the null pointer is [None]. *)
Abbreviation flag_id := nat (only parsing).

(** [void StgModel::AddFlag( StgFlag* flag )] *)
Definition AddFlag (flag_list : list flag_id) (flag : option flag_id) : list flag_id :=
  match flag with
  | Some f => g_list_append flag_list f
  | None => flag_list
  end.

(** [void StgModel::RemoveFlag( StgFlag* flag )] *)
Definition RemoveFlag (flag_list : list flag_id) (flag : option flag_id) : list flag_id :=
  match flag with
  | Some f => g_list_remove flag_list f
  | None => flag_list
  end.

(** [void StgModel::PushFlag( StgFlag* flag )] *)
Definition PushFlag (flag_list : list flag_id) (flag : option flag_id) : list flag_id :=
  match flag with
  | Some f => g_list_prepend flag_list f
  | None => flag_list
  end.

(** [StgFlag* StgModel::PopFlag()]: the flag handed back and the list
    left behind. *)
Definition PopFlag (flag_list : list flag_id) : option flag_id * list flag_id :=
  match flag_list with
  | [] => (None, flag_list)
  | flag :: _ => (Some flag, g_list_remove flag_list flag)
  end.

(** [bool StgModel::IsDescendent( StgModel* testmod )] *)
Fixpoint IsDescendent (fuel : nat) (m testmod : model_id) : M bool :=
  match fuel with
  | O => raise OutOfFuel
  | S f =>
      if Nat.eqb m testmod then ret true
      else
        Mm <- get_model m ;;
        r <- for_return (children Mm)
               (fun child =>
                  d <- IsDescendent f child testmod ;;
                  if d then ret (Some true) else ret None) ;;
        match r with
        | Some b => ret b
        | None => ret false
        end
  end.

(** The [while] loop of [IsRelated]: climb from [t] to the model without
    parent. *)
Fixpoint climb (fuel : nat) (t : model_id) : M model_id :=
  match fuel with
  | O => raise OutOfFuel
  | S f =>
      Tm <- get_model t ;;
      match parent Tm with
      | Some p => climb f p
      | None => ret t
      end
  end.

(** [bool StgModel::IsRelated( StgModel* mod2 )] *)
Definition IsRelated (fuel : nat) (m mod2 : model_id) : M bool :=
  if Nat.eqb m mod2 then ret true
  else
    t <- climb fuel m ;;
    IsDescendent fuel t mod2.

(** [stg_velocity_t StgModel::GetGlobalVelocity()].  The local [gv] is
    declared without initialiser and its z is never assigned: what comes
    back in [gv.z] is whatever the stack held, [stale_z]. *)
Definition GetGlobalVelocity (fuel : nat) (m : model_id) (stale_z : R)
  : M stg_velocity_t :=
  gpose <- GetGlobalPose fuel m ;;
  Mm <- get_model m ;;
  let cosa := cos (pose_a gpose) in
  let sina := sin (pose_a gpose) in
  ret (mk_pose (pose_x (velocity Mm) * cosa - pose_y (velocity Mm) * sina)
               (pose_x (velocity Mm) * sina + pose_y (velocity Mm) * cosa)
               stale_z
               (pose_a (velocity Mm))).

(** [void StgModel::SetGlobalVelocity( stg_velocity_t gv )].  Here too the
    z of the local [lv] is never assigned. *)
Definition SetGlobalVelocity (fuel : nat) (m : model_id) (gv : stg_velocity_t)
    (stale_z : R) : M unit :=
  gpose <- GetGlobalPose fuel m ;;
  let cosa := cos (pose_a gpose) in
  let sina := sin (pose_a gpose) in
  let lv := mk_pose (pose_x gv * cosa + pose_y gv * sina)
                    (- pose_x gv * sina + pose_y gv * cosa)
                    stale_z
                    (pose_a gv) in
  SetVelocity m lv.




(** [int StgModel::TreeToPtrArray( GPtrArray* array )]: the count handed
    back, and the array as the call leaves it. *)
Fixpoint TreeToPtrArray (fuel : nat) (m : model_id) (array : list model_id)
  : M (Z * list model_id) :=
  match fuel with
  | O => raise OutOfFuel
  | S f =>
      let array := array ++ [m] in
      Mm <- get_model m ;;
      for_fold (children Mm)
        (fun child st =>
           r <- TreeToPtrArray f child (snd st) ;;
           ret ((fst st + fst r)%Z, snd r))
        (1%Z, array)
  end.

Section ModelTypes.

(** The [type] member of a model is written by the constructor and by
    nothing else; it is read through a table indexed by the model. *)
Variable type_of : model_id -> Z.

(** [StgModel* StgModel::GetUnsubscribedModelOfType( stg_model_type_t type )]
    (the [printf] is not modelled) *)
Fixpoint GetUnsubscribedModelOfType (fuel : nat) (m : model_id) (type : Z)
  : M (option model_id) :=
  match fuel with
  | O => raise OutOfFuel
  | S f =>
      Mm <- get_model m ;;
      if (type_of m =? type)%Z && (subs Mm =? 0)%Z then ret (Some m)
      else
        for_return (children Mm)
          (fun child => GetUnsubscribedModelOfType f child type)
  end.

(** What [GetUnsubscribedModelOfType] looks for. *)
Definition unsubscribed_of_type (w : StgWorld) (type : Z) (d : model_id) : bool :=
  match models w !! d with
  | Some Y => (type_of d =? type)%Z && (subs Y =? 0)%Z
  | None => false
  end.

End ModelTypes.

(** ** Blocks: clearing and scaling *)

Definition set_blocks (v : list StgBlock) (X : StgModel) : StgModel :=
  mk_model (parent X) (children X) (pose X) (global_pose X) (gpose_dirty X)
    (velocity X) (on_velocity_list X) (stall X) (disabled X) v
    (rebuild_displaylist X) (geom X) (color X) (obstacle_return X) (subs X)
    (initfunc X) (trail X).

(** [void Stg::stg_block_list_destroy( GList* list )]: every block is
    deleted, and [StgBlock::~StgBlock] unmaps the block it destroys. *)
Definition stg_block_list_destroy (refs : list block_ref) : M unit :=
  for_each refs StgBlock_UnMap.

(** [void StgModel::ClearBlocks( void )] *)
Definition ClearBlocks (fuel : nat) (m : model_id) : M unit :=
  Mm <- get_model m ;;
  stg_block_list_destroy (block_refs m Mm) ;;
  modify_model m (set_blocks []) ;;
  NeedRedraw fuel m.

(** The constant [billion] is declared outside model.cc; the comment in
    [ScaleList] gives its value: the blocks are assumed to "fit in a
    square +/- one billion units". *)
Definition billion : R := 1000000000.

(** The locals [minx], [miny], [maxx], [maxy] and [maxz] of [ScaleList]. *)
Record bounds := mk_bounds {
  minx : R; miny : R; maxx : R; maxy : R; maxz : R
}.

Definition bounds_start : bounds :=
  mk_bounds billion billion (- billion) (- billion) 0.

(** The body of the loop over the points of a block. *)
Definition scan_point (b : bounds) (pt : stg_point_t) : bounds :=
  let minx1 := if Rlt_dec (pt_x pt) (minx b) then pt_x pt else minx b in
  let miny1 := if Rlt_dec (pt_y pt) (miny b) then pt_y pt else miny b in
  let maxx1 := if Rlt_dec (maxx b) (pt_x pt) then pt_x pt else maxx b in
  let maxy1 := if Rlt_dec (maxy b) (pt_y pt) then pt_y pt else maxy b in
  mk_bounds minx1 miny1 maxx1 maxy1 (maxz b).

(** The body of the first loop over the blocks, the call of [UnMap]
    apart. *)
Definition scan_block (b : bounds) (block : StgBlock) : bounds :=
  let b1 := fold_left scan_point (blk_pts block) b in
  mk_bounds (minx b1) (miny b1) (maxx b1) (maxy b1)
            (if Rlt_dec (maxz b1) (blk_zmax block) then blk_zmax block else maxz b1).

(** The quotient of two finite doubles is NaN exactly when both are 0. *)
Definition nan_quotient (a b : R) : bool :=
  if Req_dec_T b 0 then (if Req_dec_T a 0 then true else false) else false.

(** The body of the loop over the points of a block in the second pass:
    the two assignments, then the two assertions.  A coordinate is NaN
    when its quotient is; the bounds of the first pass leave no other way
    to a NaN or to an infinity, since a point differs from the least x
    only if the greatest x does. *)
Definition scale_point (b : bounds) (size : stg_size_t) (pt : stg_point_t)
  : M stg_point_t :=
  let scalex := (maxx b - minx b)%R in
  let scaley := (maxy b - miny b)%R in
  let x := ((pt_x pt - minx b) / scalex * size_x size - size_x size / 2)%R in
  let y := ((pt_y pt - miny b) / scaley * size_y size - size_y size / 2)%R in
  if nan_quotient (pt_x pt - minx b) scalex then raise AssertFailed
  else if nan_quotient (pt_y pt - miny b) scaley then raise AssertFailed
  else ret (mk_point x y).

(** The body of the second loop over the blocks.  No assertion guards
    the z scale: when no block has a positive [zmax], [maxz] is 0 and
    the source goes on with an infinity or a NaN for z, which the reals
    do not have. *)
Definition scale_block (b : bounds) (size : stg_size_t) (block : StgBlock)
  : M StgBlock :=
  let scalez := (size_z size / maxz b)%R in
  pts <- for_fold (blk_pts block)
           (fun pt done => q <- scale_point b size pt ;; ret (done ++ [q])) [] ;;
  ret (mk_block pts (blk_zmin block * scalez) (blk_zmax block * scalez)
         (blk_color block) (blk_inherit_color block)).

(** [void StgBlock::ScaleList( GList* blocks, stg_size_t* size )], applied
    to the block list of model [m].  The blocks are held by value in the
    model's record, so the scaled blocks are written back through the
    model. *)
Definition ScaleList (m : model_id) (size : stg_size_t) : M unit :=
  Mm <- get_model m ;;
  if length (blocks Mm) <? 1 then ret tt
  else
    b <- for_fold (combine (block_refs m Mm) (blocks Mm))
           (fun rb b => StgBlock_UnMap (fst rb) ;; ret (scan_block b (snd rb)))
           bounds_start ;;
    scaled <- for_fold (blocks Mm)
                (fun block done => blk <- scale_block b size block ;; ret (done ++ [blk]))
                [] ;;
    modify_model m (set_blocks scaled).

(** ** Setters that fire callbacks under other keys *)

Definition set_parent (v : option model_id) (X : StgModel) : StgModel :=
  mk_model v (children X) (pose X) (global_pose X) (gpose_dirty X)
    (velocity X) (on_velocity_list X) (stall X) (disabled X) (blocks X)
    (rebuild_displaylist X) (geom X) (color X) (obstacle_return X) (subs X)
    (initfunc X) (trail X).

Definition set_obstacle_return (v : Z) (X : StgModel) : StgModel :=
  mk_model (parent X) (children X) (pose X) (global_pose X) (gpose_dirty X)
    (velocity X) (on_velocity_list X) (stall X) (disabled X) (blocks X)
    (rebuild_displaylist X) (geom X) (color X) v (subs X)
    (initfunc X) (trail X).

(** Attributes, besides those of [cb_key], whose address keys a callback
    list. *)
Inductive attr_key := A_geom | A_parent | A_obstacle_return.

Section OtherCallbacks.

(** The world's event log names the callbacks of [cb_key] only.  What
    [CallCallbacks] runs under another key is user code and a parameter
    here; the properties of the setters below are stated for the world
    the callbacks are handed. *)
Variable CallCallbacks_of : model_id -> attr_key -> M unit.

(** [void StgModel::SetObstacleReturn( int val )] *)
Definition SetObstacleReturn (m : model_id) (val : Z) : M unit :=
  modify_model m (set_obstacle_return val) ;;
  CallCallbacks_of m A_obstacle_return.

(** [void StgModel::SetGeom( stg_geom_t geom )] *)
Definition SetGeom (fuel : nat) (m : model_id) (geom0 : stg_geom_t) : M unit :=
  modify_model m (set_gpose_dirty true) ;;
  UnMap m ;;
  modify_model m (set_geom geom0) ;;
  ScaleList m (geom_size geom0) ;;
  NeedRedraw fuel m ;;
  Map fuel m ;;
  CallCallbacks_of m A_geom.

(** [int StgModel::SetParent( StgModel* newparent )] *)
Definition SetParent (m : model_id) (newparent : option model_id) : M Z :=
  Mm <- get_model m ;;
  (match parent Mm with
   | Some p => modify_model p (fun P => set_children (g_list_remove (children P) m) P)
   | None => ret tt
   end) ;;
  (match newparent with
   | Some np => modify_model np (fun P => set_children (g_list_append (children P) m) P)
   | None => ret tt
   end) ;;
  modify_model m (set_parent newparent) ;;
  CallCallbacks_of m A_parent ;;
  ret 0%Z.

End OtherCallbacks.

(** ** Notions used to state the further properties *)

(** The model without parent that the chain of parents of [m] ends at. *)
Fixpoint root_of (w : StgWorld) (n : nat) (m : model_id) : option model_id :=
  match n with
  | O => None
  | S n' =>
      match models w !! m with
      | None => None
      | Some X =>
          match parent X with
          | None => Some m
          | Some p => root_of w n' p
          end
      end
  end.

(** The parent pointers and the children lists tell the same story. *)
Definition linked (w : StgWorld) : Prop :=
  forall c p C P,
    models w !! c = Some C -> models w !! p = Some P ->
    (parent C = Some p <-> In c (children P)).

(** Besides, no children list holds a model twice and every parent
    pointer leads to a model of the world. *)
Definition well_linked (w : StgWorld) : Prop :=
  linked w
  /\ (forall p P, models w !! p = Some P -> NoDup (children P))
  /\ (forall c C p, models w !! c = Some C -> parent C = Some p ->
                    exists P, models w !! p = Some P).

(** The world's own list of children holds the models without parent,
    each once. *)
Definition top_linked (w : StgWorld) : Prop :=
  NoDup (world_children w)
  /\ (forall c C, models w !! c = Some C ->
                  (parent C = None <-> In c (world_children w))).

(** The children list of [x] as [SetParent] leaves it, when [old] was
    the parent of the model [m] and [new] becomes it. *)
Definition relinked (m : model_id) (old new : option model_id) (x : model_id)
    (l : list model_id) : list model_id :=
  let l1 := if decide (old = Some x) then g_list_remove l m else l in
  if decide (new = Some x) then g_list_append l1 m else l1.

(** The cache of global poses along the chain of parents that [m] has in
    [w] is clean in [w'] and holds the global poses of [w]. *)
Definition chain_cached (w : StgWorld) (fuel : nat) (m : model_id) (w' : StgWorld)
  : Prop :=
  forall x, In x (ancestors w fuel m) ->
    field gpose_dirty x w' = Some false
    /\ field global_pose x w' = global_pose_of w fuel x.

(** What the global pose of a model depends on, model by model. *)
Definition kinematic (Y : StgModel) : option model_id * stg_pose_t * stg_geom_t :=
  (parent Y, pose Y, geom Y).

(** Repeated [PopFlag], until the list is empty or [n] flags came out. *)
Fixpoint pop_flags (n : nat) (flag_list : list flag_id) : list flag_id :=
  match n with
  | O => []
  | S n' =>
      match PopFlag flag_list with
      | (Some f, rest) => f :: pop_flags n' rest
      | (None, _) => []
      end
  end.

(** The block as the second pass of [ScaleList] leaves it when no
    assertion fails. *)
Definition scaled_block (b : bounds) (size : stg_size_t) (block : StgBlock) : StgBlock :=
  let scalex := (maxx b - minx b)%R in
  let scaley := (maxy b - miny b)%R in
  let scalez := (size_z size / maxz b)%R in
  mk_block
    (map (fun pt =>
            mk_point ((pt_x pt - minx b) / scalex * size_x size - size_x size / 2)
                     ((pt_y pt - miny b) / scaley * size_y size - size_y size / 2))
         (blk_pts block))
    (blk_zmin block * scalez) (blk_zmax block * scalez)
    (blk_color block) (blk_inherit_color block).

(** All points of a list of blocks. *)
Definition all_points (bs : list StgBlock) : list stg_point_t :=
  flat_map blk_pts bs.

(** [r] is the least of [start] and the numbers of [l]; the greatest. *)
Definition least (start : R) (l : list R) (r : R) : Prop :=
  (r <= start)%R /\ (forall x, In x l -> (r <= x)%R) /\ (r = start \/ In r l).

Definition greatest (start : R) (l : list R) (r : R) : Prop :=
  (start <= r)%R /\ (forall x, In x l -> (x <= r)%R) /\ (r = start \/ In r l).

(** The sum of the subscription counts of the models. *)
Definition sum_subs (ms : list StgModel) : Z :=
  fold_right (fun X s => (subs X + s)%Z) 0%Z ms.

(** The headings and the heights met along a chain of models. *)
Definition heading_of (w : StgWorld) (d : model_id) : R :=
  match models w !! d with
  | Some Y => pose_a (pose Y)
  | None => 0
  end.

Definition rise_of (w : StgWorld) (d : model_id) : R :=
  match models w !! d with
  | Some Y => pose_z (pose Y)
  | None => 0
  end.

Definition height_of (w : StgWorld) (d : model_id) : R :=
  match models w !! d with
  | Some Y => size_z (geom_size (geom Y))
  | None => 0
  end.

Definition Rsum (l : list R) : R := fold_right Rplus 0%R l.

(** ** Further scenarios *)

(** A model whose only block is a segment along the x axis: its points
    share one y. *)
Definition flat_world : StgWorld :=
  new_world [ set_blocks [mk_block [mk_point 0 0; mk_point 1 0] 0 1 0 true]
                (new_model None) ].

(** A moving model that has lost its blocks, and a second model; every
    block of the second is mapped. *)
Definition ghost_world : StgWorld :=
  world_of [ moving (new_pose 1 0 0 0) (set_blocks [] (new_model None));
             set_pose (new_pose 2 0 0 0) (new_model None) ]
           [0] 1000000 [(1, 0)].

(** * Properties *)

(** ** Geometry *)

Lemma normalize_range (a : R) : (- PI < normalize a <= PI)%R.
Proof.
  unfold normalize.
  pose proof PI_RGT_0 as Hpi.
  destruct (archimed ((PI - a) / (2 * PI))) as [Hu1 Hu2].
  rewrite minus_IZR.
  set (u := IZR (up ((PI - a) / (2 * PI)))) in *.
  assert (Hy : ((PI - a) / (2 * PI) * (2 * PI) = PI - a)%R) by (field; lra).
  split; nra.
Qed.

Lemma normalize_fixed (a : R) : (- PI < a <= PI)%R -> normalize a = a.
Proof.
  intros [Hlo Hhi]. unfold normalize.
  pose proof PI_RGT_0 as Hpi.
  assert (Hy : ((PI - a) / (2 * PI) * (2 * PI) = PI - a)%R) by (field; lra).
  assert (H1 : up ((PI - a) / (2 * PI)) = 1%Z).
  { symmetry. apply tech_up; simpl; nra. }
  rewrite H1. change (1 - 1)%Z with 0%Z. lra.
Qed.

Lemma global_to_local_pose_sum (f p : stg_pose_t) :
  global_to_local f (pose_sum f p)
  = mk_pose (pose_x p) (pose_y p) (pose_z f + pose_z p) (pose_a p).
Proof.
  unfold global_to_local, pose_sum; simpl.
  pose proof (sin2_cos2 (pose_a f)) as H. unfold Rsqr in H.
  f_equal.
  - transitivity (pose_x p * (sin (pose_a f) * sin (pose_a f)
                              + cos (pose_a f) * cos (pose_a f)))%R;
      [ring | rewrite H; ring].
  - transitivity (pose_y p * (sin (pose_a f) * sin (pose_a f)
                              + cos (pose_a f) * cos (pose_a f)))%R;
      [ring | rewrite H; ring].
  - ring.
Qed.

Lemma pose_sum_zero_l q : pose_sum pose_zero q = q.
Proof.
  destruct q as [x y z a]. unfold pose_sum, pose_zero, new_pose. simpl.
  rewrite cos_0, sin_0. f_equal; lra.
Qed.

(** The two calls of [normalize] in [SetPose] amount to one. *)
Lemma stored_pose_normalize p :
  stored_pose p = with_a (normalize (pose_a p)) p.
Proof.
  unfold stored_pose. f_equal. apply normalize_fixed, normalize_range.
Qed.

Lemma sqrt_1_plus_sqr_pos t : (0 < sqrt (1 + t²))%R.
Proof. apply sqrt_lt_R0. pose proof (Rle_0_sqr t). lra. Qed.

Lemma hypot_scaled dx dy :
  dx <> 0%R -> hypot dx dy = (Rabs dx * sqrt (1 + (dy / dx)²))%R.
Proof.
  intros Hdx. unfold hypot.
  rewrite <- (sqrt_Rsqr_abs dx), <- sqrt_mult_alt by apply Rle_0_sqr.
  f_equal. unfold Rsqr. field. exact Hdx.
Qed.

(** The ray of length [hypot dx dy] along the bearing [atan2 dy dx] ends
    at (dx, dy). *)
Lemma atan2_polar dx dy :
  (hypot dx dy * cos (atan2 dy dx) = dx /\ hypot dx dy * sin (atan2 dy dx) = dy)%R.
Proof.
  unfold atan2.
  destruct (Rlt_dec 0 dx) as [Hpos|Hnpos].
  - rewrite hypot_scaled, cos_atan, sin_atan, Rabs_pos_eq by lra.
    pose proof (sqrt_1_plus_sqr_pos (dy / dx)). split; field; lra.
  - destruct (Rlt_dec dx 0) as [Hneg|Hnneg].
    + rewrite hypot_scaled, Rabs_left by lra.
      pose proof (sqrt_1_plus_sqr_pos (dy / dx)).
      destruct (Rlt_dec dy 0).
      * unfold Rminus. rewrite cos_plus, sin_plus, cos_neg, sin_neg, cos_PI, sin_PI.
        rewrite cos_atan, sin_atan. split; field; lra.
      * rewrite neg_cos, neg_sin, cos_atan, sin_atan. split; field; lra.
    + assert (dx = 0%R) as -> by lra. unfold hypot.
      replace (0 * 0 + dy * dy)%R with (dy²)%R by (unfold Rsqr; ring).
      rewrite sqrt_Rsqr_abs.
      destruct (Rlt_dec 0 dy).
      * rewrite cos_PI2, sin_PI2, Rabs_pos_eq by lra. lra.
      * destruct (Rlt_dec dy 0).
        -- rewrite cos_neg, sin_neg, cos_PI2, sin_PI2, Rabs_left by lra. lra.
        -- assert (dy = 0%R) as -> by lra. rewrite Rabs_R0. lra.
Qed.

Lemma hypot_nonneg dx dy : (0 <= hypot dx dy)%R.
Proof. unfold hypot. apply sqrt_pos. Qed.

(** A point of the ray along an edge lies on the edge. *)
Lemma ray_on_edge dx dy s :
  (0 <= s <= hypot dx dy)%R ->
  exists t, (0 <= t <= 1)%R
            /\ (s * cos (atan2 dy dx) = t * dx)%R
            /\ (s * sin (atan2 dy dx) = t * dy)%R.
Proof.
  intros Hs. destruct (atan2_polar dx dy) as [Hc Hn].
  destruct (Req_dec (hypot dx dy) 0) as [H0|Hpos].
  - exists 0%R. assert (s = 0)%R as -> by lra. split; [lra|]. split; ring.
  - pose proof (hypot_nonneg dx dy) as Hge.
    assert (Hlt : (0 < hypot dx dy)%R) by lra.
    exists (s / hypot dx dy)%R. split; [|split].
    + split.
      * apply Rmult_le_pos; [lra|]. apply Rlt_le, Rinv_0_lt_compat, Hlt.
      * apply Rmult_le_reg_r with (hypot dx dy); [exact Hlt|].
        unfold Rdiv. rewrite Rmult_assoc, Rinv_l by lra. lra.
    + transitivity (s / hypot dx dy * (hypot dx dy * cos (atan2 dy dx)))%R;
        [field; lra|now rewrite Hc].
    + transitivity (s / hypot dx dy * (hypot dx dy * sin (atan2 dy dx)))%R;
        [field; lra|now rewrite Hn].
Qed.

Lemma Rabs_within a b : (Rabs a <= b)%R -> (- b <= a <= b)%R.
Proof. unfold Rabs. destruct (Rcase_abs a); lra. Qed.

(** ** Reasoning about the monad *)

Lemma bind_ok {A B} (c : M A) (k : A -> M B) w b w'' :
  bind c k w = Ok (b, w'') <->
  exists a w', c w = Ok (a, w') /\ k a w' = Ok (b, w'').
Proof.
  unfold bind. split.
  - destruct (c w) as [[a w']|f]; [eauto | discriminate].
  - intros (a & w' & -> & Hk). exact Hk.
Qed.

Lemma bind_run {A B} (c : M A) (k : A -> M B) w a w' :
  c w = Ok (a, w') -> bind c k w = k a w'.
Proof. intros H. unfold bind. now rewrite H. Qed.

Lemma bind_bind_run {A B C} (c : M A) (k : A -> M B) (k' : B -> M C) w :
  bind (bind c k) k' w = bind c (fun a => bind (k a) k') w.
Proof. unfold bind. destruct (c w) as [[a w']|f]; reflexivity. Qed.

(** Run the first computation of a sequence, given its outcome. *)
Ltac mrun H :=
  rewrite ?bind_bind_run; rewrite (bind_run _ _ _ _ _ H); cbv beta iota.

Lemma get_model_run m w X :
  models w !! m = Some X -> get_model m w = Ok (X, w).
Proof. intros H. unfold get_model. now rewrite H. Qed.

Lemma get_model_ok m w X w' :
  get_model m w = Ok (X, w') -> models w !! m = Some X /\ w' = w.
Proof.
  unfold get_model. destruct (models w !! m); [|discriminate].
  intros [= -> ->]. auto.
Qed.

Lemma modify_model_run m f w X :
  models w !! m = Some X ->
  modify_model m f w = Ok (tt, set_models (<[m := f X]> (models w)) w).
Proof. intros H. unfold modify_model. now rewrite H. Qed.

Lemma modify_model_ok m f w u w' :
  modify_model m f w = Ok (u, w') ->
  exists X, models w !! m = Some X /\ w' = set_models (<[m := f X]> (models w)) w.
Proof.
  unfold modify_model. destruct (models w !! m) as [X|]; [|discriminate].
  intros [= _ <-]. eauto.
Qed.

Lemma lookup_modified_eq (w : StgWorld) m X Y :
  models w !! m = Some X ->
  models (set_models (<[m := Y]> (models w)) w) !! m = Some Y.
Proof.
  intros H. simpl. apply list_lookup_insert_eq. eapply lookup_lt_Some; eauto.
Qed.

Lemma lookup_modified_ne (w : StgWorld) m i Y :
  m <> i ->
  models (set_models (<[m := Y]> (models w)) w) !! i = models w !! i.
Proof. intros H. simpl. now apply list_lookup_insert_ne. Qed.

(** ** Frame lemmas *)

Section Keeps.
Context {T : Type} (phi : StgWorld -> T).

Lemma keeps_ret {A} (a : A) : keeps phi (ret a).
Proof. intros w a' w' [= _ ->]. reflexivity. Qed.

Lemma keeps_raise {A} f : keeps phi (@raise A f).
Proof. intros w a' w' [=]. Qed.

Lemma keeps_bind {A B} (c : M A) (k : A -> M B) :
  keeps phi c -> (forall a, keeps phi (k a)) -> keeps phi (bind c k).
Proof.
  intros Hc Hk w b w'' (a & w' & H1 & H2)%bind_ok.
  rewrite (Hk _ _ _ _ H2). eauto.
Qed.

Lemma keeps_get_model m : keeps phi (get_model m).
Proof. intros w a w' [_ ->]%get_model_ok. reflexivity. Qed.

Lemma keeps_get_world : keeps phi get_world.
Proof. intros w a w' [= _ ->]. reflexivity. Qed.

Lemma keeps_deref p : keeps phi (deref p).
Proof. destruct p; [apply keeps_ret | apply keeps_raise]. Qed.

Lemma keeps_modify_world f : world_blind phi f -> keeps phi (modify_world f).
Proof. intros H w a w' [= _ <-]. apply H. Qed.

Lemma keeps_modify_model m f : model_blind phi f -> keeps phi (modify_model m f).
Proof. intros H w a w' (X & HX & ->)%modify_model_ok. now apply H. Qed.


Lemma keeps_for_each {A} (l : list A) body :
  (forall a, keeps phi (body a)) -> keeps phi (for_each l body).
Proof.
  intros H. induction l as [|a l IH]; simpl.
  - apply keeps_ret.
  - apply keeps_bind; auto.
Qed.

Lemma keeps_for_fold {A S} (l : list A) (body : A -> S -> M S) s :
  (forall a s, keeps phi (body a s)) -> keeps phi (for_fold l body s).
Proof.
  intros H. revert s. induction l as [|a l IH]; intros s; simpl.
  - apply keeps_ret.
  - apply keeps_bind; auto.
Qed.

End Keeps.

Ltac keeps_step :=
  first
    [ apply keeps_ret | apply keeps_raise | apply keeps_get_model
    | apply keeps_get_world | apply keeps_deref
    | apply keeps_bind; [|intros ?]
    | apply keeps_for_each; intros ?
    | apply keeps_for_fold; intros ? ?
    | apply keeps_modify_world
    | apply keeps_modify_model
    | match goal with
      | |- keeps _ (if ?b then _ else _) => destruct b
      | |- keeps _ (match ?x with _ => _ end) => destruct x
      end ].

Ltac keeps_tac := repeat keeps_step.

Lemma view_blind {T} (g : StgModel -> T) f :
  (forall X, g (f X) = g X) -> model_blind (view g) f.
Proof.
  intros H w m X HX. unfold view. simpl.
  rewrite list_fmap_insert, H.
  apply list_insert_id. rewrite list_lookup_fmap, HX. reflexivity.
Qed.

Lemma field_blind {T} (g : StgModel -> T) i f :
  (forall X, g (f X) = g X) -> model_blind (field g i) f.
Proof.
  intros H w m X HX. unfold field.
  pose proof (view_blind g f H w m X HX) as Hv. unfold view in Hv.
  rewrite <- !list_lookup_fmap. now rewrite Hv.
Qed.

Lemma view_field {T} (g : StgModel -> T) w w' i :
  view g w' = view g w -> field g i w' = field g i w.
Proof. unfold view, field. intros H. rewrite <- !list_lookup_fmap. now rewrite H. Qed.

Lemma view_lookup {T} (g : StgModel -> T) w w' i X :
  view g w' = view g w -> models w !! i = Some X ->
  exists X', models w' !! i = Some X' /\ g X' = g X.
Proof.
  intros Hv HX.
  assert (H : view g w' !! i = Some (g X)).
  { rewrite Hv. unfold view. rewrite list_lookup_fmap, HX. reflexivity. }
  unfold view in H. rewrite list_lookup_fmap in H.
  destruct (models w' !! i) as [X'|]; [|discriminate].
  exists X'. split; [reflexivity|]. now injection H.
Qed.

Lemma view_lookup_None {T} (g : StgModel -> T) w w' i :
  view g w' = view g w -> models w !! i = None -> models w' !! i = None.
Proof.
  intros Hv HX. destruct (models w' !! i) as [X'|] eqn:HX'; [|reflexivity].
  destruct (view_lookup g w' w i X' (eq_sym Hv) HX') as (X & HX2 & _). congruence.
Qed.

Lemma raster_view_blind_global_pose v : model_blind raster_view (set_global_pose v).
Proof.
  intros w m X HX. unfold raster_view, set_models. simpl. f_equal.
  rewrite list_fmap_insert.
  apply list_insert_id. rewrite list_lookup_fmap, HX. reflexivity.
Qed.

Lemma raster_view_blind_gpose_dirty v : model_blind raster_view (set_gpose_dirty v).
Proof.
  intros w m X HX. unfold raster_view, set_models. simpl. f_equal.
  rewrite list_fmap_insert.
  apply list_insert_id. rewrite list_lookup_fmap, HX. reflexivity.
Qed.

Ltac blind_tac :=
  first
    [ assumption
    | solve [intros ? ? ? ?; reflexivity]
    | solve [intros ?; reflexivity]
    | solve [apply view_blind; intros; reflexivity]
    | solve [apply field_blind; intros; reflexivity]
    | solve [apply raster_view_blind_global_pose]
    | solve [apply raster_view_blind_gpose_dirty]
    | solve [ intros ?; match goal with H : bitmap_blind _ |- _ => apply H end ]
    | solve [ intros ?; match goal with H : events_blind _ |- _ => apply H end ]
    | solve [ let HX := fresh "HX" in
              intros ? ? ? HX;
              match goal with
              | H : forall v, model_blind _ _ |- _ => apply (H _ _ _ _ HX)
              end ] ].

Ltac frame := keeps_tac; try blind_tac.

(** ** Pose composition along the tree *)

Lemma raster_view_models w w' :
  raster_view w' = raster_view w -> view blank_cache w' = view blank_cache w.
Proof. intros H. exact (f_equal models H). Qed.

Lemma raster_view_lookup w w' i X :
  raster_view w' = raster_view w -> models w !! i = Some X ->
  exists X', models w' !! i = Some X' /\ blank_cache X' = blank_cache X.
Proof. intros Hv. apply view_lookup, raster_view_models, Hv. Qed.

Lemma blank_cache_fields X X' :
  blank_cache X' = blank_cache X ->
  parent X' = parent X /\ children X' = children X /\ pose X' = pose X
  /\ geom X' = geom X /\ blocks X' = blocks X
  /\ obstacle_return X' = obstacle_return X.
Proof.
  intros H.
  repeat split.
  - exact (f_equal parent H).
  - exact (f_equal children H).
  - exact (f_equal pose H).
  - exact (f_equal geom H).
  - exact (f_equal blocks H).
  - exact (f_equal obstacle_return H).
Qed.

Lemma GetGlobalPose_keeps {T} (phi : StgWorld -> T) :
  (forall v, model_blind phi (set_global_pose v)) ->
  (forall v, model_blind phi (set_gpose_dirty v)) ->
  forall fuel m, keeps phi (GetGlobalPose fuel m).
Proof.
  intros H1 H2 fuel. induction fuel as [|f IH]; intros m; simpl.
  - apply keeps_raise.
  - frame. apply IH.
Qed.

Lemma rooted_global_pose_of_view w w' n m :
  view blank_cache w' = view blank_cache w ->
  rooted w' n m = rooted w n m /\ global_pose_of w' n m = global_pose_of w n m.
Proof.
  intros Hv. revert m.
  induction n as [|n IH]; intros m; cbn [rooted global_pose_of]; [auto|].
  destruct (models w !! m) as [X|] eqn:HX.
  - destruct (view_lookup _ _ _ _ _ Hv HX) as (X' & -> & HB).
    apply blank_cache_fields in HB as (Hp & _ & Hpose & _).
    rewrite Hp, Hpose. destruct (parent X) as [p|]; [|auto].
    destruct (IH p) as [-> ->]. split; [reflexivity|].
    destruct (global_pose_of w n p); [|reflexivity].
    destruct (models w !! p) as [P|] eqn:HP.
    + destruct (view_lookup _ _ _ _ _ Hv HP) as (P' & -> & HB).
      apply blank_cache_fields in HB as (_ & _ & _ & -> & _). reflexivity.
    + now rewrite (view_lookup_None _ _ _ _ Hv HP).
  - now rewrite (view_lookup_None _ _ _ _ Hv HX).
Qed.

Lemma GetGlobalPose_run fuel : forall w m,
  rooted w fuel m = true ->
  exists g w', GetGlobalPose fuel m w = Ok (g, w')
               /\ global_pose_of w fuel m = Some g
               /\ raster_view w' = raster_view w.
Proof.
  induction fuel as [|f IH]; intros w m Hr; [discriminate|].
  cbn [rooted] in Hr. destruct (models w !! m) as [X|] eqn:HX; [|discriminate].
  cbn [GetGlobalPose global_pose_of]. rewrite HX.
  mrun (get_model_run _ _ _ HX).
  destruct (parent X) as [p|] eqn:Hp; cbv beta iota.
  - destruct (IH w p Hr) as (gp & w1 & Hrun & Hspec & Hv1).
    rewrite Hspec.
    destruct (raster_view_lookup _ _ _ _ Hv1 HX) as (X1 & HX1 & HB1).
    apply blank_cache_fields in HB1 as (_ & _ & Hpose1 & _).
    assert (exists P, models w !! p = Some P) as [P HP].
    { destruct f; [discriminate|]. cbn [rooted] in Hr.
      destruct (models w !! p); [eauto|discriminate]. }
    rewrite HP.
    mrun Hrun. mrun (get_model_run _ _ _ HX1).
    mrun (modify_model_run _ (set_global_pose (stg_pose_sum gp (pose X1))) _ _ HX1).
    set (X2 := set_global_pose (stg_pose_sum gp (pose X1)) X1).
    set (w2 := set_models (<[m := X2]> (models w1)) w1).
    assert (Hv2 : raster_view w2 = raster_view w1)
      by (apply raster_view_blind_global_pose; exact HX1).
    assert (HP2 : exists P2, models w2 !! p = Some P2 /\ geom P2 = geom P).
    { destruct (raster_view_lookup w w2 p P) as (P2 & ? & HB); [congruence|exact HP|].
      apply blank_cache_fields in HB as (_ & _ & _ & ? & _). eauto. }
    destruct HP2 as (P2 & HP2 & Hgeom).
    assert (Hm2 : models w2 !! m = Some X2) by (eapply lookup_modified_eq; eauto).
    mrun (get_model_run _ _ _ HP2).
    mrun (modify_model_run _
            (fun X => set_global_pose (add_z (size_z (geom_size (geom P2))) (global_pose X)) X)
            _ _ Hm2).
    set (X3 := set_global_pose _ X2).
    set (w3 := set_models (<[m := X3]> (models w2)) w2).
    assert (Hm3 : models w3 !! m = Some X3) by (eapply lookup_modified_eq; eauto).
    mrun (modify_model_run _ (set_gpose_dirty false) _ _ Hm3).
    set (w4 := set_models _ w3).
    assert (Hm4 : models w4 !! m = Some (set_gpose_dirty false X3))
      by (eapply lookup_modified_eq; eauto).
    mrun (get_model_run _ _ _ Hm4).
    eexists _, _. split; [reflexivity|]. split.
    + simpl. rewrite Hgeom, Hpose1. reflexivity.
    + rewrite <- Hv1, <- Hv2.
      etransitivity; [apply raster_view_blind_gpose_dirty; exact Hm3|].
      apply raster_view_blind_global_pose; exact Hm2.
  - mrun (modify_model_run _ (fun X => set_global_pose (pose X) X) _ _ HX).
    set (X1 := set_global_pose (pose X) X).
    set (w1 := set_models (<[m := X1]> (models w)) w).
    assert (Hm1 : models w1 !! m = Some X1) by (eapply lookup_modified_eq; eauto).
    mrun (modify_model_run _ (set_gpose_dirty false) _ _ Hm1).
    set (w2 := set_models _ w1).
    assert (Hm2 : models w2 !! m = Some (set_gpose_dirty false X1))
      by (eapply lookup_modified_eq; eauto).
    mrun (get_model_run _ _ _ Hm2).
    eexists _, _. split; [reflexivity|]. split; [reflexivity|].
    etransitivity; [apply raster_view_blind_gpose_dirty; exact Hm1|].
    apply raster_view_blind_global_pose; exact HX.
Qed.

(** C3: [GetGlobalPose] of a model with a parent returns the parent's
    global pose composed with the model's pose, its z raised by the
    parent's [size.z]; of a model without parent it returns the model's
    pose.  The call returns whenever the chain of parents ends within the
    fuel. *)
Theorem GetGlobalPose_composes fuel w m X :
  models w !! m = Some X ->
  rooted w fuel m = true ->
  exists g w',
    GetGlobalPose fuel m w = Ok (g, w') /\
    match parent X with
    | None => g = pose X
    | Some p =>
        exists f P gp w1,
          fuel = S f /\ models w !! p = Some P /\
          GetGlobalPose f p w = Ok (gp, w1) /\
          g = add_z (size_z (geom_size (geom P))) (pose_sum gp (pose X))
    end.
Proof.
  intros HX Hr.
  destruct (GetGlobalPose_run fuel w m Hr) as (g & w' & Hrun & Hspec & _).
  exists g, w'. split; [exact Hrun|].
  destruct fuel as [|f]; [discriminate|].
  cbn [rooted global_pose_of] in Hr, Hspec. rewrite HX in Hr, Hspec.
  destruct (parent X) as [p|].
  - destruct (GetGlobalPose_run f w p Hr) as (gp & w1 & Hrun1 & Hspec1 & _).
    rewrite Hspec1 in Hspec.
    destruct (models w !! p) as [P|]; [|discriminate].
    injection Hspec as <-. exists f, P, gp, w1. auto.
  - now injection Hspec as <-.
Qed.

(** Scenario S1 through the theorem: the child's global pose is
    (1, 1, 0.2, pi/2). *)
Lemma GetGlobalPose_composes_S1 :
  exists w', GetGlobalPose 2 1 S1_world = Ok (new_pose 1 1 0.2 (PI / 2), w').
Proof.
  destruct (GetGlobalPose_composes 2 S1_world 1 S1_child eq_refl eq_refl)
    as (g & w' & Hrun & f & P & gp & w1 & Hf & HP & Hrun1 & Hg).
  injection Hf as <-. injection HP as <-.
  destruct (GetGlobalPose_composes 1 S1_world 0 S1_parent eq_refl eq_refl)
    as (g0 & w0 & Hrun0 & Hg0).
  simpl in Hg0. rewrite Hrun0 in Hrun1. injection Hrun1 as <- <-.
  exists w'. rewrite Hrun. f_equal. f_equal. subst g g0.
  unfold add_z, pose_sum, new_pose. simpl.
  rewrite cos_PI2, sin_PI2. f_equal; lra.
Defined.

(** ** [IsAntecedent] *)

Lemma IsAntecedent_self fuel m w :
  IsAntecedent (S fuel) m m w = Ok (true, w).
Proof. simpl. rewrite Nat.eqb_refl. reflexivity. Qed.

Lemma IsAntecedent_never_false fuel : forall m t w w',
  IsAntecedent fuel m t w <> Ok (false, w').
Proof.
  induction fuel as [|f IH]; intros m t w w'; simpl; [discriminate|].
  destruct (Nat.eqb m t); [discriminate|].
  intros (X & w1 & [HX ->]%get_model_ok & H)%bind_ok.
  apply bind_ok in H as (p & w2 & Hp & H).
  apply bind_ok in H as (r & w3 & Hr & H).
  destruct r; [discriminate|]. exact (IH _ _ _ _ Hr).
Qed.

Lemma IsAntecedent_found n : forall w m t,
  In t (ancestors w n m) -> IsAntecedent n m t w = Ok (true, w).
Proof.
  induction n as [|n IH]; intros w m t Hin; [destruct Hin|].
  cbn [ancestors] in Hin. cbn [IsAntecedent].
  destruct (Nat.eqb_spec m t) as [->|Hne]; [reflexivity|].
  destruct Hin as [Heq|Hin]; [contradiction|].
  destruct (models w !! m) as [X|] eqn:HX; [|destruct Hin].
  mrun (get_model_run _ _ _ HX).
  destruct (parent X) as [p|]; [|destruct Hin].
  unfold deref. rewrite (bind_run (ret p) _ w p w eq_refl).
  rewrite (bind_run _ _ _ _ _ (IH w p t Hin)). reflexivity.
Qed.

(** C10: [IsAntecedent] has no base case for a model without parent.
    When [testmod] is neither [m] nor one of its ancestors, the recursion
    climbs to the root and calls the method through the root's null
    [Parent()]: the outcome is the null-pointer fault, and [false] is
    never returned, whatever the fuel. *)
Theorem IsAntecedent_no_base_case w n m t :
  rooted w n m = true ->
  ~ In t (ancestors w n m) ->
  IsAntecedent n m t w = Fault NullPointer
  /\ (forall fuel w', IsAntecedent fuel m t w <> Ok (false, w')).
Proof.
  intros Hr Hnot. split; [|intros; apply IsAntecedent_never_false].
  revert m Hr Hnot. induction n as [|n IH]; intros m Hr Hnot; [discriminate|].
  cbn [rooted ancestors] in Hr, Hnot. cbn [IsAntecedent].
  destruct (Nat.eqb_spec m t) as [->|Hne]; [exfalso; apply Hnot; now left|].
  destruct (models w !! m) as [X|] eqn:HX; [|discriminate].
  mrun (get_model_run _ _ _ HX).
  destruct (parent X) as [p|].
  - unfold deref. rewrite (bind_run (ret p) _ w p w eq_refl).
    unfold bind. rewrite IH; [reflexivity|exact Hr|].
    intros Hin. apply Hnot. now right.
  - reflexivity.
Qed.

Lemma IsAntecedent_no_base_case_chain :
  IsAntecedent 3 2 3 chain_world = Fault NullPointer
  /\ (forall fuel w', IsAntecedent fuel 2 3 chain_world <> Ok (false, w')).
Proof.
  apply (IsAntecedent_no_base_case chain_world 3 2 3).
  - reflexivity.
  - simpl. intros [H|[H|[H|[]]]]; discriminate.
Defined.

(** ** Round trips between frames *)

Lemma pose_sum_assoc a b c :
  pose_sum (pose_sum a b) c = pose_sum a (pose_sum b c).
Proof.
  unfold pose_sum; simpl. rewrite cos_plus, sin_plus. f_equal; ring.
Qed.

Lemma LocalToGlobal_GlobalToLocal_run fuel w m X p :
  models w !! m = Some X ->
  rooted w fuel m = true ->
  exists g w1 w2,
    global_pose_of w fuel m = Some g
    /\ LocalToGlobal fuel m p w = Ok (pose_sum (pose_sum g (geom_pose (geom X))) p, w1)
    /\ GlobalToLocal fuel m (pose_sum (pose_sum g (geom_pose (geom X))) p) w1
       = Ok (global_to_local g (pose_sum g (pose_sum (geom_pose (geom X)) p)), w2).
Proof.
  intros HX Hr.
  destruct (GetGlobalPose_run fuel w m Hr) as (g & w1 & Hrun & Hspec & Hv).
  destruct (raster_view_lookup _ _ _ _ Hv HX) as (X1 & HX1 & HB).
  apply blank_cache_fields in HB as (_ & _ & _ & Hgeom & _).
  destruct (rooted_global_pose_of_view w w1 fuel m (raster_view_models _ _ Hv))
    as [Hr1 Hs1].
  rewrite Hr in Hr1. rewrite Hspec in Hs1.
  destruct (GetGlobalPose_run fuel w1 m Hr1) as (g' & w2 & Hrun2 & Hspec2 & _).
  assert (g' = g) as -> by congruence.
  exists g, w1, w2. split; [exact Hspec|]. split.
  - unfold LocalToGlobal. mrun Hrun. mrun (get_model_run _ _ _ HX1).
    rewrite Hgeom. reflexivity.
  - unfold GlobalToLocal. mrun Hrun2. rewrite pose_sum_assoc. reflexivity.
Qed.

(** C8, as the code has it: [GlobalToLocal] undoes [pose_sum] in x, y and
    heading, exactly over the reals and without re-normalising the
    heading (it comes back as (f.a + p.a) - f.a); at the model level
    [GlobalToLocal] applied to [LocalToGlobal(p)] yields, in x, y and
    heading, p moved by the model's geometry offset, hence p itself when
    that offset is zero. *)
Theorem GlobalToLocal_round_trip :
  (forall f p,
     let r := global_to_local f (pose_sum f p) in
     pose_x r = pose_x p /\ pose_y r = pose_y p /\ pose_a r = pose_a p)
  /\
  (forall fuel w m X p,
     models w !! m = Some X ->
     rooted w fuel m = true ->
     exists q w1 r w2,
       LocalToGlobal fuel m p w = Ok (q, w1)
       /\ GlobalToLocal fuel m q w1 = Ok (r, w2)
       /\ (let o := pose_sum (geom_pose (geom X)) p in
           pose_x r = pose_x o /\ pose_y r = pose_y o /\ pose_a r = pose_a o)
       /\ (geom_pose (geom X) = pose_zero ->
           pose_x r = pose_x p /\ pose_y r = pose_y p /\ pose_a r = pose_a p)).
Proof.
  split.
  - intros f p. cbv zeta. rewrite global_to_local_pose_sum. simpl. auto.
  - intros fuel w m X p HX Hr.
    destruct (LocalToGlobal_GlobalToLocal_run fuel w m X p HX Hr)
      as (g & w1 & w2 & _ & Hl2g & Hg2l).
    eexists _, w1, _, w2. split; [exact Hl2g|]. split; [exact Hg2l|].
    rewrite global_to_local_pose_sum. cbv zeta. split; [simpl; auto|].
    intros ->. rewrite pose_sum_zero_l. simpl. auto.
Qed.

Lemma GlobalToLocal_round_trip_S1 :
  exists q w1 r w2,
    LocalToGlobal 2 1 (new_pose 1 2 3 0) S1_world = Ok (q, w1)
    /\ GlobalToLocal 2 1 q w1 = Ok (r, w2)
    /\ pose_x r = pose_x (new_pose 1 2 3 0)
    /\ pose_y r = pose_y (new_pose 1 2 3 0)
    /\ pose_a r = pose_a (new_pose 1 2 3 0).
Proof.
  destruct (proj2 GlobalToLocal_round_trip 2 S1_world 1 S1_child (new_pose 1 2 3 0)
              eq_refl eq_refl) as (q & w1 & r & w2 & H1 & H2 & _ & H3).
  exists q, w1, r, w2. split; [exact H1|]. split; [exact H2|].
  apply H3. reflexivity.
Defined.

(** The claim as stated fails at the model level: for a model whose
    geometry is offset by 1 m along x, [LocalToGlobal] takes (0, 0, 0, 0)
    to x = 1 and [GlobalToLocal] brings it back to x = 1, not to 0. *)
Lemma GlobalToLocal_keeps_geom_offset :
  exists q w1 r w2,
    LocalToGlobal 1 0 pose_zero offset_world = Ok (q, w1)
    /\ GlobalToLocal 1 0 q w1 = Ok (r, w2)
    /\ pose_x r = 1%R
    /\ pose_x pose_zero = 0%R.
Proof.
  destruct (LocalToGlobal_GlobalToLocal_run 1 offset_world 0 _ pose_zero eq_refl eq_refl)
    as (g & w1 & w2 & Hg & Hl2g & Hg2l).
  eexists _, w1, _, w2. split; [exact Hl2g|]. split; [exact Hg2l|].
  split; [|reflexivity].
  rewrite global_to_local_pose_sum. simpl. rewrite cos_0, sin_0. lra.
Qed.

(** Besides, z is not converted at all: the frame's height stays added. *)
Lemma GlobalToLocal_keeps_frame_z :
  global_to_local (new_pose 0 0 1 0) (pose_sum (new_pose 0 0 1 0) pose_zero)
  = new_pose 0 0 1 0.
Proof.
  rewrite global_to_local_pose_sum. unfold new_pose, pose_zero. simpl.
  f_equal; lra.
Qed.

(** ** Subscriptions *)

Lemma Subscribe_run w m X :
  models w !! m = Some X ->
  Subscribe m w =
    (if (subs X + 1 =? 1)%Z then Startup m else ret tt) (after_sub 1 m X w).
Proof.
  intros HX. unfold Subscribe, bind, modify_model, modify_world, get_model.
  rewrite HX. cbn [models set_models set_total_subs].
  rewrite list_lookup_insert_eq by (eapply lookup_lt_Some; eauto).
  reflexivity.
Qed.

Lemma Unsubscribe_run w m X :
  models w !! m = Some X ->
  Unsubscribe m w =
    (if (subs X - 1 <? 1)%Z then Shutdown m else ret tt) (after_sub (-1) m X w).
Proof.
  intros HX. unfold Unsubscribe, bind, modify_model, modify_world, get_model.
  rewrite HX. cbn [models set_models set_total_subs].
  rewrite list_lookup_insert_eq by (eapply lookup_lt_Some; eauto).
  reflexivity.
Qed.

Lemma g_list_find_In l m : g_list_find l m = true <-> In m l.
Proof.
  unfold g_list_find. rewrite existsb_exists. split.
  - intros (x & Hx & ->%Nat.eqb_eq). exact Hx.
  - intros H. exists m. split; [exact H | apply Nat.eqb_refl].
Qed.

Lemma g_list_find_append l m x :
  g_list_find (g_list_append l m) x = g_list_find l x || Nat.eqb x m.
Proof.
  unfold g_list_find, g_list_append. rewrite existsb_app. simpl.
  now rewrite orb_false_r.
Qed.

Lemma g_list_remove_In l m x :
  NoDup l -> (In x (g_list_remove l m) <-> In x l /\ x <> m).
Proof.
  induction l as [|y l IH]; intros Hnd; simpl; [tauto|].
  apply NoDup_cons in Hnd as [Hy Hnd].
  rewrite list_elem_of_In in Hy.
  destruct (Nat.eqb_spec y m) as [->|Hne].
  - split.
    + intros H. split; [now right|]. intros ->. contradiction.
    + intros [[->|H] Hx]; [contradiction|exact H].
  - simpl. rewrite (IH Hnd). split.
    + intros [->|[H Hx]]; auto.
    + intros [[->|H] Hx]; auto.
Qed.

Lemma g_list_remove_NoDup l m : NoDup l -> NoDup (g_list_remove l m).
Proof.
  induction l as [|y l IH]; intros Hnd; simpl; [constructor|].
  apply NoDup_cons in Hnd as [Hy Hnd].
  destruct (Nat.eqb y m); [exact Hnd|].
  apply NoDup_cons. split; [|auto].
  rewrite list_elem_of_In in *. intros H.
  apply g_list_remove_In in H as [H _]; auto.
Qed.

Lemma g_list_find_remove l m x :
  NoDup l -> g_list_find (g_list_remove l m) x = g_list_find l x && negb (Nat.eqb x m).
Proof.
  intros Hnd. apply eq_true_iff_eq.
  rewrite andb_true_iff, negb_true_iff, Nat.eqb_neq, !g_list_find_In.
  now apply g_list_remove_In.
Qed.

Lemma g_list_append_NoDup l m : NoDup l -> g_list_find l m = false -> NoDup (g_list_append l m).
Proof.
  intros Hnd Hf. unfold g_list_append. apply NoDup_app. split; [exact Hnd|].
  split; [|apply NoDup_singleton].
  intros x Hx ->%list_elem_of_singleton.
  apply list_elem_of_In, g_list_find_In in Hx. congruence.
Qed.

Lemma lookup_after_sub d w m X i Y :
  models w !! m = Some X ->
  models (after_sub d m X w) !! i = Some Y ->
  if Nat.eqb i m then Y = set_subs (subs X + d) X else models w !! i = Some Y.
Proof.
  intros HX. cbn [after_sub models set_models set_total_subs].
  destruct (Nat.eqb_spec i m) as [->|Hne].
  - rewrite list_lookup_insert_eq by (eapply lookup_lt_Some; eauto). congruence.
  - rewrite list_lookup_insert_ne by auto. auto.
Qed.

Lemma Startup_spec w m Y :
  models w !! m = Some Y ->
  exists w', Startup m w = Ok (tt, w')
    /\ models w' = models w
    /\ update_list w' = (if g_list_find (update_list w) m then update_list w
                         else g_list_append (update_list w) m)
    /\ events w' = events w ++ startup_events m Y.
Proof.
  intros HY. unfold Startup. mrun (get_model_run _ _ _ HY).
  unfold bind, log_event, StartUpdatingModel, CallCallbacks, modify_world, ret,
    startup_events.
  destruct (initfunc Y); cbn [update_list set_events];
    destruct (g_list_find (update_list w) m);
    eexists; (split; [reflexivity|]); cbn [models update_list events set_events set_update_list];
    rewrite <- ?app_assoc; auto.
Qed.

Lemma Shutdown_spec w m :
  exists w', Shutdown m w = Ok (tt, w')
    /\ models w' = models w
    /\ update_list w' = g_list_remove (update_list w) m
    /\ events w' = events w ++ [EvCallback m K_shutdown_hook].
Proof. eexists. split; [reflexivity|]. auto. Qed.

Lemma Subscribe_spec w m X :
  update_inv w -> models w !! m = Some X ->
  exists w', Subscribe m w = Ok (tt, w')
    /\ update_inv w'
    /\ field subs m w' = Some (subs X + 1)%Z
    /\ events w' = events w ++ (if (subs X =? 0)%Z then startup_events m X else []).
Proof.
  intros [Hnd Hinv] HX. rewrite (Subscribe_run _ _ _ HX).
  assert (Hm : models (after_sub 1 m X w) !! m = Some (set_subs (subs X + 1) X))
    by (eapply lookup_modified_eq; eauto).
  assert (Hf : field subs m (after_sub 1 m X w) = Some (subs X + 1)%Z)
    by (unfold field; rewrite Hm; reflexivity).
  assert (Hfind := Hinv _ _ HX).
  destruct (Z.eqb_spec (subs X + 1) 1) as [H1|H1].
  - assert (H0 : subs X = 0%Z) by lia.
    rewrite H0 in Hfind. change (1 <=? 0)%Z with false in Hfind.
    destruct (Startup_spec _ _ _ Hm) as (w' & -> & Hms & Hul & Hev).
    change (update_list (after_sub 1 m X w)) with (update_list w) in Hul.
    rewrite Hfind in Hul.
    exists w'. split; [reflexivity|]. split; [|split].
    + split.
      * rewrite Hul. now apply g_list_append_NoDup.
      * intros i Y HY. rewrite Hms in HY.
        apply (lookup_after_sub 1 w m X i Y HX) in HY.
        rewrite Hul, g_list_find_append.
        destruct (Nat.eqb_spec i m) as [->|Hne].
        -- subst Y. cbn [subs set_subs]. rewrite H0, orb_true_r. reflexivity.
        -- rewrite orb_false_r. auto.
    + unfold field in *. now rewrite Hms.
    + rewrite Hev, H0. reflexivity.
  - exists (after_sub 1 m X w). split; [reflexivity|]. split; [|split].
    + split; [exact Hnd|]. intros i Y HY.
      apply (lookup_after_sub 1 w m X i Y HX) in HY.
      change (update_list (after_sub 1 m X w)) with (update_list w).
      destruct (Nat.eqb_spec i m) as [->|Hne]; [|auto].
      subst Y. cbn [subs set_subs]. rewrite Hfind.
      apply eq_true_iff_eq. rewrite !Z.leb_le. lia.
    + exact Hf.
    + destruct (Z.eqb_spec (subs X) 0); [lia|]. now rewrite app_nil_r.
Qed.

Lemma Unsubscribe_spec w m X :
  update_inv w -> models w !! m = Some X ->
  exists w', Unsubscribe m w = Ok (tt, w')
    /\ update_inv w'
    /\ field subs m w' = Some (subs X - 1)%Z
    /\ events w' = events w ++ (if (subs X <=? 1)%Z
                                then [EvCallback m K_shutdown_hook] else []).
Proof.
  intros [Hnd Hinv] HX. rewrite (Unsubscribe_run _ _ _ HX).
  assert (Hm : models (after_sub (-1) m X w) !! m = Some (set_subs (subs X + -1) X))
    by (eapply lookup_modified_eq; eauto).
  assert (Hf : field subs m (after_sub (-1) m X w) = Some (subs X - 1)%Z)
    by (unfold field; rewrite Hm; reflexivity).
  assert (Hfind := Hinv _ _ HX).
  destruct (Z.ltb_spec (subs X - 1) 1) as [H1|H1].
  - destruct (Shutdown_spec (after_sub (-1) m X w) m) as (w' & -> & Hms & Hul & Hev).
    change (update_list (after_sub (-1) m X w)) with (update_list w) in Hul.
    exists w'. split; [reflexivity|]. split; [|split].
    + split.
      * rewrite Hul. now apply g_list_remove_NoDup.
      * intros i Y HY. rewrite Hms in HY.
        apply (lookup_after_sub (-1) w m X i Y HX) in HY.
        rewrite Hul, g_list_find_remove by exact Hnd.
        destruct (Nat.eqb_spec i m) as [->|Hne].
        -- subst Y. cbn [subs set_subs negb]. rewrite andb_false_r.
           symmetry. apply Z.leb_gt. lia.
        -- cbn [negb]. rewrite andb_true_r. auto.
    + unfold field in *. now rewrite Hms.
    + rewrite Hev. destruct (Z.leb_spec (subs X) 1); [reflexivity|lia].
  - exists (after_sub (-1) m X w). split; [reflexivity|]. split; [|split].
    + split; [exact Hnd|]. intros i Y HY.
      apply (lookup_after_sub (-1) w m X i Y HX) in HY.
      change (update_list (after_sub (-1) m X w)) with (update_list w).
      destruct (Nat.eqb_spec i m) as [->|Hne]; [|auto].
      subst Y. cbn [subs set_subs]. rewrite Hfind.
      apply eq_true_iff_eq. rewrite !Z.leb_le. lia.
    + exact Hf.
    + destruct (Z.leb_spec (subs X) 1); [lia|]. now rewrite app_nil_r.
Qed.

Lemma update_inv_new ms :
  Forall (fun X => subs X < 1)%Z ms -> update_inv (new_world ms).
Proof.
  intros H. split; [constructor|]. intros m X HX. cbn.
  rewrite Forall_lookup in H. specialize (H _ _ HX).
  symmetry. apply Z.leb_gt. exact H.
Qed.

(** C7, as the code has it: [Subscribe] runs [Startup] (which calls
    [initfunc] when there is one, puts the model on the update list and
    fires the startup hook) exactly when the count goes from 0 to 1;
    [Unsubscribe] runs [Shutdown] (which takes the model off the update
    list and fires the shutdown hook) exactly when the count it leaves is
    below 1, which for a count that was at least 1 is the step from 1 to
    0.  Both keep the invariant that a model is on the update list iff its
    count is at least 1.  In scenario S5, three [Subscribe] and two
    [Unsubscribe] calls leave [initfunc] run once, no shutdown, and the
    model on the update list; the third [Unsubscribe] runs the shutdown
    and takes the model off the list. *)
Theorem subscription_counting :
  (forall w m X,
     update_inv w -> models w !! m = Some X ->
     (exists w', Subscribe m w = Ok (tt, w')
        /\ update_inv w'
        /\ field subs m w' = Some (subs X + 1)%Z
        /\ events w' = events w ++ (if (subs X =? 0)%Z then startup_events m X else []))
     /\
     (exists w', Unsubscribe m w = Ok (tt, w')
        /\ update_inv w'
        /\ field subs m w' = Some (subs X - 1)%Z
        /\ events w' = events w ++ (if (subs X <=? 1)%Z
                                    then [EvCallback m K_shutdown_hook] else [])))
  /\
  (exists w5 w6,
     S5_run S5_world = Ok (tt, w5)
     /\ events w5 = [EvInit 0; EvCallback 0 K_startup_hook]
     /\ update_list w5 = [0]
     /\ field subs 0 w5 = Some 1%Z
     /\ Unsubscribe 0 w5 = Ok (tt, w6)
     /\ events w6 = events w5 ++ [EvCallback 0 K_shutdown_hook]
     /\ update_list w6 = []
     /\ field subs 0 w6 = Some 0%Z).
Proof.
  split.
  - intros w m X Hinv HX. split.
    + exact (Subscribe_spec w m X Hinv HX).
    + exact (Unsubscribe_spec w m X Hinv HX).
  - eexists _, _. split; [vm_compute; reflexivity|].
    repeat split; vm_compute; reflexivity.
Qed.

Lemma subscription_counting_fresh :
  update_inv S5_world /\
  exists w', Subscribe 0 S5_world = Ok (tt, w')
    /\ update_inv w'
    /\ field subs 0 w' = Some 1%Z
    /\ events w' = [EvInit 0; EvCallback 0 K_startup_hook].
Proof.
  assert (Hinv : update_inv S5_world).
  { apply update_inv_new. repeat constructor. }
  split; [exact Hinv|].
  destruct (proj1 subscription_counting S5_world 0 _ Hinv eq_refl) as [Hs _].
  exact Hs.
Defined.

(** The claim as stated fails: on a fresh model, whose count is 0,
    [Unsubscribe] runs the shutdown hook although the count does not go
    from 1 to 0 but from 0 to -1. *)
Lemma Unsubscribe_at_zero_runs_shutdown :
  exists w',
    Unsubscribe 0 (new_world [new_model None]) = Ok (tt, w')
    /\ field subs 0 (new_world [new_model None]) = Some 0%Z
    /\ field subs 0 w' = Some (-1)%Z
    /\ events w' = [EvCallback 0 K_shutdown_hook].
Proof. eexists. split; [vm_compute; reflexivity|]. repeat split. Qed.

(** C9: the subscription count is not clamped at zero.  Every
    [Unsubscribe] that leaves the count below 1 lowers the count by one
    and runs the shutdown hook, so [n] calls on a model whose count is at
    most 1 (0 in particular: the count becomes -1) fire the hook [n]
    times. *)
Theorem Unsubscribe_not_clamped n : forall w m X,
  models w !! m = Some X ->
  (subs X <= 1)%Z ->
  exists w',
    for_each (replicate n m) Unsubscribe w = Ok (tt, w')
    /\ field subs m w' = Some (subs X - Z.of_nat n)%Z
    /\ events w' = events w ++ replicate n (EvCallback m K_shutdown_hook)
    /\ update_list w' = Nat.iter n (fun l => g_list_remove l m) (update_list w).
Proof.
  induction n as [|n IH]; intros w m X HX Hle.
  - exists w. split; [reflexivity|]. unfold field. rewrite HX. cbn.
    rewrite Z.sub_0_r, app_nil_r. auto.
  - cbn [replicate for_each].
    assert (Hm : models (after_sub (-1) m X w) !! m = Some (set_subs (subs X + -1) X))
      by (eapply lookup_modified_eq; eauto).
    destruct (Shutdown_spec (after_sub (-1) m X w) m) as (w1 & Hrun & Hms & Hul & Hev).
    assert (Hstep : Unsubscribe m w = Ok (tt, w1)).
    { rewrite (Unsubscribe_run _ _ _ HX).
      destruct (Z.ltb_spec (subs X - 1) 1); [exact Hrun|lia]. }
    rewrite <- Hms in Hm.
    destruct (IH w1 m _ Hm) as (w' & Hrest & Hsubs & Hevs & Huls).
    { cbn. lia. }
    exists w'. split; [|split; [|split]].
    + mrun Hstep. exact Hrest.
    + rewrite Hsubs. cbn [subs set_subs]. f_equal. lia.
    + rewrite Hevs, Hev. cbn [replicate]. rewrite <- app_assoc. reflexivity.
    + rewrite Huls, Hul, Nat.iter_succ_r. reflexivity.
Qed.

Lemma Unsubscribe_not_clamped_fresh :
  exists w',
    for_each (replicate 2 0) Unsubscribe (new_world [new_model None]) = Ok (tt, w')
    /\ field subs 0 w' = Some (0 - Z.of_nat 2)%Z
    /\ events w' = [] ++ replicate 2 (EvCallback 0 K_shutdown_hook)
    /\ update_list w' = Nat.iter 2 (fun l => g_list_remove l 0) [].
Proof.
  apply (Unsubscribe_not_clamped 2 (new_world [new_model None]) 0 (new_model None)).
  - reflexivity.
  - simpl. lia.
Defined.

(** ** The velocity list *)

Lemma nonzero_iff r : nonzero r = true <-> r <> 0%R.
Proof. unfold nonzero. destruct (Req_dec_T r 0); split; congruence. Qed.

Lemma velocity_is_nonzero_iff v :
  velocity_is_nonzero v = true <->
  (pose_x v <> 0 \/ pose_y v <> 0 \/ pose_z v <> 0 \/ pose_a v <> 0)%R.
Proof.
  unfold velocity_is_nonzero.
  rewrite !orb_true_iff, !nonzero_iff. tauto.
Qed.

Lemma lookup_insert_Some (l : list StgModel) m X Y :
  l !! m = Some X -> <[m := Y]> l !! m = Some Y.
Proof. intros H. apply list_lookup_insert_eq. eapply lookup_lt_Some; eauto. Qed.

Lemma lookup_insert_cases (l : list StgModel) m Z i Y :
  <[m := Z]> l !! i = Some Y -> (i = m /\ Y = Z) \/ (i <> m /\ l !! i = Some Y).
Proof.
  intros [(-> & -> & _)|(Hne & H)]%list_lookup_insert_Some; auto.
Qed.

Ltac world_cbn :=
  cbn [models velocity_list update_list total_subs updates sim_time interval_sim
       bitmap events set_models set_velocity_list set_update_list set_total_subs
       set_updates set_sim_time set_bitmap set_events].

Lemma SetVelocity_spec w m X v :
  velocity_inv w -> models w !! m = Some X ->
  exists w', SetVelocity m v w = Ok (tt, w')
    /\ velocity_inv w'
    /\ g_list_find (velocity_list w') m = velocity_is_nonzero v
    /\ field velocity m w' = Some v
    /\ field on_velocity_list m w' = Some (velocity_is_nonzero v)
    /\ events w' = events w ++ [EvCallback m K_velocity].
Proof.
  intros [Hnd Hinv] HX. assert (Hfind := Hinv _ _ HX).
  assert (Hlen : m < length (models w)) by (eapply lookup_lt_Some; eauto).
  unfold SetVelocity, bind, modify_model, get_model, modify_world, CallCallbacks, ret.
  rewrite HX. world_cbn.
  rewrite (lookup_insert_Some _ _ _ _ HX).
  cbn [on_velocity_list velocity set_velocity].
  unfold field.
  destruct (on_velocity_list X) eqn:Hon; destruct (velocity_is_nonzero v) eqn:Hnz;
    repeat (progress
              (world_cbn;
               cbn [on_velocity_list velocity set_velocity set_on_velocity_list negb andb];
               rewrite ?Hnz, ?Hon;
               rewrite ?list_lookup_insert_eq by (rewrite ?length_insert; exact Hlen)));
    (eexists; split; [reflexivity|]);
    repeat (progress
              (world_cbn;
               rewrite ?list_lookup_insert_eq by (rewrite ?length_insert; exact Hlen)));
    (split; [split|]); world_cbn;
    rewrite ?list_lookup_insert_eq by (rewrite ?length_insert; exact Hlen).
  - exact Hnd.
  - intros i Y [[-> ->]|[Hne HY]]%lookup_insert_cases;
      cbn [on_velocity_list set_velocity]; [congruence|auto].
  - repeat split; cbn [fmap option_fmap option_map velocity on_velocity_list
                          set_velocity set_on_velocity_list]; congruence.
  - now apply g_list_remove_NoDup.
  - intros i Y HY. rewrite g_list_find_remove by exact Hnd.
    apply lookup_insert_cases in HY as [[-> ->]|[Hne HY]].
    + rewrite Nat.eqb_refl. cbn. apply andb_false_r.
    + apply lookup_insert_cases in HY as [[-> ->]|[_ HY]]; [contradiction|].
      apply Nat.eqb_neq in Hne. rewrite Hne. cbn. rewrite andb_true_r. auto.
  - rewrite g_list_find_remove, Nat.eqb_refl by exact Hnd. cbn [negb].
    rewrite andb_false_r. repeat split; cbn [fmap option_fmap option_map velocity on_velocity_list
                          set_velocity set_on_velocity_list]; congruence.
  - unfold g_list_prepend. apply NoDup_cons. split; [|exact Hnd].
    intros Hin%list_elem_of_In%g_list_find_In. congruence.
  - intros i Y HY. unfold g_list_prepend, g_list_find. cbn [existsb].
    apply lookup_insert_cases in HY as [[-> ->]|[Hne HY]].
    + rewrite Nat.eqb_refl. reflexivity.
    + apply lookup_insert_cases in HY as [[-> ->]|[_ HY]]; [contradiction|].
      apply Nat.eqb_neq in Hne. rewrite Hne. cbn. apply Hinv. exact HY.
  - unfold g_list_prepend, g_list_find. cbn [existsb]. rewrite Nat.eqb_refl.
    cbn [orb]. repeat split; cbn [fmap option_fmap option_map velocity on_velocity_list
                          set_velocity set_on_velocity_list]; congruence.
  - exact Hnd.
  - intros i Y [[-> ->]|[Hne HY]]%lookup_insert_cases;
      cbn [on_velocity_list set_velocity]; [congruence|auto].
  - repeat split; cbn [fmap option_fmap option_map velocity on_velocity_list
                          set_velocity set_on_velocity_list]; congruence.
Qed.

(** C5: after [SetVelocity(v)] the model is on the world's velocity list
    if and only if some component of [v] is nonzero; the call stores [v],
    keeps the list and the [on_velocity_list] flags in step (adding the
    model when the velocity becomes nonzero, removing it when it becomes
    all zero) and fires the velocity callback. *)
Theorem SetVelocity_list_invariant w m X v :
  velocity_inv w ->
  models w !! m = Some X ->
  exists w',
    SetVelocity m v w = Ok (tt, w')
    /\ (In m (velocity_list w') <->
        (pose_x v <> 0 \/ pose_y v <> 0 \/ pose_z v <> 0 \/ pose_a v <> 0)%R)
    /\ velocity_inv w'
    /\ field velocity m w' = Some v
    /\ events w' = events w ++ [EvCallback m K_velocity].
Proof.
  intros Hinv HX.
  destruct (SetVelocity_spec w m X v Hinv HX) as (w' & Hrun & Hinv' & Hfind & Hv & _ & Hev).
  exists w'. split; [exact Hrun|]. split; [|auto].
  rewrite <- g_list_find_In, Hfind. apply velocity_is_nonzero_iff.
Qed.

Lemma velocity_inv_new ms :
  Forall (fun X => on_velocity_list X = false) ms -> velocity_inv (new_world ms).
Proof.
  intros H. split; [constructor|]. intros m X HX. cbn.
  rewrite Forall_lookup in H. symmetry. exact (H _ _ HX).
Qed.

Lemma SetVelocity_list_invariant_fresh :
  exists w',
    SetVelocity 0 (new_pose 1 0 0 0) (new_world [new_model None]) = Ok (tt, w')
    /\ (In 0 (velocity_list w') <-> (1 <> 0 \/ 0 <> 0 \/ 0 <> 0 \/ 0 <> 0)%R)
    /\ velocity_inv w'
    /\ field velocity 0 w' = Some (new_pose 1 0 0 0)
    /\ events w' = [] ++ [EvCallback 0 K_velocity].
Proof.
  apply (SetVelocity_list_invariant (new_world [new_model None]) 0 (new_model None)
           (new_pose 1 0 0 0)).
  - apply velocity_inv_new. repeat constructor.
  - reflexivity.
Defined.

(** ** Walks over the subtree *)

Lemma for_each_ext {A} (l : list A) (b1 b2 : A -> M unit) w :
  (forall a w, b1 a w = b2 a w) -> for_each l b1 w = for_each l b2 w.
Proof.
  intros H. revert w. induction l as [|a l IH]; intros w; simpl; [reflexivity|].
  unfold bind. rewrite H. destruct (b2 a w) as [[[] w']|]; auto.
Qed.

Lemma MapWithChildren_walk fuel m w :
  MapWithChildren fuel m w = walk (Map fuel) fuel m w.
Proof.
  unfold MapWithChildren. generalize fuel at 2 4 as n. intros n. revert m w.
  induction n as [|n IH]; intros m w; simpl; [reflexivity|].
  unfold bind. destruct (Map fuel m w) as [[[] w1]|]; [|reflexivity].
  destruct (get_model m w1) as [[X w2]|]; [|reflexivity].
  apply for_each_ext. exact IH.
Qed.

Lemma UnMapWithChildren_walk fuel : forall m w,
  UnMapWithChildren fuel m w = walk UnMap fuel m w.
Proof.
  induction fuel as [|f IH]; intros m w; simpl; [reflexivity|].
  unfold bind. destruct (UnMap m w) as [[[] w1]|]; [|reflexivity].
  destruct (get_model m w1) as [[X w2]|]; [|reflexivity].
  apply for_each_ext. exact IH.
Qed.

Lemma GPoseDirtyTree_walk fuel : forall m w,
  GPoseDirtyTree fuel m w
  = walk (fun d => modify_model d (set_gpose_dirty true)) fuel m w.
Proof.
  induction fuel as [|f IH]; intros m w; simpl; [reflexivity|].
  unfold bind. destruct (modify_model m (set_gpose_dirty true) w) as [[[] w1]|];
    [|reflexivity].
  destruct (get_model m w1) as [[X w2]|]; [|reflexivity].
  apply for_each_ext. exact IH.
Qed.

Lemma tree_shape_view w w' n :
  view children w' = view children w ->
  forall m, tree_ok w' n m = tree_ok w n m /\ subtree w' n m = subtree w n m.
Proof.
  intros Hv. induction n as [|n IH]; intros m; cbn [tree_ok subtree]; [auto|].
  destruct (models w !! m) as [X|] eqn:HX.
  - destruct (view_lookup children _ _ _ _ Hv HX) as (X' & -> & ->).
    split.
    + induction (children X) as [|c l IHl]; simpl; [reflexivity|].
      rewrite IHl. now destruct (IH c) as [-> _].
    + f_equal. induction (children X) as [|c l IHl]; simpl; [reflexivity|].
      rewrite IHl. now destruct (IH c) as [_ ->].
  - rewrite (view_lookup_None children _ _ _ Hv HX). auto.
Qed.

Lemma rooted_view w w' n :
  view parent w' = view parent w ->
  forall m, rooted w' n m = rooted w n m.
Proof.
  intros Hv. induction n as [|n IH]; intros m; cbn [rooted]; [auto|].
  destruct (models w !! m) as [X|] eqn:HX.
  - destruct (view_lookup parent _ _ _ _ Hv HX) as (X' & -> & ->).
    destruct (parent X); auto.
  - now rewrite (view_lookup_None parent _ _ _ Hv HX).
Qed.

Lemma subtree_valid w n : forall m d,
  tree_ok w n m = true -> In d (subtree w n m) -> exists Y, models w !! d = Some Y.
Proof.
  induction n as [|n IH]; intros m d Hok Hin; [destruct Hin|].
  cbn [tree_ok subtree] in *.
  destruct (models w !! m) as [X|] eqn:HX; [|discriminate].
  destruct Hin as [<-|Hin]; [eauto|].
  apply in_flat_map in Hin as (c & Hc & Hd).
  rewrite forallb_forall in Hok. eauto.
Qed.

Section Walk.
Variable op : model_id -> M unit.
Variable ready : StgWorld -> model_id -> Prop.
Hypothesis op_shape : forall d, keeps (view children) (op d).
Hypothesis op_total : forall w d, ready w d -> exists w', op d w = Ok (tt, w').
Hypothesis op_ready : forall w d w' d', op d w = Ok (tt, w') -> ready w d' -> ready w' d'.

Lemma apply_op_shape w d : view children (apply_op op w d) = view children w.
Proof.
  unfold apply_op. destruct (op d w) as [[[] w']|] eqn:H; [|reflexivity].
  exact (op_shape d _ _ _ H).
Qed.

Lemma fold_apply_op_shape l : forall w,
  view children (fold_left (apply_op op) l w) = view children w.
Proof.
  induction l as [|d l IH]; intros w; simpl; [reflexivity|].
  rewrite IH. apply apply_op_shape.
Qed.

Lemma fold_apply_op_ready l d' : forall w,
  ready w d' -> ready (fold_left (apply_op op) l w) d'.
Proof.
  induction l as [|d l IH]; intros w H; simpl; [exact H|].
  apply IH. unfold apply_op.
  destruct (op d w) as [[[] w']|] eqn:E; [|exact H].
  exact (op_ready _ _ _ _ E H).
Qed.

Lemma walk_run fuel : forall w m,
  tree_ok w fuel m = true ->
  (forall d, In d (subtree w fuel m) -> ready w d) ->
  walk op fuel m w = Ok (tt, fold_left (apply_op op) (subtree w fuel m) w).
Proof.
  induction fuel as [|f IH]; intros w m Hok Hrd; [discriminate|].
  cbn [tree_ok subtree walk] in *.
  destruct (models w !! m) as [X|] eqn:HX; [|discriminate].
  destruct (op_total w m (Hrd m (in_eq _ _))) as (w1 & Hop).
  mrun Hop.
  assert (Hv1 : view children w1 = view children w) by exact (op_shape m _ _ _ Hop).
  destruct (view_lookup children _ _ _ _ Hv1 HX) as (X1 & HX1 & Hch).
  mrun (get_model_run _ _ _ HX1). rewrite Hch.
  cbn [fold_left]. unfold apply_op at 2. rewrite Hop.
  assert (Hrd1 : forall d, In d (flat_map (subtree w f) (children X)) -> ready w1 d).
  { intros d Hd. apply (op_ready _ _ _ _ Hop), Hrd. now right. }
  clear HX HX1 Hch Hop Hrd.
  revert w1 Hv1 Hrd1. induction (children X) as [|c l IHl]; intros w1 Hv1 Hrd1.
  - reflexivity.
  - cbn [forallb] in Hok. apply andb_true_iff in Hok as [Hc Hl].
    cbn [for_each flat_map] in *. rewrite fold_left_app.
    destruct (tree_shape_view w w1 f Hv1 c) as [Hok1 Hsub1].
    rewrite <- Hsub1.
    rewrite (bind_run _ _ _ _ _ (IH w1 c ltac:(congruence)
               ltac:(intros d Hd; apply Hrd1, in_or_app; left; congruence))).
    rewrite IHl; [reflexivity|exact Hl| |].
    + rewrite fold_apply_op_shape. exact Hv1.
    + intros d Hd. apply fold_apply_op_ready, Hrd1, in_or_app. now right.
Qed.

Lemma fold_apply_op_keeps {T} (phi : StgWorld -> T) l :
  (forall d, keeps phi (op d)) ->
  forall w, phi (fold_left (apply_op op) l w) = phi w.
Proof.
  intros Hk. induction l as [|d l IH]; intros w; simpl; [reflexivity|].
  rewrite IH. unfold apply_op.
  destruct (op d w) as [[[] w']|] eqn:H; [|reflexivity].
  exact (Hk d _ _ _ H).
Qed.

End Walk.

(** Walks whose step asks for no more than the model it acts on. *)

Lemma present_kept (op : model_id -> M unit) :
  (forall d, keeps (view children) (op d)) ->
  forall w d w' d', op d w = Ok (tt, w') -> present w d' -> present w' d'.
Proof.
  intros Hshape w d w' d' Hop [X HX].
  destruct (view_lookup children w w' d' X (Hshape d _ _ _ Hop) HX) as (X' & HX' & _).
  now exists X'.
Qed.

Lemma walk_run_present (op : model_id -> M unit) fuel w m :
  (forall d, keeps (view children) (op d)) ->
  (forall w d X, models w !! d = Some X -> exists w', op d w = Ok (tt, w')) ->
  tree_ok w fuel m = true ->
  walk op fuel m w = Ok (tt, fold_left (apply_op op) (subtree w fuel m) w).
Proof.
  intros Hshape Htotal Hok.
  apply (walk_run op present Hshape).
  - intros w0 d [X HX]. eauto.
  - now apply present_kept.
  - exact Hok.
  - intros d Hd. exact (subtree_valid w fuel m d Hok Hd).
Qed.

(** *** Mapping and unmapping *)

Lemma block_ref_eqb_eq a b : block_ref_eqb a b = true <-> a = b.
Proof.
  destruct a as [a1 a2], b as [b1 b2]. unfold block_ref_eqb. simpl.
  rewrite andb_true_iff, !Nat.eqb_eq. split; [intros [-> ->]|intros [= -> ->]]; auto.
Qed.

Lemma StgBlock_Map_keeps {T} (phi : StgWorld -> T) fuel b :
  (forall v, model_blind phi (set_global_pose v)) ->
  (forall v, model_blind phi (set_gpose_dirty v)) ->
  bitmap_blind phi -> keeps phi (StgBlock_Map fuel b).
Proof.
  intros H1 H2 H3.
  unfold StgBlock_Map, get_block, LocalToGlobal_point, LocalToGlobal, stg_polygon_3d.
  frame. now apply GetGlobalPose_keeps.
Qed.

Lemma Map_keeps {T} (phi : StgWorld -> T) fuel d :
  (forall v, model_blind phi (set_global_pose v)) ->
  (forall v, model_blind phi (set_gpose_dirty v)) ->
  bitmap_blind phi -> keeps phi (Map fuel d).
Proof.
  intros H1 H2 H3. unfold Map.
  apply keeps_bind; [apply keeps_get_model|]. intros X.
  apply keeps_for_each. intros b. now apply StgBlock_Map_keeps.
Qed.

Lemma UnMap_keeps {T} (phi : StgWorld -> T) d : bitmap_blind phi -> keeps phi (UnMap d).
Proof. intros H. unfold UnMap, StgBlock_UnMap. frame. Qed.

Lemma for_each_UnMap_run refs : forall w,
  exists w', for_each refs StgBlock_UnMap w = Ok (tt, w')
             /\ forall e, In e (bitmap w') <-> In e (bitmap w) /\ ~ In e refs.
Proof.
  induction refs as [|b refs IH]; intros w.
  - exists w. split; [reflexivity|]. simpl. tauto.
  - destruct (IH (set_bitmap (List.filter (fun e => negb (block_ref_eqb e b)) (bitmap w)) w))
      as (w' & Hrun & Hbm).
    exists w'. split; [exact Hrun|].
    intros e. rewrite Hbm. cbn [bitmap set_bitmap In].
    rewrite filter_In.
    rewrite negb_true_iff, <- not_true_iff_false, block_ref_eqb_eq.
    split; [intros [[? ?] ?]|intros [? ?]]; repeat split; auto.
    intros [<-|?]; auto.
Qed.

Lemma rooted_present w n m : rooted w n m = true -> present w m.
Proof.
  destruct n as [|n]; [discriminate|]. cbn [rooted]. unfold present.
  destruct (models w !! m) as [X|]; [eauto|discriminate].
Qed.

Lemma rooted_raster_view w w' n m :
  raster_view w' = raster_view w -> rooted w' n m = rooted w n m.
Proof. intros Hv. apply rooted_global_pose_of_view, raster_view_models, Hv. Qed.

Lemma LocalToGlobal_point_total fuel m pt w :
  rooted w fuel m = true ->
  exists q w', LocalToGlobal_point fuel m pt w = Ok (q, w')
               /\ raster_view w' = raster_view w.
Proof.
  intros Hr. destruct (rooted_present _ _ _ Hr) as [X HX].
  destruct (GetGlobalPose_run fuel w m Hr) as (g & w' & Hrun & _ & Hv).
  destruct (raster_view_lookup _ _ _ _ Hv HX) as (X' & HX' & _).
  eexists _, w'. split; [|exact Hv].
  unfold LocalToGlobal_point, LocalToGlobal. cbv zeta.
  mrun Hrun. mrun (get_model_run _ _ _ HX'). reflexivity.
Qed.

(** The loop of [StgBlock::Map] over the vertices. *)
Lemma vertex_loop fuel m z pts : forall w,
  rooted w fuel m = true ->
  exists w',
    for_each pts
      (fun pt => LocalToGlobal_point fuel m (mk_point3 (pt_x pt) (pt_y pt) z) ;; ret tt) w
    = Ok (tt, w')
    /\ raster_view w' = raster_view w.
Proof.
  induction pts as [|pt pts IH]; intros w Hr.
  - exists w. split; reflexivity.
  - destruct (LocalToGlobal_point_total fuel m (mk_point3 (pt_x pt) (pt_y pt) z) w Hr)
      as (q & w1 & Hrun & Hv1).
    destruct (IH w1) as (w' & Hrest & Hv').
    { rewrite <- Hr. now apply rooted_raster_view. }
    exists w'. split; [|congruence].
    cbn [for_each]. mrun Hrun. rewrite (bind_run (ret tt) _ w1 tt w1 eq_refl).
    exact Hrest.
Qed.

Lemma StgBlock_Map_run fuel w d i X blk :
  models w !! d = Some X -> blocks X !! i = Some blk -> rooted w fuel d = true ->
  exists w', StgBlock_Map fuel (d, i) w = Ok (tt, w')
             /\ bitmap w' = (d, i) :: bitmap w
             /\ view blank_cache w' = view blank_cache w.
Proof.
  intros HX Hblk Hr.
  destruct (vertex_loop fuel d (blk_zmin blk) (blk_pts blk) w Hr) as (w1 & Hloop & Hv1).
  exists (set_bitmap ((d, i) :: bitmap w1) w1). split; [|split].
  - unfold StgBlock_Map, get_block. cbn [Model fst snd].
    mrun (get_model_run _ _ _ HX). rewrite Hblk.
    rewrite (bind_run (ret blk) _ w blk w eq_refl).
    mrun Hloop. reflexivity.
  - cbn [bitmap set_bitmap]. f_equal. exact (f_equal bitmap Hv1).
  - exact (raster_view_models _ _ Hv1).
Qed.

Lemma Map_loop fuel d X l : forall w X0,
  models w !! d = Some X0 -> blocks X0 = blocks X -> rooted w fuel d = true ->
  (forall i, In i l -> i < length (blocks X)) ->
  exists w',
    for_each (map (fun i => (d, i)) l) (StgBlock_Map fuel) w = Ok (tt, w')
    /\ (forall e, In e (bitmap w') <-> In e (map (fun i => (d, i)) l) \/ In e (bitmap w))
    /\ view blank_cache w' = view blank_cache w.
Proof.
  induction l as [|i l IH]; intros w X0 HX0 Hb Hr Hl.
  - exists w. split; [reflexivity|]. split; [simpl; tauto|reflexivity].
  - destruct (lookup_lt_is_Some_2 (blocks X0) i) as [blk Hblk].
    { rewrite Hb. apply Hl. now left. }
    destruct (StgBlock_Map_run fuel w d i X0 blk HX0 Hblk Hr) as (w1 & Hrun & Hbm1 & Hv1).
    destruct (view_lookup blank_cache w w1 d X0 Hv1 HX0) as (X1 & HX1 & HB).
    apply blank_cache_fields in HB as (_ & _ & _ & _ & Hb1 & _).
    destruct (IH w1 X1 HX1) as (w' & Hrest & Hbm' & Hv').
    { congruence. }
    { rewrite <- Hr. now apply rooted_global_pose_of_view. }
    { intros j Hj. apply Hl. now right. }
    exists w'. split; [|split].
    + cbn [map for_each]. mrun Hrun. exact Hrest.
    + intros e. rewrite Hbm', Hbm1. simpl. tauto.
    + congruence.
Qed.

Lemma Map_run fuel w d X :
  models w !! d = Some X ->
  rooted w fuel d = true ->
  exists w', Map fuel d w = Ok (tt, w')
             /\ (forall e, In e (bitmap w') <-> In e (block_refs d X) \/ In e (bitmap w))
             /\ view blank_cache w' = view blank_cache w.
Proof.
  intros HX Hr. unfold Map. mrun (get_model_run _ _ _ HX).
  apply (Map_loop fuel d X (seq 0 (length (blocks X))) w X HX eq_refl Hr).
  intros i Hi%in_seq. lia.
Qed.

Lemma UnMap_run w d X :
  models w !! d = Some X ->
  exists w', UnMap d w = Ok (tt, w')
             /\ forall e, In e (bitmap w') <-> In e (bitmap w) /\ ~ In e (block_refs d X).
Proof.
  intros HX. unfold UnMap. mrun (get_model_run _ _ _ HX). apply for_each_UnMap_run.
Qed.

Lemma In_block_refs d X e :
  In e (block_refs d X) <-> fst e = d /\ snd e < length (blocks X).
Proof.
  unfold block_refs. rewrite in_map_iff. split.
  - intros (i & <- & Hi%in_seq). simpl. split; [reflexivity|lia].
  - intros [Hd Hi]. exists (snd e). split; [destruct e; simpl in *; congruence|].
    apply in_seq. lia.
Qed.

Lemma models_bitmap_blind : bitmap_blind models.
Proof. intros bm w. reflexivity. Qed.

Lemma fold_UnMap_bitmap l : forall w e,
  In e (bitmap (fold_left (apply_op UnMap) l w)) <->
  In e (bitmap w) /\
  forall d X, In d l -> models w !! d = Some X -> ~ In e (block_refs d X).
Proof.
  induction l as [|d l IH]; intros w e; cbn [fold_left].
  - simpl. split; [intros H; split; [exact H|intros ? ? []]|tauto].
  - rewrite IH. unfold apply_op.
    destruct (models w !! d) as [X|] eqn:HX.
    + destruct (UnMap_run w d X HX) as (w' & Hrun & Hbm). rewrite Hrun.
      assert (Hms : models w' = models w)
        by exact (UnMap_keeps models d models_bitmap_blind _ _ _ Hrun).
      rewrite Hbm, Hms. split.
      * intros [[H1 H2] H3]. split; [exact H1|].
        intros d' X' [<-|Hin] HX'; [congruence|eauto].
      * intros [H1 H2]. split; [split; [exact H1|]|]; eauto using in_eq, in_cons.
    + assert (Hf : UnMap d w = Fault WildPointer)
        by (unfold UnMap, bind, get_model; now rewrite HX).
      rewrite Hf. split.
      * intros [H1 H2]. split; [exact H1|].
        intros d' X' [<-|Hin] HX'; [congruence|eauto].
      * intros [H1 H2]. split; [exact H1|]. eauto using in_cons.
Qed.

Lemma block_refs_blank d X X' :
  blank_cache X' = blank_cache X -> block_refs d X' = block_refs d X.
Proof.
  intros HB. apply blank_cache_fields in HB as (_ & _ & _ & _ & Hb & _).
  unfold block_refs. now rewrite Hb.
Qed.

Lemma fold_Map_bitmap fuel l : forall w e,
  (forall d, In d l -> present w d -> rooted w fuel d = true) ->
  In e (bitmap (fold_left (apply_op (Map fuel)) l w)) <->
  In e (bitmap w) \/
  exists d X, In d l /\ models w !! d = Some X /\ In e (block_refs d X).
Proof.
  induction l as [|d l IH]; intros w e Hr; cbn [fold_left].
  - simpl. split; [auto|]. intros [H|(d & X & [] & _)]. exact H.
  - unfold apply_op at 2.
    destruct (models w !! d) as [X|] eqn:HX.
    + destruct (Map_run fuel w d X HX) as (w' & Hrun & Hbm & Hv).
      { apply Hr; [now left|now exists X]. }
      rewrite Hrun. rewrite IH.
      * rewrite Hbm. split.
        -- intros [[H|H]|(d' & X' & Hin & HX' & He)]; eauto 8 using in_eq.
           destruct (view_lookup blank_cache w' w d' X' (eq_sym Hv) HX')
             as (X0 & HX0 & HB).
           rewrite <- (block_refs_blank d' X' X0) in He by exact HB.
           right. exists d', X0. auto using in_cons.
        -- intros [H|(d' & X' & [<-|Hin] & HX' & He)]; eauto 8.
           ++ left. left. congruence.
           ++ destruct (view_lookup blank_cache w w' d' X' Hv HX') as (X0 & HX0 & HB).
              rewrite <- (block_refs_blank d' X' X0) in He by exact HB.
              right. exists d', X0. auto.
      * intros d' Hd' [X' HX'].
        destruct (view_lookup blank_cache w' w d' X' (eq_sym Hv) HX') as (X0 & HX0 & _).
        rewrite <- (Hr d' (in_cons _ _ _ Hd') (ex_intro _ X0 HX0)).
        now apply rooted_global_pose_of_view.
    + assert (Hf : Map fuel d w = Fault WildPointer)
        by (unfold Map, bind, get_model; now rewrite HX).
      rewrite Hf. rewrite IH.
      * split.
        -- intros [H|(d' & X' & Hin & HX' & He)]; eauto 8 using in_cons.
        -- intros [H|(d' & X' & [<-|Hin] & HX' & He)]; eauto 8. congruence.
      * intros d' Hd'. apply Hr. now right.
Qed.

(** *** Marking global poses dirty *)

Lemma fold_dirty_flags l : forall w d X,
  models w !! d = Some X ->
  field gpose_dirty d
    (fold_left (apply_op (fun d => modify_model d (set_gpose_dirty true))) l w)
  = Some (if in_dec Nat.eq_dec d l then true else gpose_dirty X).
Proof.
  induction l as [|c l IH]; intros w d X HX; cbn [fold_left].
  - unfold field. rewrite HX. reflexivity.
  - unfold apply_op at 2.
    destruct (models w !! c) as [Y|] eqn:HY.
    + rewrite (modify_model_run _ _ _ _ HY).
      destruct (Nat.eq_dec c d) as [->|Hne].
      * assert (Y = X) as -> by congruence.
        erewrite IH by (eapply lookup_modified_eq; eauto).
        cbn [gpose_dirty set_gpose_dirty].
        destruct (in_dec Nat.eq_dec d l), (in_dec Nat.eq_dec d (d :: l)); auto;
          exfalso; auto using in_eq.
      * erewrite IH by (rewrite lookup_modified_ne; eauto).
        destruct (in_dec Nat.eq_dec d l), (in_dec Nat.eq_dec d (c :: l)) as [[?|?]|?];
          auto; try congruence; exfalso; auto using in_cons.
    + unfold modify_model. rewrite HY.
      erewrite IH by eauto.
      destruct (in_dec Nat.eq_dec d l), (in_dec Nat.eq_dec d (c :: l)) as [[?|?]|?];
        auto; try (subst; congruence); exfalso; auto using in_cons.
Qed.

Lemma GPoseDirtyTree_keeps {T} (phi : StgWorld -> T) :
  (forall v, model_blind phi (set_gpose_dirty v)) ->
  forall fuel m, keeps phi (GPoseDirtyTree fuel m).
Proof.
  intros H fuel. induction fuel as [|f IH]; intros m; simpl.
  - apply keeps_raise.
  - frame. apply IH.
Qed.

Lemma walk_keeps {T} (phi : StgWorld -> T) (op : model_id -> M unit) :
  (forall d, keeps phi (op d)) -> forall fuel m, keeps phi (walk op fuel m).
Proof.
  intros H fuel. induction fuel as [|f IH]; intros m; simpl.
  - apply keeps_raise.
  - apply keeps_bind; [apply H|]. intros _.
    apply keeps_bind; [apply keeps_get_model|]. intros X.
    apply keeps_for_each. intros c. apply IH.
Qed.

Lemma MapWithChildren_keeps {T} (phi : StgWorld -> T) :
  (forall v, model_blind phi (set_global_pose v)) ->
  (forall v, model_blind phi (set_gpose_dirty v)) ->
  bitmap_blind phi -> forall fuel m, keeps phi (MapWithChildren fuel m).
Proof.
  intros H1 H2 H3 fuel m w a w' Hrun. rewrite MapWithChildren_walk in Hrun.
  revert w a w' Hrun. apply walk_keeps. intros d. now apply Map_keeps.
Qed.

Lemma UnMapWithChildren_keeps {T} (phi : StgWorld -> T) :
  bitmap_blind phi -> forall fuel m, keeps phi (UnMapWithChildren fuel m).
Proof.
  intros H fuel. induction fuel as [|f IH]; intros m; simpl.
  - apply keeps_raise.
  - frame. apply IH.
Qed.

Lemma NeedRedraw_keeps {T} (phi : StgWorld -> T) :
  (forall v, model_blind phi (set_rebuild_displaylist v)) ->
  forall fuel m, keeps phi (NeedRedraw fuel m).
Proof.
  intros H fuel. induction fuel as [|f IH]; intros m; simpl.
  - apply keeps_raise.
  - frame. apply IH.
Qed.

Lemma NeedRedraw_run fuel : forall w m,
  rooted w fuel m = true -> exists w', NeedRedraw fuel m w = Ok (tt, w').
Proof.
  induction fuel as [|f IH]; intros w m Hr; [discriminate|].
  cbn [rooted NeedRedraw] in *.
  destruct (models w !! m) as [X|] eqn:HX; [|discriminate].
  mrun (modify_model_run _ (set_rebuild_displaylist true) _ _ HX).
  erewrite bind_run by (apply get_model_run; eapply lookup_modified_eq; eauto).
  cbn [parent set_rebuild_displaylist].
  destruct (parent X) as [p|]; [|eexists; reflexivity].
  apply IH. rewrite <- Hr. apply rooted_view.
  apply view_blind; [reflexivity|exact HX].
Qed.

(** ** [SetPose] *)

Lemma UnMap_total w d X : models w !! d = Some X -> exists w', UnMap d w = Ok (tt, w').
Proof. intros H. destruct (UnMap_run w d X H) as (w' & ? & _). eauto. Qed.

Lemma Map_total fuel w d : mappable fuel w d -> exists w', Map fuel d w = Ok (tt, w').
Proof.
  intros [[X HX] Hr]. destruct (Map_run fuel w d X HX Hr) as (w' & ? & _). eauto.
Qed.

Lemma Map_blank fuel d w u w' :
  Map fuel d w = Ok (u, w') -> view blank_cache w' = view blank_cache w.
Proof.
  apply (Map_keeps (view blank_cache)); try (intros v; apply view_blind; reflexivity).
  intros bm w0. reflexivity.
Qed.

Lemma mappable_blank fuel w w' d :
  view blank_cache w' = view blank_cache w -> mappable fuel w d -> mappable fuel w' d.
Proof.
  intros Hv [[X HX] Hr]. split.
  - destruct (view_lookup blank_cache w w' d X Hv HX) as (X' & HX' & _). now exists X'.
  - rewrite <- Hr. now apply rooted_global_pose_of_view.
Qed.

Lemma Map_mappable fuel w d w' d' :
  Map fuel d w = Ok (tt, w') -> mappable fuel w d' -> mappable fuel w' d'.
Proof. intros Hrun. apply mappable_blank. exact (Map_blank _ _ _ _ _ Hrun). Qed.

Lemma view_cache_blind {T} (g : StgModel -> T) :
  (forall v Y, g (set_global_pose v Y) = g Y) ->
  (forall v Y, g (set_gpose_dirty v Y) = g Y) ->
  forall w w', view blank_cache w' = view blank_cache w -> view g w' = view g w.
Proof.
  intros H1 H2 w w' Hv.
  assert (Hg : forall Y, g (blank_cache Y) = g Y).
  { intros Y. unfold blank_cache. now rewrite H2, H1. }
  unfold view in *. apply list_eq. intros i.
  apply (f_equal (fun l => l !! i)) in Hv. rewrite !list_lookup_fmap in *.
  destruct (models w' !! i) as [Y'|], (models w !! i) as [Y|];
    cbn [fmap option_fmap option_map] in *; try discriminate; [|reflexivity].
  apply (inj Some) in Hv. f_equal. rewrite <- (Hg Y'), <- (Hg Y). now rewrite Hv.
Qed.

Lemma subtree_rooted_In w n m d :
  subtree_rooted w n m = true -> In d (subtree w n m) -> rooted w n d = true.
Proof. unfold subtree_rooted. rewrite forallb_forall. auto. Qed.

Lemma dirty_total w d X :
  models w !! d = Some X -> exists w', modify_model d (set_gpose_dirty true) w = Ok (tt, w').
Proof. intros H. rewrite (modify_model_run _ _ _ _ H). eauto. Qed.

Lemma view_bitmap_blind {T} (g : StgModel -> T) : bitmap_blind (view g).
Proof. intros bm w. reflexivity. Qed.

Lemma events_bitmap_blind : bitmap_blind events.
Proof. intros bm w. reflexivity. Qed.

Lemma SetPose_same fuel w m X :
  models w !! m = Some X ->
  SetPose fuel m (pose X) w
  = Ok (tt, set_events (events w ++ [EvCallback m K_pose]) w).
Proof.
  intros HX. unfold SetPose. mrun (get_model_run _ _ _ HX).
  destruct (pose_eq_dec (pose X) (pose X)) as [_|Hne]; [|contradiction].
  reflexivity.
Qed.

Lemma SetPose_moved fuel w m X p :
  models w !! m = Some X ->
  tree_ok w fuel m = true ->
  rooted w fuel m = true ->
  subtree_rooted w fuel m = true ->
  p <> pose X ->
  exists w1 w2 w3,
    UnMapWithChildren fuel m w = Ok (tt, w1)
    /\ (forall d Y i, In d (subtree w fuel m) -> models w !! d = Some Y ->
                      i < length (blocks Y) -> ~ In (d, i) (bitmap w1))
    /\ field pose m w2 = Some (stored_pose p)
    /\ (- PI < pose_a (stored_pose p) <= PI)%R
    /\ (forall d, In d (subtree w fuel m) -> field gpose_dirty d w2 = Some true)
    /\ bitmap w2 = bitmap w1
    /\ MapWithChildren fuel m w2 = Ok (tt, w3)
    /\ (forall d Y i, In d (subtree w fuel m) -> models w !! d = Some Y ->
                      i < length (blocks Y) -> In (d, i) (bitmap w3))
    /\ field pose m w3 = Some (stored_pose p)
    /\ (forall d, d <> m -> field pose d w3 = field pose d w)
    /\ events w3 = events w
    /\ SetPose fuel m p w
       = Ok (tt, set_events (events w ++ [EvCallback m K_pose]) w3).
Proof.
  intros HX Hok Hr Hsr Hp.
  (* unmapping *)
  assert (Hun : UnMapWithChildren fuel m w
                = Ok (tt, fold_left (apply_op UnMap) (subtree w fuel m) w)).
  { rewrite UnMapWithChildren_walk.
    apply walk_run_present;
      [intros d; apply UnMap_keeps, view_bitmap_blind | exact UnMap_total | exact Hok]. }
  set (w1 := fold_left (apply_op UnMap) (subtree w fuel m) w) in *.
  assert (Hms1 : models w1 = models w).
  { apply (fold_apply_op_keeps UnMap models).
    intros d. apply UnMap_keeps, models_bitmap_blind. }
  assert (Hev1 : events w1 = events w).
  { apply (fold_apply_op_keeps UnMap events).
    intros d. apply UnMap_keeps, events_bitmap_blind. }
  (* storing the pose *)
  assert (HX1 : models w1 !! m = Some X) by (rewrite Hms1; exact HX).
  set (pose1 := with_a (normalize (pose_a p)) p).
  set (wa := set_models (<[m := set_pose pose1 X]> (models w1)) w1).
  assert (HXa : models wa !! m = Some (set_pose pose1 X))
    by (eapply lookup_modified_eq; eauto).
  set (Xb := set_pose (stored_pose p) (set_pose pose1 X)).
  set (wb := set_models (<[m := Xb]> (models wa)) wa).
  assert (HXb : models wb !! m = Some Xb) by (eapply lookup_modified_eq; eauto).
  assert (Hvb : forall T (g : StgModel -> T),
             (forall v Y, g (set_pose v Y) = g Y) -> view g wb = view g w).
  { intros T g Hg.
    transitivity (view g wa);
      [exact (view_blind g (set_pose (stored_pose p)) (Hg _) wa m _ HXa)|].
    transitivity (view g w1);
      [exact (view_blind g (set_pose pose1) (Hg _) w1 m X HX1)|].
    unfold view. now rewrite Hms1. }
  (* redraw flags *)
  destruct (NeedRedraw_run fuel wb m) as (wc & Hnr).
  { rewrite <- Hr. apply rooted_view, Hvb. reflexivity. }
  assert (Hvc : forall T (g : StgModel -> T),
             (forall v Y, g (set_rebuild_displaylist v Y) = g Y) ->
             view g wc = view g wb).
  { intros T g Hg. eapply (NeedRedraw_keeps (view g)); [|exact Hnr].
    intros v. apply view_blind. intros Y. apply Hg. }
  (* dirty flags *)
  assert (Hch_c : view children wc = view children w).
  { rewrite Hvc, Hvb; reflexivity. }
  destruct (tree_shape_view w wc fuel Hch_c m) as [Hokc Hsubc].
  assert (Hgd : GPoseDirtyTree fuel m wc
                = Ok (tt, fold_left
                            (apply_op (fun d => modify_model d (set_gpose_dirty true)))
                            (subtree w fuel m) wc)).
  { rewrite GPoseDirtyTree_walk, <- Hsubc.
    apply walk_run_present; [intros d; frame | exact dirty_total | congruence]. }
  set (w2 := fold_left _ (subtree w fuel m) wc) in *.
  assert (Hv2 : forall T (g : StgModel -> T),
             (forall v Y, g (set_gpose_dirty v Y) = g Y) -> view g w2 = view g wc).
  { intros T g Hg.
    apply (fold_apply_op_keeps _ (view g)). intros d.
    apply keeps_modify_model, view_blind. intros Y. apply Hg. }
  assert (Hbm2 : bitmap w2 = bitmap w1).
  { transitivity (bitmap wc).
    - apply (fold_apply_op_keeps _ bitmap). intros d. frame.
    - transitivity (bitmap wb); [|reflexivity].
      eapply (NeedRedraw_keeps bitmap); [|exact Hnr]. intros v. blind_tac. }
  assert (Hev2 : events w2 = events w).
  { transitivity (events wc).
    - apply (fold_apply_op_keeps _ events). intros d. frame.
    - transitivity (events wb); [|exact Hev1].
      eapply (NeedRedraw_keeps events); [|exact Hnr]. intros v. blind_tac. }
  (* mapping again *)
  assert (Hch_2 : view children w2 = view children w).
  { rewrite Hv2, Hch_c; reflexivity. }
  destruct (tree_shape_view w w2 fuel Hch_2 m) as [Hok2 Hsub2].
  assert (Hpar_2 : view parent w2 = view parent w).
  { rewrite Hv2, Hvc, Hvb; reflexivity. }
  assert (Hready : forall d, In d (subtree w fuel m) -> mappable fuel w2 d).
  { intros d Hd. split.
    - destruct (subtree_valid w fuel m d Hok Hd) as (Y & HY).
      destruct (view_lookup children w w2 d Y Hch_2 HY) as (Y2 & HY2 & _). now exists Y2.
    - rewrite (rooted_view w w2 fuel Hpar_2). exact (subtree_rooted_In _ _ _ _ Hsr Hd). }
  assert (Hmap : MapWithChildren fuel m w2
                 = Ok (tt, fold_left (apply_op (Map fuel)) (subtree w fuel m) w2)).
  { rewrite MapWithChildren_walk, <- Hsub2.
    apply (walk_run (Map fuel) (mappable fuel)).
    - intros d. apply Map_keeps; try (intros v; apply view_blind; reflexivity).
      apply view_bitmap_blind.
    - apply Map_total.
    - apply Map_mappable.
    - congruence.
    - rewrite Hsub2. exact Hready. }
  set (w3 := fold_left (apply_op (Map fuel)) (subtree w fuel m) w2) in *.
  assert (Hv3 : forall T (g : StgModel -> T),
             (forall v Y, g (set_global_pose v Y) = g Y) ->
             (forall v Y, g (set_gpose_dirty v Y) = g Y) -> view g w3 = view g w2).
  { intros T g Hg1 Hg2. apply (fold_apply_op_keeps (Map fuel) (view g)).
    intros d. apply Map_keeps; try (intros v; apply view_blind; intros Y; auto).
    apply view_bitmap_blind. }
  assert (Hev3 : events w3 = events w).
  { rewrite <- Hev2. apply (fold_apply_op_keeps (Map fuel) events).
    intros d. apply Map_keeps; [intros; blind_tac..|apply events_bitmap_blind]. }
  assert (Hpose2 : field pose m w2 = Some (stored_pose p)).
  { rewrite (view_field pose wc w2 m), (view_field pose wb wc m).
    - unfold field. rewrite HXb. reflexivity.
    - apply Hvc. reflexivity.
    - apply Hv2. reflexivity. }
  exists w1, w2, w3. repeat split.
  + exact Hun.
  + intros d Y i Hd HY Hi Hin.
    apply fold_UnMap_bitmap in Hin as [_ Hin].
    apply (Hin d Y Hd HY), In_block_refs. auto.
  + exact Hpose2.
  + apply normalize_range.
  + apply normalize_range.
  + intros d Hd.
    destruct (subtree_valid w fuel m d Hok Hd) as (Y & HY).
    destruct (view_lookup children w wc d Y Hch_c HY) as (Yc & HYc & _).
    unfold w2. rewrite (fold_dirty_flags _ _ _ _ HYc).
    destruct (in_dec Nat.eq_dec d (subtree w fuel m)); [reflexivity|contradiction].
  + exact Hbm2.
  + exact Hmap.
  + intros d Y i Hd HY Hi.
    apply fold_Map_bitmap; [intros d' Hd' _; apply Hready, Hd'|]. right.
    assert (Hbl : view blocks w2 = view blocks w).
    { rewrite Hv2, Hvc, Hvb; reflexivity. }
    destruct (view_lookup blocks w w2 d Y Hbl HY) as (Y2 & HY2 & Hb2).
    exists d, Y2. split; [exact Hd|]. split; [exact HY2|].
    apply In_block_refs. simpl. rewrite Hb2. auto.
  + rewrite (view_field pose w2 w3 m); [exact Hpose2|]. apply Hv3; reflexivity.
  + intros d Hne.
    rewrite (view_field pose w2 w3 d) by (apply Hv3; reflexivity).
    rewrite (view_field pose wc w2 d), (view_field pose wb wc d);
      [|apply Hvc; reflexivity|apply Hv2; reflexivity].
    unfold field, wb, wa. cbn [models set_models].
    rewrite !list_lookup_insert_ne by auto. now rewrite Hms1.
  + exact Hev3.
  + unfold SetPose. mrun (get_model_run _ _ _ HX).
    destruct (pose_eq_dec (pose X) p) as [Heq|_]; [congruence|].
    mrun Hun.
    mrun (modify_model_run _ (set_pose pose1) _ _ HX1).
    mrun (modify_model_run _
            (fun X => set_pose (with_a (normalize (pose_a (pose X))) (pose X)) X)
            _ _ HXa).
    change (set_models _ (set_models _ w1)) with wb.
    mrun Hnr. mrun Hgd. mrun Hmap.
    unfold CallCallbacks, modify_world. rewrite Hev3. reflexivity.
Qed.

(** C4: [SetPose(p)] with [p] equal to the current pose only fires the
    pose callback.  With a different [p], the model and all its
    descendants are first unmapped from the spatial index; then the pose
    is stored with its heading normalised into (-pi, pi] and [gpose_dirty]
    is set on the model and every descendant, the index untouched; then
    the model and its descendants are mapped again; and last the pose
    callback fires.  Mapping a block asks its model for the global pose
    of each point, so the second part supposes that the chain of parents
    of every descendant ends within the fuel. *)
Theorem SetPose_spec fuel w m X p :
  models w !! m = Some X ->
  tree_ok w fuel m = true ->
  rooted w fuel m = true ->
  (p = pose X ->
   SetPose fuel m p w = Ok (tt, set_events (events w ++ [EvCallback m K_pose]) w))
  /\
  (p <> pose X ->
   subtree_rooted w fuel m = true ->
   exists w1 w2 w3,
     UnMapWithChildren fuel m w = Ok (tt, w1)
     /\ (forall d Y i, In d (subtree w fuel m) -> models w !! d = Some Y ->
                       i < length (blocks Y) -> ~ In (d, i) (bitmap w1))
     /\ field pose m w2 = Some (stored_pose p)
     /\ (- PI < pose_a (stored_pose p) <= PI)%R
     /\ (forall d, In d (subtree w fuel m) -> field gpose_dirty d w2 = Some true)
     /\ bitmap w2 = bitmap w1
     /\ MapWithChildren fuel m w2 = Ok (tt, w3)
     /\ (forall d Y i, In d (subtree w fuel m) -> models w !! d = Some Y ->
                       i < length (blocks Y) -> In (d, i) (bitmap w3))
     /\ field pose m w3 = Some (stored_pose p)
     /\ (forall d, d <> m -> field pose d w3 = field pose d w)
     /\ events w3 = events w
     /\ SetPose fuel m p w
        = Ok (tt, set_events (events w ++ [EvCallback m K_pose]) w3)).
Proof.
  intros HX Hok Hr. split.
  - intros ->. exact (SetPose_same fuel w m X HX).
  - intros Hp Hsr.
    destruct (SetPose_moved fuel w m X p HX Hok Hr Hsr Hp)
      as (w1 & w2 & w3 & Hun & Hunmapped & Hpose2 & Hrange & Hdirty & Hbm & Hmap
          & Hmapped & Hpose3 & Hothers & Hev & Hrun).
    exists w1, w2, w3. repeat split; try assumption; apply Hrange.
Qed.

(** In the chain world, moving model 1 (child of 0, parent of 2) to
    (1, 2, 0, 4): the stored heading is normalised, the blocks of 1 and 2
    are mapped again, and the callback is the last event. *)
Lemma SetPose_spec_chain :
  SetPose 3 1 pose_zero mapped_chain_world
  = Ok (tt, set_events (events mapped_chain_world ++ [EvCallback 1 K_pose])
              mapped_chain_world)
  /\ exists w3,
       SetPose 3 1 (new_pose 1 2 0 4) mapped_chain_world
       = Ok (tt, set_events (events mapped_chain_world ++ [EvCallback 1 K_pose]) w3)
       /\ field pose 1 w3 = Some (stored_pose (new_pose 1 2 0 4))
       /\ In (1, 0) (bitmap w3) /\ In (2, 0) (bitmap w3).
Proof.
  destruct (SetPose_spec 3 mapped_chain_world 1 _ pose_zero eq_refl eq_refl eq_refl)
    as [Hsame _].
  destruct (SetPose_spec 3 mapped_chain_world 1 _ (new_pose 1 2 0 4)
              eq_refl eq_refl eq_refl) as [_ Hdiff].
  split; [apply Hsame; reflexivity|].
  destruct Hdiff as (w1 & w2 & w3 & _ & _ & _ & _ & _ & _ & _ & Hmapped & Hp & _ & _ & Hrun).
  { intros H. apply (f_equal pose_x) in H. simpl in H. lra. }
  { reflexivity. }
  exists w3. split; [exact Hrun|]. split; [exact Hp|].
  split; eapply Hmapped; try reflexivity; simpl; auto.
Defined.

(** ** [TestCollision] *)

Lemma collision_match_iff w b finder :
  collision_match w b finder = true <->
  Model b <> finder /\
  exists Y, models w !! Model b = Some Y /\ obstacle_return Y <> 0%Z.
Proof.
  unfold collision_match, ObstacleReturn.
  rewrite andb_true_iff, negb_true_iff, Nat.eqb_neq.
  destruct (models w !! Model b) as [Y|].
  - rewrite negb_true_iff, Z.eqb_neq. split.
    + intros [H1 H2]. eauto.
    + intros [H1 (Y' & [= <-] & H2)]. auto.
  - split; [intros [_ [=]]|intros [_ (Y & [=] & _)]].
Qed.

Lemma last_hit_app l1 l2 h :
  fold_left hit_update (l1 ++ l2) h = fold_left hit_update l2 (fold_left hit_update l1 h).
Proof. apply fold_left_app. Qed.

Lemma fold_hit_Some l : forall h,
  fold_left hit_update l h <> None <-> h <> None \/ exists blk, In (Some blk) l.
Proof.
  induction l as [|s l IH]; intros h; cbn [fold_left].
  - split; [auto|]. intros [H|(b & [])]. exact H.
  - rewrite IH. destruct s as [blk|]; cbn [hit_update].
    + split; [intros _; right; exists blk; now left|]. intros _. now left.
    + split.
      * intros [H|(b & Hb)]; [now left|right; exists b; now right].
      * intros [H|(b & [Hb|Hb])]; [now left|discriminate|right; eauto].
Qed.

Section TestCollisionFacts.

Variable world_Raytrace :
  StgWorld -> stg_pose_t -> R -> (block_ref -> model_id -> bool) ->
  model_id -> bool -> option block_ref.

Lemma Raytrace_run fuel m pose0 range func ztest w0 X0 gp :
  models w0 !! m = Some X0 ->
  rooted w0 fuel m = true ->
  global_pose_of w0 fuel m = Some gp ->
  exists w',
    Raytrace world_Raytrace fuel m pose0 range func ztest w0
    = Ok (world_Raytrace (raster_view w0)
            (pose_sum (pose_sum gp (geom_pose (geom X0))) pose0)
            range (func (raster_view w0)) m ztest, w')
    /\ raster_view w' = raster_view w0.
Proof.
  intros HX Hr Hg.
  destruct (GetGlobalPose_run fuel w0 m Hr) as (g & w' & Hrun & Hspec & Hv).
  assert (g = gp) as -> by congruence.
  destruct (raster_view_lookup _ _ _ _ Hv HX) as (X' & HX' & HB).
  apply blank_cache_fields in HB as (_ & _ & _ & Hgeom & _).
  exists w'. split; [|exact Hv].
  unfold Raytrace, LocalToGlobal. mrun Hrun. mrun (get_model_run _ _ _ HX').
  unfold bind, ret, get_world. rewrite Hgeom, Hv. reflexivity.
Qed.

Lemma Raytrace_keeps {T} (phi : StgWorld -> T) fuel m pose0 range func ztest :
  (forall v, model_blind phi (set_global_pose v)) ->
  (forall v, model_blind phi (set_gpose_dirty v)) ->
  keeps phi (Raytrace world_Raytrace fuel m pose0 range func ztest).
Proof.
  intros H1 H2. unfold Raytrace, LocalToGlobal. frame.
  now apply GetGlobalPose_keeps.
Qed.

Lemma TestCollision_keeps {T} (phi : StgWorld -> T) fuel m delta :
  (forall v, model_blind phi (set_global_pose v)) ->
  (forall v, model_blind phi (set_gpose_dirty v)) ->
  bitmap_blind phi ->
  keeps phi (TestCollision world_Raytrace fuel m delta).
Proof.
  intros H1 H2 H3. unfold TestCollision.
  apply keeps_bind; [apply keeps_get_model|]. intros X.
  destruct (blocks X); [apply keeps_ret|].
  apply keeps_bind; [now apply UnMap_keeps|]. intros _.
  apply keeps_bind.
  - apply keeps_for_fold. intros b h. apply keeps_for_fold. intros p h'.
    apply keeps_bind; [now apply Raytrace_keeps|]. intros smp. apply keeps_ret.
  - intros h. apply keeps_bind; [now apply Map_keeps|]. intros _. apply keeps_ret.
Qed.

Section Loops.
Variables (fuel : nat) (m : model_id) (delta : stg_pose_t).
Variables (w1 : StgWorld) (X1 : StgModel) (gp : stg_pose_t).
Hypothesis HX1 : models w1 !! m = Some X1.
Hypothesis Hr1 : rooted w1 fuel m = true.
Hypothesis Hg1 : global_pose_of w1 fuel m = Some gp.

Lemma edge_loop pts l : forall w0 h,
  raster_view w0 = raster_view w1 ->
  exists w',
    for_fold l
      (fun p hitmod =>
         sample <- Raytrace world_Raytrace fuel m (pose_sum delta (edge_pose pts p))
                     (edge_range pts p) collision_match true ;;
         ret (match sample with
              | Some blk => Some (Model blk)
              | None => hitmod
              end)) h w0
    = Ok (fold_left hit_update
            (map (edge_sample world_Raytrace (raster_view w1) gp X1 m delta pts) l) h,
          w')
    /\ raster_view w' = raster_view w1.
Proof.
  induction l as [|p l IH]; intros w0 h Hv.
  - exists w0. split; [reflexivity|exact Hv].
  - destruct (raster_view_lookup _ _ _ _ Hv HX1) as (X0 & HX0 & HB).
    apply blank_cache_fields in HB as (_ & _ & _ & Hgeom & _).
    destruct (rooted_global_pose_of_view w1 w0 fuel m (raster_view_models _ _ Hv))
      as [Hr0 Hg0].
    rewrite Hr1 in Hr0. rewrite Hg1 in Hg0.
    destruct (Raytrace_run fuel m (pose_sum delta (edge_pose pts p)) (edge_range pts p)
                collision_match true w0 X0 gp HX0 Hr0 Hg0) as (w' & Hrun & Hv').
    destruct (IH w' (hit_update h (edge_sample world_Raytrace (raster_view w1) gp X1 m
                                     delta pts p))) as (w'' & Hrest & Hv'').
    { congruence. }
    exists w''. split; [|exact Hv''].
    cbn [for_fold map fold_left]. mrun Hrun.
    rewrite (bind_run (ret _) _ w' _ w' eq_refl).
    rewrite Hgeom, Hv. exact Hrest.
Qed.

Lemma block_loop bs : forall w0 h,
  raster_view w0 = raster_view w1 ->
  exists w',
    for_fold bs
      (fun b hitmod =>
         let pts := blk_pts b in
         let pt_count := length pts in
         for_fold (seq 0 pt_count)
           (fun p hitmod =>
              sample <- Raytrace world_Raytrace fuel m (pose_sum delta (edge_pose pts p))
                          (edge_range pts p) collision_match true ;;
              ret (match sample with
                   | Some blk => Some (Model blk)
                   | None => hitmod
                   end))
           hitmod) h w0
    = Ok (fold_left hit_update
            (flat_map
               (fun b => map (edge_sample world_Raytrace (raster_view w1) gp X1 m delta
                                (blk_pts b))
                             (seq 0 (length (blk_pts b)))) bs) h,
          w')
    /\ raster_view w' = raster_view w1.
Proof.
  induction bs as [|b bs IH]; intros w0 h Hv.
  - exists w0. split; [reflexivity|exact Hv].
  - destruct (edge_loop (blk_pts b) (seq 0 (length (blk_pts b))) w0 h Hv)
      as (w' & Hrun & Hv').
    destruct (IH w' (fold_left hit_update
                       (map (edge_sample world_Raytrace (raster_view w1) gp X1 m delta
                               (blk_pts b)) (seq 0 (length (blk_pts b)))) h) Hv')
      as (w'' & Hrest & Hv'').
    exists w''. split; [|exact Hv''].
    cbn [for_fold flat_map]. cbv zeta. mrun Hrun.
    rewrite last_hit_app. exact Hrest.
Qed.

End Loops.

Lemma TestCollision_run fuel w m X delta :
  models w !! m = Some X ->
  rooted w fuel m = true ->
  (forall wv b finder,
     collision_match wv b finder = true <->
     Model b <> finder /\
     exists Y, models wv !! Model b = Some Y /\ obstacle_return Y <> 0%Z)
  /\
  (blocks X = [] -> TestCollision world_Raytrace fuel m delta w = Ok (None, w))
  /\
  (blocks X <> [] ->
   exists gp w1 w',
     global_pose_of w fuel m = Some gp
     /\ UnMap m w = Ok (tt, w1)
     /\ (forall e, In e (bitmap w1) <-> In e (bitmap w) /\ ~ In e (block_refs m X))
     /\ TestCollision world_Raytrace fuel m delta w
        = Ok (last_hit (edge_samples world_Raytrace (raster_view w1) gp X m delta), w')
     /\ (last_hit (edge_samples world_Raytrace (raster_view w1) gp X m delta) <> None
         <-> exists blk,
               In (Some blk) (edge_samples world_Raytrace (raster_view w1) gp X m delta))
     /\ (forall e, In e (block_refs m X) -> In e (bitmap w'))).
Proof.
  intros HX Hr. split; [intros; apply collision_match_iff|]. split.
  - intros Hb. unfold TestCollision. mrun (get_model_run _ _ _ HX).
    rewrite Hb. reflexivity.
  - intros Hb.
    destruct (GetGlobalPose_run fuel w m Hr) as (gp & _ & _ & Hg & _).
    destruct (UnMap_run w m X HX) as (w1 & Hun & Hbm1).
    assert (Hms1 : models w1 = models w)
      by exact (UnMap_keeps models m models_bitmap_blind _ _ _ Hun).
    assert (Hbv1 : view blank_cache w1 = view blank_cache w)
      by (unfold view; now rewrite Hms1).
    assert (HX1 : models w1 !! m = Some X) by (now rewrite Hms1).
    destruct (rooted_global_pose_of_view w w1 fuel m Hbv1) as [Hr1 Hg1].
    rewrite Hr in Hr1. rewrite Hg in Hg1.
    destruct (block_loop fuel m delta w1 X gp HX1 Hr1 Hg1 (blocks X) w1 None eq_refl)
      as (w2 & Hloop & Hv2).
    destruct (raster_view_lookup _ _ _ _ Hv2 HX1) as (X2 & HX2 & HB).
    apply blank_cache_fields in HB as (_ & _ & _ & _ & Hblocks & _).
    destruct (Map_run fuel w2 m X2 HX2) as (w' & Hmap & Hbm' & _).
    { rewrite <- Hr1. now apply rooted_raster_view. }
    exists gp, w1, w'. split; [exact Hg|]. split; [exact Hun|]. split; [exact Hbm1|].
    split; [|split].
    + unfold TestCollision. mrun (get_model_run _ _ _ HX).
      unfold last_hit, edge_samples.
      destruct (blocks X) as [|b bs] eqn:Hbs; [contradiction|].
      mrun Hun. mrun Hloop. mrun Hmap. reflexivity.
    + unfold last_hit. rewrite fold_hit_Some. split; [intros [[]|H]; auto|auto].
    + intros e He. apply Hbm'. left.
      apply In_block_refs. apply In_block_refs in He. now rewrite Hblocks.
Qed.

(** C2, as the code has it.  The match function accepts a block iff its
    owner is not the finder and the owner's [obstacle_return] is nonzero.
    A model without blocks reports no collision and the world is left as
    it was.  Otherwise the model is unmapped first; one ray is cast per
    edge (pt[p], pt[(p+1) mod n]) of every block, from the edge's start
    shifted by [posedelta], with the edge's bearing and length, in the
    world without the mover's blocks; the owner of the block found by the
    LAST ray that found one is returned (every later hit overwrites an
    earlier one), so a collision is reported iff some ray found a block;
    and the model's blocks are in the index again on return. *)
Theorem TestCollision_spec fuel w m X delta :
  models w !! m = Some X ->
  rooted w fuel m = true ->
  (forall wv b finder,
     collision_match wv b finder = true <->
     Model b <> finder /\
     exists Y, models wv !! Model b = Some Y /\ obstacle_return Y <> 0%Z)
  /\
  (blocks X = [] -> TestCollision world_Raytrace fuel m delta w = Ok (None, w))
  /\
  (blocks X <> [] ->
   exists gp w1 w',
     global_pose_of w fuel m = Some gp
     /\ UnMap m w = Ok (tt, w1)
     /\ (forall e, In e (bitmap w1) <-> In e (bitmap w) /\ ~ In e (block_refs m X))
     /\ TestCollision world_Raytrace fuel m delta w
        = Ok (last_hit (edge_samples world_Raytrace (raster_view w1) gp X m delta), w')
     /\ (last_hit (edge_samples world_Raytrace (raster_view w1) gp X m delta) <> None
         <-> exists blk,
               In (Some blk) (edge_samples world_Raytrace (raster_view w1) gp X m delta))
     /\ (forall e, In e (block_refs m X) -> In e (bitmap w'))).
Proof.
  intros HX Hr. split; [intros; apply collision_match_iff|]. split.
  - intros Hb. unfold TestCollision. mrun (get_model_run _ _ _ HX).
    rewrite Hb. reflexivity.
  - intros Hb.
    destruct (TestCollision_run fuel w m X delta HX Hr) as (_ & _ & H).
    exact (H Hb).
Qed.

End TestCollisionFacts.

Lemma flank_samples w1 :
  models w1 = models flank_world ->
  edge_samples flank_Raytrace (raster_view w1) pose_zero (new_model None) 0 pose_zero
  = [Some (2, 0); Some (2, 0); Some (1, 0); Some (1, 0)].
Proof.
  intros Hms.
  assert (Hcm : forall d, d = 1 \/ d = 2 ->
                  collision_match (raster_view w1) (d, 0) 0 = true).
  { intros d Hd. unfold collision_match, ObstacleReturn, raster_view.
    cbn [models set_models]. rewrite Hms.
    destruct Hd as [-> | ->]; reflexivity. }
  unfold edge_samples.
  cbn [blocks new_model flat_map map seq length blk_pts AddBlockRect app].
  unfold edge_sample. cbn [geom new_model geom_pose].
  rewrite !pose_sum_zero_l.
  unfold flank_Raytrace, edge_pose.
  cbn [nth pose_y Nat.modulo Nat.divmod Nat.add length fst snd Nat.sub pt_y pt_x].
  repeat match goal with
         | |- context [Rlt_dec ?a ?b] => destruct (Rlt_dec a b); try lra
         end.
  rewrite !Hcm by auto. reflexivity.
Qed.

(** The claim as stated fails: with obstacles on both sides, the rays of
    the first two edges find model 2 and those of the last two find
    model 1; the first hit is model 2, and [TestCollision] returns
    model 1. *)
Lemma TestCollision_returns_last_hit :
  exists w1 w',
    UnMap 0 flank_world = Ok (tt, w1)
    /\ first_hit (edge_samples flank_Raytrace (raster_view w1) pose_zero
                    (new_model None) 0 pose_zero) = Some 2
    /\ TestCollision flank_Raytrace 1 0 pose_zero flank_world = Ok (Some 1, w').
Proof.
  destruct (TestCollision_run flank_Raytrace 1 flank_world 0 (new_model None) pose_zero
              eq_refl eq_refl) as (_ & _ & H).
  destruct H as (gp & w1 & w' & Hg & Hun & _ & Hrun & _); [discriminate|].
  injection Hg as <-.
  assert (Hms : models w1 = models flank_world)
    by exact (UnMap_keeps models 0 models_bitmap_blind _ _ _ Hun).
  rewrite (flank_samples w1 Hms) in Hrun.
  exists w1, w'. split; [exact Hun|]. split; [|exact Hrun].
  rewrite (flank_samples w1 Hms). reflexivity.
Qed.

Lemma TestCollision_spec_flank :
  exists gp w1 w',
    global_pose_of flank_world 1 0 = Some gp
    /\ UnMap 0 flank_world = Ok (tt, w1)
    /\ TestCollision flank_Raytrace 1 0 pose_zero flank_world
       = Ok (last_hit (edge_samples flank_Raytrace (raster_view w1) gp
                         (new_model None) 0 pose_zero), w')
    /\ In (0, 0) (bitmap w').
Proof.
  destruct (TestCollision_spec flank_Raytrace 1 flank_world 0 (new_model None) pose_zero
              eq_refl eq_refl) as (_ & _ & H).
  destruct H as (gp & w1 & w' & Hg & Hun & _ & Hrun & _ & Hbm); [discriminate|].
  exists gp, w1, w'. repeat split; auto.
  apply Hbm. simpl. auto.
Defined.

(** ** [UpdatePose] *)

Lemma SetStall_keeps {T} (phi : StgWorld -> T) m b :
  (forall v, model_blind phi (set_stall v)) -> events_blind phi ->
  keeps phi (SetStall m b).
Proof. intros H1 H2. unfold SetStall, CallCallbacks. frame. Qed.

Lemma subtree_rooted_view w w' n m :
  view parent w' = view parent w -> view children w' = view children w ->
  subtree_rooted w' n m = subtree_rooted w n m.
Proof.
  intros Hp Hc. unfold subtree_rooted.
  destruct (tree_shape_view w w' n Hc m) as [_ ->].
  induction (subtree w n m) as [|d l IH]; simpl; [reflexivity|].
  now rewrite IH, (rooted_view w w' n Hp d).
Qed.

Lemma SetPose_keeps {T} (phi : StgWorld -> T) fuel m p :
  (forall v, model_blind phi (set_pose v)) ->
  (forall v, model_blind phi (set_rebuild_displaylist v)) ->
  (forall v, model_blind phi (set_gpose_dirty v)) ->
  (forall v, model_blind phi (set_global_pose v)) ->
  bitmap_blind phi -> events_blind phi ->
  keeps phi (SetPose fuel m p).
Proof.
  intros H1 H2 H3 H3' H4 H5. unfold SetPose, CallCallbacks.
  apply keeps_bind; [apply keeps_get_model|]. intros X.
  apply keeps_bind; [|intros _; frame].
  destruct (pose_eq_dec (pose X) p); [apply keeps_ret|].
  apply keeps_bind; [now apply UnMapWithChildren_keeps|]. intros _.
  apply keeps_bind; [frame|]. intros _.
  apply keeps_bind; [frame|]. intros _.
  apply keeps_bind; [now apply NeedRedraw_keeps|]. intros _.
  apply keeps_bind; [now apply GPoseDirtyTree_keeps|]. intros _.
  now apply MapWithChildren_keeps.
Qed.

Lemma set_trail_same X : set_trail (trail X) X = X.
Proof. destruct X; reflexivity. Qed.

Lemma set_models_same w : set_models (models w) w = w.
Proof. destruct w; reflexivity. Qed.

Section UpdatePoseFacts.

Variable world_Raytrace :
  StgWorld -> stg_pose_t -> R -> (block_ref -> model_id -> bool) ->
  model_id -> bool -> option block_ref.

Lemma UpdatePose_keeps {T} (phi : StgWorld -> T) fuel m :
  (forall v, model_blind phi (set_trail v)) ->
  (forall v, model_blind phi (set_global_pose v)) ->
  (forall v, model_blind phi (set_gpose_dirty v)) ->
  (forall v, model_blind phi (set_stall v)) ->
  (forall v, model_blind phi (set_pose v)) ->
  (forall v, model_blind phi (set_rebuild_displaylist v)) ->
  bitmap_blind phi -> events_blind phi ->
  keeps phi (UpdatePose world_Raytrace fuel m).
Proof.
  intros H1 H2 H3 H4 H5 H6 H7 H8. unfold UpdatePose.
  apply keeps_bind; [apply keeps_get_model|]. intros X.
  destruct (disabled X); [apply keeps_ret|].
  apply keeps_bind; [apply keeps_get_world|]. intros w0.
  apply keeps_bind.
  { destruct (updates w0 mod 10 =? 0)%Z; [|apply keeps_ret].
    apply keeps_bind.
    - destruct (100 <? length (trail X)); [|apply keeps_ret].
      apply keeps_modify_model. intros w i Y HY. apply (H1 _ _ _ _ HY).
    - intros _. apply keeps_modify_model. intros w i Y HY. apply (H1 _ _ _ _ HY). }
  intros _. cbv zeta.
  apply keeps_bind; [now apply TestCollision_keeps|]. intros [h|].
  - now apply SetStall_keeps.
  - apply keeps_bind; [now apply SetStall_keeps|]. intros _.
    apply keeps_bind; [apply keeps_get_model|]. intros Y.
    now apply SetPose_keeps.
Qed.

Lemma trail_part_run w m X :
  models w !! m = Some X ->
  (if (updates w mod 10 =? 0)%Z then
     (if 100 <? length (trail X)
      then modify_model m (fun X => set_trail (drop 1 (trail X)) X)
      else ret tt) ;;
     modify_model m
       (fun Y => set_trail (trail Y ++ [mk_trail_item (pose X) (color X) (sim_time w)]) Y)
   else ret tt) w
  = Ok (tt, trail_checked w m X).
Proof.
  intros HX. unfold trail_checked, checkpointed.
  assert (Hlen : m < length (models w)) by (eapply lookup_lt_Some; eauto).
  destruct (updates w mod 10 =? 0)%Z.
  - destruct (100 <? length (trail X)).
    + mrun (modify_model_run _ (fun X => set_trail (drop 1 (trail X)) X) _ _ HX).
      erewrite modify_model_run by (eapply lookup_modified_eq; eauto).
      cbn [models set_models]. rewrite list_insert_insert_eq. reflexivity.
    + rewrite (bind_run (ret tt) _ w tt w eq_refl).
      rewrite (modify_model_run _ _ _ _ HX). reflexivity.
  - unfold ret. rewrite set_trail_same, list_insert_id by exact HX.
    now rewrite set_models_same.
Qed.

Lemma TestCollision_total fuel w m X delta :
  models w !! m = Some X -> rooted w fuel m = true ->
  exists hit w1, TestCollision world_Raytrace fuel m delta w = Ok (hit, w1).
Proof.
  intros HX Hr.
  destruct (TestCollision_run world_Raytrace fuel w m X delta HX Hr) as (_ & H1 & H2).
  destruct (blocks X) as [|b bs] eqn:Hb.
  - eexists _, _. now apply H1.
  - destruct H2 as (gp & w1 & w' & _ & _ & _ & Hrun & _); [discriminate|]. eauto.
Qed.

Lemma UpdatePose_run fuel w m X :
  models w !! m = Some X ->
  disabled X = false ->
  tree_ok w fuel m = true ->
  rooted w fuel m = true ->
  subtree_rooted w fuel m = true ->
  exists hit w1 w',
    TestCollision world_Raytrace fuel m (pose_delta w X) (trail_checked w m X)
    = Ok (hit, w1)
    /\ UpdatePose world_Raytrace fuel m w = Ok (tt, w')
    /\ field trail m w' = Some (checkpointed w X)
    /\ match hit with
       | Some _ =>
           field stall m w' = Some true /\ field pose m w' = Some (pose X)
       | None =>
           field stall m w' = Some false
           /\ field pose m w'
              = Some (pose_after_SetPose (pose X) (pose_sum (pose X) (pose_delta w X)))
       end.
Proof.
  intros HX Hdis Hok Hr Hsr.
  set (w0 := trail_checked w m X).
  set (X0 := set_trail (checkpointed w X) X).
  assert (HX0 : models w0 !! m = Some X0) by (eapply lookup_modified_eq; eauto).
  assert (Hv0 : forall T (g : StgModel -> T),
             (forall v Y, g (set_trail v Y) = g Y) -> view g w0 = view g w).
  { intros T g Hg. exact (view_blind g (set_trail (checkpointed w X)) (Hg _) w m X HX). }
  assert (Hr0 : rooted w0 fuel m = true).
  { rewrite <- Hr. apply rooted_view, Hv0. reflexivity. }
  destruct (TestCollision_total fuel w0 m X0 (pose_delta w X) HX0 Hr0) as (hit & w1 & Htc).
  assert (Hv1 : forall T (g : StgModel -> T),
             (forall v Y, g (set_global_pose v Y) = g Y) ->
             (forall v Y, g (set_gpose_dirty v Y) = g Y) ->
             view g w1 = view g w0).
  { intros T g Hg1 Hg2.
    eapply (TestCollision_keeps world_Raytrace (view g)); [| | |exact Htc].
    - intros v. apply view_blind. intros Y. apply Hg1.
    - intros v. apply view_blind. intros Y. apply Hg2.
    - apply view_bitmap_blind. }
  assert (Hall1 : view (fun Y => (parent Y, children Y, pose Y, trail Y)) w1
                  = view (fun Y => (parent Y, children Y, pose Y, trail Y)) w0)
    by (apply Hv1; reflexivity).
  destruct (view_lookup _ w0 w1 m X0 Hall1 HX0) as (X1 & HX1 & Hf1).
  injection Hf1 as Hpar1 Hch1 Hpose1 Htrail1.
  (* the stall flag *)
  assert (Hstall : forall b,
             SetStall m b w1
             = Ok (tt, set_events (events w1 ++ [EvCallback m K_stall])
                         (set_models (<[m := set_stall b X1]> (models w1)) w1))).
  { intros b. unfold SetStall. mrun (modify_model_run _ (set_stall b) _ _ HX1).
    reflexivity. }
  set (w2 := fun b => set_events (events w1 ++ [EvCallback m K_stall])
                        (set_models (<[m := set_stall b X1]> (models w1)) w1)) in *.
  assert (HX2 : forall b, models (w2 b) !! m = Some (set_stall b X1))
    by (intros b; eapply lookup_modified_eq; eauto).
  exists hit, w1.
  assert (Hhead : UpdatePose world_Raytrace fuel m w
                  = (match hit with
                     | Some _ => SetStall m true
                     | None =>
                         SetStall m false ;;
                         Mm <- get_model m ;;
                         SetPose fuel m (stg_pose_sum (pose Mm) (pose_delta w X))
                     end) w1).
  { unfold UpdatePose. mrun (get_model_run _ _ _ HX). rewrite Hdis.
    rewrite (bind_run get_world _ w w w eq_refl).
    mrun (trail_part_run w m X HX). cbv zeta.
    fold (pose_delta w X). fold w0. mrun Htc. reflexivity. }
  destruct hit as [h|].
  - exists (w2 true). split; [exact Htc|]. split; [rewrite Hhead; apply Hstall|].
    unfold field. rewrite HX2. cbn [fmap option_fmap option_map trail pose stall set_stall].
    rewrite Htrail1, Hpose1. auto.
  - assert (Hok2 : tree_ok (w2 false) fuel m = true).
    { rewrite <- Hok. apply tree_shape_view.
      transitivity (view children w1);
        [exact (view_blind children (set_stall false) (fun _ => eq_refl) w1 m X1 HX1)|].
      rewrite Hv1, Hv0; reflexivity. }
    assert (Hr2 : rooted (w2 false) fuel m = true).
    { rewrite <- Hr. apply rooted_view.
      transitivity (view parent w1);
        [exact (view_blind parent (set_stall false) (fun _ => eq_refl) w1 m X1 HX1)|].
      rewrite Hv1, Hv0; reflexivity. }
    assert (Hsr2 : subtree_rooted (w2 false) fuel m = true).
    { rewrite <- Hsr. apply subtree_rooted_view.
      - transitivity (view parent w1);
          [exact (view_blind parent (set_stall false) (fun _ => eq_refl) w1 m X1 HX1)|].
        rewrite Hv1, Hv0; reflexivity.
      - transitivity (view children w1);
          [exact (view_blind children (set_stall false) (fun _ => eq_refl) w1 m X1 HX1)|].
        rewrite Hv1, Hv0; reflexivity. }
    set (newpose := stg_pose_sum (pose X) (pose_delta w X)).
    assert (Hnew : stg_pose_sum (pose (set_stall false X1)) (pose_delta w X) = newpose).
    { cbn [pose set_stall]. now rewrite Hpose1. }
    pose proof (SetPose_same fuel (w2 false) m _ (HX2 false)) as Hsame.
    pose proof (SetPose_moved fuel (w2 false) m _ newpose (HX2 false) Hok2 Hr2 Hsr2)
      as Hdiff.
    assert (Hrun : exists w',
               SetPose fuel m newpose (w2 false) = Ok (tt, w')
               /\ field pose m w' = Some (pose_after_SetPose (pose X) newpose)).
    { unfold pose_after_SetPose.
      destruct (pose_eq_dec (pose X) newpose) as [Heq|Hne].
      - eexists. split.
        + rewrite <- Heq, <- Hpose1. exact Hsame.
        + change (pose <$> models (w2 false) !! m = Some (pose X)).
          rewrite HX2. cbn [fmap option_fmap option_map pose set_stall].
          now rewrite Hpose1.
      - destruct Hdiff as (wa & wb & w3 & _ & _ & _ & _ & _ & _ & _ & _ & Hp3 & _ & _ & Hsp).
        { cbn [pose set_stall]. congruence. }
        eexists. split; [exact Hsp|]. exact Hp3. }
    destruct Hrun as (w' & Hsp & Hp').
    exists w'. split; [exact Htc|]. split; [|split; [|split]].
    + rewrite Hhead. mrun (Hstall false). mrun (get_model_run _ _ _ (HX2 false)).
      rewrite Hnew. exact Hsp.
    + rewrite (SetPose_keeps (field trail m) fuel m newpose
                 ltac:(intros; blind_tac) ltac:(intros; blind_tac)
                 ltac:(intros; blind_tac) ltac:(intros; blind_tac)
                 ltac:(blind_tac) ltac:(blind_tac)
                 _ _ _ Hsp).
      unfold field. rewrite HX2. cbn [fmap option_fmap option_map trail set_stall].
      now rewrite Htrail1.
    + rewrite (SetPose_keeps (field stall m) fuel m newpose
                 ltac:(intros; blind_tac) ltac:(intros; blind_tac)
                 ltac:(intros; blind_tac) ltac:(intros; blind_tac)
                 ltac:(blind_tac) ltac:(blind_tac)
                 _ _ _ Hsp).
      unfold field. rewrite HX2. reflexivity.
    + exact Hp'.
Qed.

End UpdatePoseFacts.

Lemma pose_after_SetPose_xyz old p :
  pose_x (pose_after_SetPose old p) = pose_x p
  /\ pose_y (pose_after_SetPose old p) = pose_y p
  /\ pose_z (pose_after_SetPose old p) = pose_z p
  /\ (pose_a (pose_after_SetPose old p) = pose_a p
      \/ (old <> p /\ pose_a (pose_after_SetPose old p) = normalize (normalize (pose_a p))
          /\ - PI < pose_a (pose_after_SetPose old p) <= PI))%R.
Proof.
  unfold pose_after_SetPose.
  destruct (pose_eq_dec old p) as [->|Hne]; [auto|].
  repeat split; try reflexivity. right. split; [exact Hne|].
  split; [reflexivity|apply normalize_range].
Qed.

(** ** [UpdatePose], the outcome *)

Lemma pose_after_SetPose_same old p :
  p = old -> pose_after_SetPose old p = old.
Proof.
  intros ->. unfold pose_after_SetPose. now destruct (pose_eq_dec old old).
Qed.

Lemma pose_after_SetPose_moved old p :
  p <> old ->
  pose_after_SetPose old p = with_a (normalize (pose_a p)) p.
Proof.
  intros Hne. unfold pose_after_SetPose.
  destruct (pose_eq_dec old p) as [E|_]; [congruence|apply stored_pose_normalize].
Qed.

Lemma UpdatePose_outcome world_Raytrace fuel w m X :
  models w !! m = Some X ->
  disabled X = false ->
  tree_ok w fuel m = true ->
  rooted w fuel m = true ->
  subtree_rooted w fuel m = true ->
  exists hit w1 w',
    TestCollision world_Raytrace fuel m (pose_delta w X) (trail_checked w m X)
    = Ok (hit, w1)
    /\ UpdatePose world_Raytrace fuel m w = Ok (tt, w')
    /\ match hit with
       | Some _ =>
           field stall m w' = Some true /\ field pose m w' = Some (pose X)
       | None =>
           let s := pose_sum (pose X) (pose_delta w X) in
           field stall m w' = Some false
           /\ (s = pose X -> field pose m w' = Some (pose X))
           /\ (s <> pose X ->
               field pose m w' = Some (with_a (normalize (pose_a s)) s)
               /\ (- PI < normalize (pose_a s) <= PI)%R)
       end.
Proof.
  intros HX Hdis Hok Hr Hsr.
  destruct (UpdatePose_run world_Raytrace fuel w m X HX Hdis Hok Hr Hsr)
    as (hit & w1 & w' & Htc & Hrun & _ & Hres).
  exists hit, w1, w'. split; [exact Htc|]. split; [exact Hrun|].
  destruct hit as [h|]; [exact Hres|].
  destruct Hres as [Hst Hp]. cbv zeta. split; [exact Hst|]. split.
  - intros E. now rewrite Hp, pose_after_SetPose_same.
  - intros Hne. split; [|apply normalize_range].
    now rewrite Hp, pose_after_SetPose_moved.
Qed.

Lemma clear_samples wv gp X m delta :
  last_hit (edge_samples clear_Raytrace wv gp X m delta) = None.
Proof.
  destruct (last_hit _) eqn:H; [|reflexivity].
  assert (Hn : last_hit (edge_samples clear_Raytrace wv gp X m delta) <> None)
    by congruence.
  unfold last_hit in Hn. apply fold_hit_Some in Hn as [[]|(blk & Hin)]; [reflexivity|].
  unfold edge_samples in Hin. apply in_flat_map in Hin as (b & _ & Hin).
  apply in_map_iff in Hin as (p & Hp & _). discriminate.
Qed.

Lemma TestCollision_clear fuel w m X delta hit w1 :
  models w !! m = Some X -> rooted w fuel m = true ->
  TestCollision clear_Raytrace fuel m delta w = Ok (hit, w1) -> hit = None.
Proof.
  intros HX Hr Htc.
  destruct (TestCollision_run clear_Raytrace fuel w m X delta HX Hr) as (_ & H1 & H2).
  destruct (blocks X) as [|b bs].
  - rewrite H1 in Htc by reflexivity. congruence.
  - destruct H2 as (gp & wa & w' & _ & _ & _ & Hrun & _); [discriminate|].
    rewrite Hrun, clear_samples in Htc. congruence.
Qed.

Lemma conforming_clear tol : conforming tol clear_Raytrace.
Proof. intros wv origin range func finder ztest b H. discriminate. Qed.
(** ** Scenario S2 under a raytracer that keeps to the specification *)

Lemma S2_vertex wv A0 pt :
  models wv = [A0; blank_cache S2_B] ->
  global_vertex wv 1 pt = Some (mk_point (2 + pt_x pt) (pt_y pt)).
Proof.
  intros Hms. unfold global_vertex. rewrite Hms. cbn [length lookup list_lookup].
  cbn [global_pose_of]. rewrite Hms. cbn [lookup list_lookup].
  cbn [parent blank_cache S2_B set_pose set_geom new_model set_gpose_dirty set_global_pose
       pose geom geom_pose unit_cube].
  unfold pose_sum, new_pose, pose_zero. cbn [pose_x pose_y pose_z pose_a new_pose].
  rewrite !Rplus_0_r, cos_0, sin_0. f_equal. f_equal; lra.
Qed.

Lemma S2_outline_x wv A0 q :
  models wv = [A0; blank_cache S2_B] ->
  on_outline wv (1, 0) q -> (3 / 2 <= pt_x q <= 5 / 2)%R.
Proof.
  intros Hms (Y & blk & i & v1 & v2 & t & HY & Hblk & Hi & Hv1 & Hv2 & Ht & ->).
  cbn [Model fst snd] in *. rewrite Hms in HY. injection HY as <-.
  injection Hblk as <-.
  rewrite (S2_vertex wv A0 _ Hms) in Hv1. rewrite (S2_vertex wv A0 _ Hms) in Hv2.
  injection Hv1 as <-. injection Hv2 as <-. cbn [pt_x].
  cbn [blk_pts AddBlockRect length] in *.
  destruct i as [|[|[|[|i]]]]; [| | | |lia];
    cbn [nth Nat.add Nat.modulo Nat.divmod fst snd Nat.sub pt_x]; nra.
Qed.

Lemma square_ray_x delta p s :
  pose_a delta = 0%R -> p < 4 ->
  (0 <= s <= edge_range (blk_pts (AddBlockRect (-0.5) (-0.5) 1 1)) p)%R ->
  let origin := pose_sum (pose_sum pose_zero pose_zero)
                  (pose_sum delta (edge_pose (blk_pts (AddBlockRect (-0.5) (-0.5) 1 1)) p)) in
  (pose_x delta - 1 / 2 <= pt_x (ray_point origin s) <= pose_x delta + 1 / 2)%R.
Proof.
  intros Ha Hp Hs. cbv zeta. rewrite !pose_sum_zero_l.
  unfold ray_point, pose_sum, edge_pose, edge_range in *.
  cbn [pt_x pose_x pose_y pose_a] in *. rewrite Ha, cos_0, sin_0, Rplus_0_l.
  set (pts := blk_pts (AddBlockRect (-0.5) (-0.5) 1 1)) in *.
  set (pt1 := nth p pts point_zero) in *.
  set (pt2 := nth ((p + 1) mod length pts) pts point_zero) in *.
  destruct (ray_on_edge (pt_x pt2 - pt_x pt1) (pt_y pt2 - pt_y pt1) s Hs)
    as (t & Ht & Hc & _).
  rewrite Hc.
  assert (Hb : (- (1 / 2) <= pt_x pt1 <= 1 / 2 /\ - (1 / 2) <= pt_x pt2 <= 1 / 2)%R).
  { unfold pt1, pt2, pts. cbn [blk_pts AddBlockRect length].
    destruct p as [|[|[|[|p]]]]; [| | | |lia];
      cbn [nth Nat.add Nat.modulo Nat.divmod fst snd Nat.sub pt_x]; lra. }
  nra.
Qed.

Lemma S2_world_models v : models (S2_world v) = [S2_A v; S2_B].
Proof. reflexivity. Qed.

Lemma S2_delta v :
  pose_delta (S2_world v) (S2_A v) = mk_pose (v * (IZR 1000000 / 1000000)) (0 * (IZR 1000000 / 1000000)) 0 (0 * (IZR 1000000 / 1000000)).
Proof. reflexivity. Qed.

Lemma S2_no_hit world_Raytrace tol v hit w1 :
  conforming tol world_Raytrace ->
  (v + 1 / 2 + tol < 3 / 2 \/ 5 / 2 + tol < v - 1 / 2)%R ->
  TestCollision world_Raytrace 1 0 (pose_delta (S2_world v) (S2_A v))
    (trail_checked (S2_world v) 0 (S2_A v)) = Ok (hit, w1) ->
  hit = None.
Proof.
  intros Hconf Hgap Htc.
  set (w0 := trail_checked (S2_world v) 0 (S2_A v)) in *.
  set (A0 := set_trail (checkpointed (S2_world v) (S2_A v)) (S2_A v)).
  set (delta := pose_delta (S2_world v) (S2_A v)) in *.
  destruct (TestCollision_run world_Raytrace 1 w0 0 A0 delta eq_refl eq_refl)
    as (_ & _ & H).
  destruct H as (gp & wa & wb & Hg & Hun & Hbm & Hrun & Hiff & _); [discriminate|].
  rewrite Hrun in Htc. injection Htc as <- _.
  assert (Hor : last_hit (edge_samples world_Raytrace (raster_view wa) gp A0 0 delta) = None
                \/ last_hit (edge_samples world_Raytrace (raster_view wa) gp A0 0 delta)
                   <> None)
    by (destruct (last_hit _); [right; discriminate|now left]).
  destruct Hor as [E|Hsome]; [exact E|exfalso].
  apply Hiff in Hsome as (blk & Hin).
  assert (Hms : models wa = models w0)
    by exact (UnMap_keeps models 0 models_bitmap_blind _ _ _ Hun).
  injection Hg as <-.
  unfold edge_samples in Hin. apply in_flat_map in Hin as (b & Hb & Hin).
  destruct Hb as [<-|[]].
  apply in_map_iff in Hin as (p & Hs & Hp%in_seq).
  unfold edge_sample in Hs.
  apply Hconf in Hs as (Hmapped & Hother & _ & s & q & Hrange & Hout & Hx & _).
  (* the block is that of B *)
  assert (blk = (1, 0)) as ->.
  { change (bitmap (raster_view wa)) with (bitmap wa) in Hmapped.
    apply Hbm in Hmapped as [Hm _]. destruct blk as [d i]. cbn [Model fst] in Hother.
    simpl in Hm. destruct Hm as [[= <- <-]|[[= <- <-]|[]]]; [contradiction|reflexivity]. }
  (* its outline lies between x = 1.5 and x = 2.5 *)
  assert (Hq : (3 / 2 <= pt_x q <= 5 / 2)%R).
  { apply (S2_outline_x (raster_view wa) (blank_cache A0)); [|exact Hout].
    unfold raster_view. cbn [models set_models]. rewrite Hms. reflexivity. }
  (* the ray stays within half a metre of x = v *)
  assert (Hray : (v - 1 / 2 <= pt_x (ray_point
                    (pose_sum (pose_sum (pose A0) (geom_pose (geom A0)))
                       (pose_sum delta
                          (edge_pose (blk_pts (AddBlockRect (-0.5) (-0.5) 1 1)) p))) s)
                  <= v + 1 / 2)%R).
  { assert (Hdx : pose_x delta = v)
      by (unfold delta; rewrite S2_delta; cbn [pose_x]; lra).
    assert (Hda : pose_a delta = 0%R)
      by (unfold delta; rewrite S2_delta; cbn [pose_a]; lra).
    pose proof (square_ray_x delta p s Hda) as H. cbv zeta in H. rewrite Hdx in H.
    apply H; [cbn [blk_pts AddBlockRect length] in Hp; lia|exact Hrange]. }
  change (pose A0) with pose_zero in Hray.
  apply Rabs_within in Hx. destruct Hgap; lra.
Qed.

Lemma S2_moves world_Raytrace tol v :
  conforming tol world_Raytrace ->
  (v + 1 / 2 + tol < 3 / 2 \/ 5 / 2 + tol < v - 1 / 2)%R ->
  exists w',
    UpdatePose world_Raytrace 1 0 (S2_world v) = Ok (tt, w')
    /\ field stall 0 w' = Some false
    /\ exists q, field pose 0 w' = Some q /\ pose_x q = v.
Proof.
  intros Hconf Hgap.
  destruct (UpdatePose_run world_Raytrace 1 (S2_world v) 0 (S2_A v)
              eq_refl eq_refl eq_refl eq_refl eq_refl)
    as (hit & w1 & w' & Htc & Hrun & _ & Hres).
  assert (hit = None) as -> by exact (S2_no_hit _ _ _ _ _ Hconf Hgap Htc).
  destruct Hres as [Hst Hp].
  exists w'. split; [exact Hrun|]. split; [exact Hst|].
  eexists. split; [exact Hp|].
  destruct (pose_after_SetPose_xyz (pose (S2_A v))
              (pose_sum (pose (S2_A v)) (pose_delta (S2_world v) (S2_A v))))
    as (-> & _).
  rewrite S2_delta. unfold pose_sum. cbn [pose_x pose_y pose_a pose S2_A moving
    set_on_velocity_list set_velocity set_geom new_model pose_zero new_pose].
  rewrite cos_0, sin_0. lra.
Qed.

Lemma global_vertex_any wv d pt v pt' :
  global_vertex wv d pt = Some v -> exists v', global_vertex wv d pt' = Some v'.
Proof.
  unfold global_vertex. destruct (models wv !! d); [|discriminate].
  destruct (global_pose_of wv (length (models wv)) d); [|discriminate]. eauto.
Qed.

Lemma conforming_corner tol : (0 <= tol)%R -> conforming tol corner_Raytrace.
Proof.
  intros Htol wv origin range func finder ztest b. unfold corner_Raytrace.
  destruct (models wv !! 1) as [Y|] eqn:HY; [|discriminate].
  destruct (blocks Y !! 0) as [blk|] eqn:Hblk; [|discriminate].
  destruct (blk_pts blk) as [|pt pts] eqn:Hpts; [discriminate|].
  destruct (global_vertex wv 1 pt) as [v|] eqn:Hv; [|discriminate].
  destruct (existsb _ _ && _ && _) eqn:Hcond; [|discriminate].
  destruct (Req_dec_T (pose_x origin) (pt_x v)) as [Ex|]; [|discriminate].
  destruct (Req_dec_T (pose_y origin) (pt_y v)) as [Ey|]; [|discriminate].
  destruct (Rle_dec 0 range) as [Hr|]; [|discriminate].
  intros [= <-].
  apply andb_true_iff in Hcond as [Hcond Hfunc].
  apply andb_true_iff in Hcond as [Hin Hne].
  apply existsb_exists in Hin as (e & He & <-%block_ref_eqb_eq).
  apply negb_true_iff, Nat.eqb_neq in Hne.
  split; [exact He|]. split; [exact Hne|]. split; [exact Hfunc|].
  destruct (global_vertex_any wv 1 pt v
              (nth ((0 + 1) mod length (blk_pts blk)) (blk_pts blk) point_zero) Hv)
    as [v2 Hv2].
  exists 0%R, v. split; [lra|]. split.
  - exists Y, blk, 0, v, v2, 0%R. cbn [Model fst snd].
    split; [exact HY|]. split; [exact Hblk|]. split; [rewrite Hpts; simpl; lia|].
    split; [now rewrite Hpts|]. split; [exact Hv2|]. split; [lra|].
    destruct v as [vx vy]. cbn [pt_x pt_y]. f_equal; lra.
  - unfold ray_point. cbn [pt_x pt_y]. rewrite Ex, Ey.
    split; [replace (_ - _)%R with 0%R by lra|replace (_ - _)%R with 0%R by lra];
      rewrite Rabs_R0; exact Htol.
Qed.

Lemma S2_corner_sample wa :
  models wa = models (trail_checked (S2_world 1) 0 (S2_A 1)) ->
  In (1, 0) (bitmap wa) ->
  edge_sample corner_Raytrace (raster_view wa) pose_zero
    (set_trail (checkpointed (S2_world 1) (S2_A 1)) (S2_A 1)) 0
    (pose_delta (S2_world 1) (S2_A 1)) (blk_pts (AddBlockRect (-0.5) (-0.5) 1 1)) 1
  = Some (1, 0).
Proof.
  intros Hms Hbm. unfold edge_sample, corner_Raytrace.
  assert (Hmv : models (raster_view wa)
                = [blank_cache (set_trail (checkpointed (S2_world 1) (S2_A 1)) (S2_A 1));
                   blank_cache S2_B]).
  { unfold raster_view. cbn [models set_models]. rewrite Hms. reflexivity. }
  rewrite Hmv.
  cbn [lookup list_lookup blocks blank_cache S2_B set_pose set_geom new_model
       set_gpose_dirty set_global_pose blk_pts AddBlockRect].
  rewrite (S2_vertex _ _ _ Hmv).
  assert (Hex : existsb (block_ref_eqb (1, 0)) (bitmap (raster_view wa)) = true).
  { apply existsb_exists. exists (1, 0). split; [exact Hbm|reflexivity]. }
  assert (Hcm : collision_match (raster_view wa) (1, 0) 0 = true).
  { unfold collision_match, ObstacleReturn. cbn [Model fst]. rewrite Hmv. reflexivity. }
  rewrite Hex, Hcm. cbn [Nat.eqb negb andb].
  rewrite S2_delta, !pose_sum_zero_l.
  unfold pose_sum, edge_pose, edge_range.
  cbn [pose_x pose_y pose_a pt_x pt_y nth length Nat.add Nat.modulo Nat.divmod fst snd Nat.sub].
  replace (0 * (IZR 1000000 / 1000000))%R with 0%R by lra.
  rewrite cos_0, sin_0.
  destruct (Req_dec_T _ _) as [_|Hne]; [|exfalso; apply Hne; lra].
  destruct (Req_dec_T _ _) as [_|Hne]; [|exfalso; apply Hne; lra].
  destruct (Rle_dec _ _) as [_|Hn]; [reflexivity|].
  exfalso. apply Hn. apply hypot_nonneg.
Qed.

Lemma S2_corner_hit hit w1 :
  TestCollision corner_Raytrace 1 0 (pose_delta (S2_world 1) (S2_A 1))
    (trail_checked (S2_world 1) 0 (S2_A 1)) = Ok (hit, w1) ->
  hit <> None.
Proof.
  intros Htc.
  set (w0 := trail_checked (S2_world 1) 0 (S2_A 1)) in *.
  set (A0 := set_trail (checkpointed (S2_world 1) (S2_A 1)) (S2_A 1)).
  destruct (TestCollision_run corner_Raytrace 1 w0 0 A0 (pose_delta (S2_world 1) (S2_A 1))
              eq_refl eq_refl) as (_ & _ & H).
  destruct H as (gp & wa & wb & Hg & Hun & Hbm & Hrun' & Hiff & _); [discriminate|].
  injection Hg as <-.
  assert (Hms : models wa = models w0)
    by exact (UnMap_keeps models 0 models_bitmap_blind _ _ _ Hun).
  rewrite Hrun' in Htc. injection Htc as <- _.
  apply Hiff. exists (1, 0). unfold edge_samples. apply in_flat_map.
  exists (AddBlockRect (-0.5) (-0.5) 1 1). split; [now left|].
  apply in_map_iff. exists 1. split; [|apply in_seq; simpl; lia].
  apply (S2_corner_sample wa Hms). apply Hbm. split; [simpl; auto|].
  simpl. intros [[=]|[]].
Qed.

(** ** The claim about [UpdatePose], as the code has it *)

(** A model whose velocity is 1 m/s along z does not rise.  With a tick
    of 1 s the pose composed with velocity * interval has z = 1, while
    [UpdatePose] leaves z = 0 (and reports no stall). *)
Lemma UpdatePose_ignores_velocity_z :
  exists w',
    UpdatePose clear_Raytrace 1 0 climb_world = Ok (tt, w')
    /\ field stall 0 w' = Some false
    /\ (exists q, field pose 0 w' = Some q /\ pose_z q = 0%R)
    /\ pose_z (pose_sum pose_zero
                 (claimed_delta climb_world (moving (new_pose 0 0 1 0) (new_model None))))
       = 1%R.
Proof.
  destruct (UpdatePose_run clear_Raytrace 1 climb_world 0 _ eq_refl eq_refl eq_refl
              eq_refl eq_refl) as (hit & w1 & w' & Htc & Hrun & _ & Hres).
  assert (hit = None) as ->
    by (eapply TestCollision_clear; [| |exact Htc]; reflexivity).
  destruct Hres as [Hst Hp].
  exists w'. split; [exact Hrun|]. split; [exact Hst|]. split.
  - eexists. split; [exact Hp|].
    destruct (pose_after_SetPose_xyz
                (pose (moving (new_pose 0 0 1 0) (new_model None)))
                (pose_sum (pose (moving (new_pose 0 0 1 0) (new_model None)))
                   (pose_delta climb_world (moving (new_pose 0 0 1 0) (new_model None)))))
      as (_ & _ & -> & _).
    simpl. lra.
  - unfold pose_sum, claimed_delta. simpl. lra.
Qed.

(** A model at heading 3 rad that turns at 2 rad/s does not end at
    heading 5, the heading of the old pose composed with
    velocity * interval: the heading stored is at most pi, hence at most
    4. *)
Lemma UpdatePose_normalizes_heading :
  exists w' q,
    UpdatePose clear_Raytrace 1 0 spin_world = Ok (tt, w')
    /\ field pose 0 w' = Some q
    /\ (pose_a q <= 4)%R
    /\ pose_a (pose_sum (new_pose 0 0 0 3)
                 (claimed_delta spin_world
                    (moving (new_pose 0 0 0 2)
                       (set_pose (new_pose 0 0 0 3) (new_model None)))))
       = 5%R.
Proof.
  set (X := moving (new_pose 0 0 0 2) (set_pose (new_pose 0 0 0 3) (new_model None))).
  destruct (UpdatePose_outcome clear_Raytrace 1 spin_world 0 X eq_refl eq_refl eq_refl
              eq_refl eq_refl) as (hit & w1 & w' & Htc & Hrun & Hres).
  assert (hit = None) as ->
    by (eapply TestCollision_clear; [| |exact Htc]; reflexivity).
  cbv zeta in Hres. destruct Hres as (_ & _ & Hmoved).
  destruct Hmoved as [Hp Hrange].
  { intros E. apply (f_equal pose_a) in E. unfold pose_sum, pose_delta in E.
    simpl in E. lra. }
  eexists w', _. split; [exact Hrun|]. split; [exact Hp|]. split.
  - cbn [pose_a with_a]. pose proof PI_4. lra.
  - unfold pose_sum, claimed_delta. simpl. lra.
Qed.

(** In scenario S2 at 10 m/s the edge rays are cast around x = 10, far
    past the obstacle at x = 2: no raytracer that keeps to the
    specification reports a block, and A moves to x = 10 without stall. *)
Lemma S2_tunnels world_Raytrace tol :
  conforming tol world_Raytrace -> (tol < 1 / 2)%R ->
  exists w',
    UpdatePose world_Raytrace 1 0 (S2_world 10) = Ok (tt, w')
    /\ field stall 0 w' = Some false
    /\ exists q, field pose 0 w' = Some q /\ pose_x q = 10%R.
Proof. intros Hconf Htol. apply (S2_moves world_Raytrace tol 10 Hconf). lra. Qed.

Lemma S2_slow world_Raytrace tol :
  conforming tol world_Raytrace -> (tol < 1 / 2)%R ->
  exists w',
    UpdatePose world_Raytrace 1 0 (S2_world 0.5) = Ok (tt, w')
    /\ field stall 0 w' = Some false
    /\ exists q, field pose 0 w' = Some q /\ pose_x q = 0.5%R.
Proof. intros Hconf Htol. apply (S2_moves world_Raytrace tol 0.5 Hconf). lra. Qed.

(** The claim as stated fails in three places: the pose change has
    z = 0 whatever the velocity's z; the heading of the new pose is
    normalised, so it is not that of [pose_sum] when the sum leaves
    (-pi, pi]; and at 10 m/s in scenario S2 the model is not stalled but
    ends at x = 10, for every raytracer that keeps to the
    specification. *)
Lemma UpdatePose_not_as_claimed :
  (exists w',
     UpdatePose clear_Raytrace 1 0 climb_world = Ok (tt, w')
     /\ field stall 0 w' = Some false
     /\ (exists q, field pose 0 w' = Some q /\ pose_z q = 0%R)
     /\ pose_z (pose_sum pose_zero
                  (claimed_delta climb_world (moving (new_pose 0 0 1 0) (new_model None))))
        = 1%R)
  /\
  (exists w' q,
     UpdatePose clear_Raytrace 1 0 spin_world = Ok (tt, w')
     /\ field pose 0 w' = Some q
     /\ (pose_a q <= 4)%R
     /\ pose_a (pose_sum (new_pose 0 0 0 3)
                  (claimed_delta spin_world
                     (moving (new_pose 0 0 0 2)
                        (set_pose (new_pose 0 0 0 3) (new_model None)))))
        = 5%R)
  /\
  (forall world_Raytrace tol,
     conforming tol world_Raytrace -> (tol < 1 / 2)%R ->
     exists w',
       UpdatePose world_Raytrace 1 0 (S2_world 10) = Ok (tt, w')
       /\ field stall 0 w' = Some false
       /\ exists q, field pose 0 w' = Some q /\ pose_x q = 10%R).
Proof.
  split; [exact UpdatePose_ignores_velocity_z|].
  split; [exact UpdatePose_normalizes_heading|exact S2_tunnels].
Qed.

(** C1, as the code has it.  For an enabled model, one call of
    [UpdatePose] computes the pose change p from the velocity and the
    tick length in seconds in x, y and heading, with p.z = 0 whatever
    the velocity's z, and tests it for collision.  If [TestCollision(p)]
    reports a hit, the stall flag is set and the pose is unchanged; if
    not, the stall flag is cleared and the pose becomes the old pose
    composed with p, with its heading normalised into (-pi, pi] when the
    composed pose differs from the old one (and unchanged when it does
    not).  In scenario S2, for every raytracer that keeps to the
    specification within less than half a metre: at 0.5 m/s A moves to
    x = 0.5 without stall, and at 10 m/s, the edge rays being cast
    around x = 10 past the obstacle, A moves to x = 10 without stall. *)
Theorem UpdatePose_spec :
  (forall world_Raytrace fuel w m X,
     models w !! m = Some X ->
     disabled X = false ->
     tree_ok w fuel m = true ->
     rooted w fuel m = true ->
     subtree_rooted w fuel m = true ->
     let dt := (IZR (interval_sim w) / 1000000)%R in
     let p := pose_delta w X in
     p = mk_pose (pose_x (velocity X) * dt) (pose_y (velocity X) * dt) 0
                 (pose_a (velocity X) * dt)
     /\ exists hit w1 w',
          TestCollision world_Raytrace fuel m p (trail_checked w m X) = Ok (hit, w1)
          /\ UpdatePose world_Raytrace fuel m w = Ok (tt, w')
          /\ match hit with
             | Some _ =>
                 field stall m w' = Some true /\ field pose m w' = Some (pose X)
             | None =>
                 let s := pose_sum (pose X) p in
                 field stall m w' = Some false
                 /\ (s = pose X -> field pose m w' = Some (pose X))
                 /\ (s <> pose X ->
                     field pose m w' = Some (with_a (normalize (pose_a s)) s)
                     /\ (- PI < normalize (pose_a s) <= PI)%R)
             end)
  /\
  (forall world_Raytrace tol,
     conforming tol world_Raytrace -> (tol < 1 / 2)%R ->
     (exists w',
        UpdatePose world_Raytrace 1 0 (S2_world 0.5) = Ok (tt, w')
        /\ field stall 0 w' = Some false
        /\ exists q, field pose 0 w' = Some q /\ pose_x q = 0.5%R)
     /\
     (exists w',
        UpdatePose world_Raytrace 1 0 (S2_world 10) = Ok (tt, w')
        /\ field stall 0 w' = Some false
        /\ exists q, field pose 0 w' = Some q /\ pose_x q = 10%R)).
Proof.
  split.
  - intros world_Raytrace fuel w m X HX Hdis Hok Hr Hsr. cbv zeta.
    split; [reflexivity|].
    exact (UpdatePose_outcome world_Raytrace fuel w m X HX Hdis Hok Hr Hsr).
  - intros world_Raytrace tol Hconf Htol. split.
    + exact (S2_slow world_Raytrace tol Hconf Htol).
    + exact (S2_tunnels world_Raytrace tol Hconf Htol).
Qed.

(** Scenario S2 through the theorem, with a raytracer that conforms and
    reports the obstacle when a ray starts on its corner.  At 1 m/s a
    corner of A's outline lands on a corner of B's: A is stalled and
    stays at x = 0.  At 0.5 m/s A moves to x = 0.5 and at 10 m/s to
    x = 10, not stalled. *)
Lemma UpdatePose_spec_S2 :
  (exists w',
     UpdatePose corner_Raytrace 1 0 (S2_world 1) = Ok (tt, w')
     /\ field stall 0 w' = Some true
     /\ field pose 0 w' = Some pose_zero)
  /\ (exists w',
        UpdatePose corner_Raytrace 1 0 (S2_world 0.5) = Ok (tt, w')
        /\ field stall 0 w' = Some false
        /\ exists q, field pose 0 w' = Some q /\ pose_x q = 0.5%R)
  /\ (exists w',
        UpdatePose corner_Raytrace 1 0 (S2_world 10) = Ok (tt, w')
        /\ field stall 0 w' = Some false
        /\ exists q, field pose 0 w' = Some q /\ pose_x q = 10%R).
Proof.
  split.
  - destruct (proj1 UpdatePose_spec corner_Raytrace 1 (S2_world 1) 0 (S2_A 1)
                eq_refl eq_refl eq_refl eq_refl eq_refl)
      as (_ & hit & w1 & w' & Htc & Hrun & Hres).
    pose proof (S2_corner_hit hit w1 Htc) as Hhit.
    destruct hit as [h|]; [|contradiction].
    destruct Hres as [Hst Hp]. exists w'. auto.
  - apply (proj2 UpdatePose_spec corner_Raytrace (1 / 4)%R).
    + apply conforming_corner. lra.
    + lra.
Defined.

(** ** The trail *)

Lemma checkpointed_length w X :
  length (checkpointed w X) = trail_len_step (updates w) (length (trail X)).
Proof.
  unfold checkpointed, trail_len_step.
  destruct (updates w mod 10 =? 0)%Z; [|reflexivity].
  rewrite length_app. cbn [length].
  destruct (100 <? length (trail X)); [|reflexivity].
  now rewrite length_drop.
Qed.

Lemma trail_len_step_bound u len : len <= 101 -> trail_len_step u len <= 101.
Proof.
  intros H. unfold trail_len_step.
  destruct (u mod 10 =? 0)%Z; [|exact H].
  destruct (Nat.ltb_spec 100 len); lia.
Qed.

Lemma trail_len_step_overshoots u :
  (u mod 10 = 0)%Z -> trail_len_step u 100 = 101.
Proof.
  intros H. unfold trail_len_step. apply Z.eqb_eq in H. rewrite H. reflexivity.
Qed.

Section Ticks.

Variable world_Raytrace :
  StgWorld -> stg_pose_t -> R -> (block_ref -> model_id -> bool) ->
  model_id -> bool -> option block_ref.

Lemma solo_lookup w :
  solo w -> exists X, models w !! 0 = Some X /\ parent X = None /\ children X = []
                      /\ disabled X = false.
Proof.
  intros [_ Hv].
  assert (H : view (fun Y => (parent Y, children Y, disabled Y)) w !! 0
              = Some (None, [], false)) by (now rewrite Hv).
  unfold view in H. rewrite list_lookup_fmap in H.
  destruct (models w !! 0) as [X|]; [|discriminate].
  injection H as H1 H2 H3. eauto.
Qed.

Lemma Tick_solo w X :
  solo w -> models w !! 0 = Some X ->
  exists w' X',
    Tick world_Raytrace 1 w = Ok (tt, w')
    /\ solo w'
    /\ models w' !! 0 = Some X'
    /\ updates w' = (updates w + 1)%Z
    /\ length (trail X') = trail_len_step (updates w) (length (trail X)).
Proof.
  intros Hsolo HX.
  destruct (solo_lookup w Hsolo) as (X0 & HX0 & Hpar & Hch & Hdis).
  assert (X0 = X) as -> by congruence.
  destruct Hsolo as [Hvl Hshape].
  assert (Hok : tree_ok w 1 0 = true) by (cbn; rewrite HX, Hch; reflexivity).
  assert (Hr : rooted w 1 0 = true) by (cbn; rewrite HX, Hpar; reflexivity).
  assert (Hsr : subtree_rooted w 1 0 = true)
    by (unfold subtree_rooted; cbn; rewrite HX, Hpar, Hch; reflexivity).
  destruct (UpdatePose_run world_Raytrace 1 w 0 X HX Hdis Hok Hr Hsr)
    as (hit & w1 & w' & _ & Hrun & Htrail & _).
  assert (Hk : forall T (phi : StgWorld -> T),
             (forall v, model_blind phi (set_trail v)) ->
             (forall v, model_blind phi (set_global_pose v)) ->
             (forall v, model_blind phi (set_gpose_dirty v)) ->
             (forall v, model_blind phi (set_stall v)) ->
             (forall v, model_blind phi (set_pose v)) ->
             (forall v, model_blind phi (set_rebuild_displaylist v)) ->
             bitmap_blind phi -> events_blind phi -> phi w' = phi w).
  { intros T phi H1 H2 H3 H4 H5 H6 H7 H8.
    exact (UpdatePose_keeps world_Raytrace phi 1 0 H1 H2 H3 H4 H5 H6 H7 H8 _ _ _ Hrun). }
  assert (Hvl' : velocity_list w' = velocity_list w)
    by (apply Hk; intros; blind_tac).
  assert (Hup' : updates w' = updates w) by (apply Hk; intros; blind_tac).
  assert (Hshape' : view (fun Y => (parent Y, children Y, disabled Y)) w'
                    = view (fun Y => (parent Y, children Y, disabled Y)) w)
    by (apply Hk; intros; blind_tac).
  unfold field in Htrail.
  destruct (models w' !! 0) as [X'|] eqn:HX'; [|discriminate].
  injection Htrail as Htrail.
  eexists _, X'. split; [|split; [|split; [|split]]].
  - unfold Tick. rewrite (bind_run get_world _ w w w eq_refl).
    rewrite Hvl. cbn [for_each]. mrun Hrun.
    rewrite (bind_run (ret tt) _ w' tt w' eq_refl). reflexivity.
  - split; cbn [velocity_list set_updates set_sim_time]; [congruence|].
    unfold view in *. cbn [models set_updates set_sim_time]. congruence.
  - exact HX'.
  - cbn [updates set_updates]. now rewrite Hup'.
  - rewrite Htrail. apply checkpointed_length.
Qed.

Lemma run_ticks_solo n : forall w X,
  solo w -> models w !! 0 = Some X ->
  exists w' X',
    run_ticks world_Raytrace 1 n w = Ok (tt, w')
    /\ models w' !! 0 = Some X'
    /\ updates w' = (updates w + Z.of_nat n)%Z
    /\ length (trail X') = trail_len_after n (updates w) (length (trail X)).
Proof.
  induction n as [|n IH]; intros w X Hsolo HX.
  - exists w, X. cbn. rewrite Z.add_0_r. auto.
  - destruct (Tick_solo w X Hsolo HX) as (w1 & X1 & Hrun & Hsolo1 & HX1 & Hup & Hlen).
    destruct (IH w1 X1 Hsolo1 HX1) as (w' & X' & Hrest & HX' & Hup' & Hlen').
    exists w', X'. split; [|split; [|split]].
    + cbn [run_ticks]. mrun Hrun. exact Hrest.
    + exact HX'.
    + rewrite Hup', Hup. lia.
    + cbn [trail_len_after]. rewrite Hlen', Hup, Hlen. reflexivity.
Qed.

Lemma UpdatePose_trail fuel w m X w' :
  models w !! m = Some X ->
  disabled X = false -> tree_ok w fuel m = true -> rooted w fuel m = true ->
  subtree_rooted w fuel m = true ->
  UpdatePose world_Raytrace fuel m w = Ok (tt, w') ->
  exists X',
    models w' !! m = Some X'
    /\ ((updates w mod 10 <> 0)%Z -> trail X' = trail X)
    /\ (length (trail X) <= 101 -> length (trail X') <= 101)
    /\ ((updates w mod 10 = 0)%Z -> length (trail X) = 100 ->
        length (trail X') = 101).
Proof.
  intros HX Hdis Hok Hr Hsr Hrun.
  destruct (UpdatePose_run world_Raytrace fuel w m X HX Hdis Hok Hr Hsr)
    as (hit & w1 & w'' & _ & Hrun' & Htrail & _).
  assert (w'' = w') as -> by congruence.
  unfold field in Htrail.
  destruct (models w' !! m) as [X'|]; [|discriminate].
  injection Htrail as Htrail. exists X'. split; [reflexivity|].
  rewrite Htrail. split; [|split].
  - intros Hne. unfold checkpointed.
    apply Z.eqb_neq in Hne. now rewrite Hne.
  - rewrite checkpointed_length. apply trail_len_step_bound.
  - intros Hz Hlen. rewrite checkpointed_length, Hlen.
    now apply trail_len_step_overshoots.
Qed.

(** C6, evaluated on the code: whatever the raytracer reports, after the
    2000 ticks of scenario S6 (update counter 0 to 1999, a checkpoint on
    every tenth tick) the trail of the moving model holds 101 entries, one
    more than the bound of 100: the oldest entry is dropped only when the
    trail already holds more than 100. *)
Theorem trail_after_2000_ticks :
  exists w' X',
    run_ticks world_Raytrace 1 2000 S6_world = Ok (tt, w')
    /\ models w' !! 0 = Some X'
    /\ updates w' = 2000%Z
    /\ length (trail X') = 101.
Proof.
  destruct (run_ticks_solo 2000 S6_world _ ltac:(split; reflexivity) eq_refl)
    as (w' & X' & Hrun & HX' & Hup & Hlen).
  exists w', X'. split; [exact Hrun|]. split; [exact HX'|]. split; [exact Hup|].
  rewrite Hlen. vm_compute. reflexivity.
Qed.

End Ticks.

(** * Further properties *)

(** ** Geometry *)

(** X1: [pose_invert] changes the sign of x and y only: applied twice it
    gives the pose back, and the pose it yields is the inverse of [p]
    under [pose_sum] exactly when [p] has heading 0 and z 0. *)
Theorem pose_invert_inverse p :
  pose_invert (pose_invert p) = p
  /\ (pose_sum p (pose_invert p) = pose_zero <-> pose_a p = 0%R /\ pose_z p = 0%R).
Proof.
  destruct p as [x y z a]. unfold pose_invert, pose_sum, pose_zero, new_pose. simpl.
  split; [f_equal; lra|]. split.
  - intros [= _ _ Hz Ha]. lra.
  - intros [-> ->]. rewrite cos_0, sin_0. f_equal; lra.
Qed.

(** X2: The ray that [TestCollision] casts for the edge starting at vertex
    [p] of a block begins at that vertex and, after [edge_range], ends at
    the next vertex, the last edge closing the outline at vertex 0. *)
Theorem edge_ray_spans_edge pts p :
  let pt1 := nth p pts point_zero in
  let pt2 := nth ((p + 1) mod length pts) pts point_zero in
  let tip := pose_sum (edge_pose pts p) (new_pose (edge_range pts p) 0 0 0) in
  pose_x (edge_pose pts p) = pt_x pt1 /\ pose_y (edge_pose pts p) = pt_y pt1
  /\ pose_x tip = pt_x pt2 /\ pose_y tip = pt_y pt2.
Proof.
  cbv zeta. unfold edge_pose, edge_range, pose_sum, new_pose. cbn [pose_x pose_y pose_a].
  set (pt1 := nth p pts point_zero).
  set (pt2 := nth ((p + 1) mod length pts) pts point_zero).
  destruct (atan2_polar (pt_x pt2 - pt_x pt1) (pt_y pt2 - pt_y pt1)) as [Hc Hs].
  repeat split; lra.
Qed.

(** The other round trip: [pose_sum f] undoes [global_to_local f] in x, y
    and heading; z comes back raised by the frame's z. *)
Lemma pose_sum_global_to_local f q :
  pose_sum f (global_to_local f q)
  = mk_pose (pose_x q) (pose_y q) (pose_z f + pose_z q) (pose_a q).
Proof.
  unfold global_to_local, pose_sum; simpl.
  pose proof (sin2_cos2 (pose_a f)) as H. unfold Rsqr in H.
  f_equal.
  - transitivity (pose_x f + (pose_x q - pose_x f)
                             * (sin (pose_a f) * sin (pose_a f)
                                + cos (pose_a f) * cos (pose_a f)))%R;
      [ring | rewrite H; ring].
  - transitivity (pose_y f + (pose_y q - pose_y f)
                             * (sin (pose_a f) * sin (pose_a f)
                                + cos (pose_a f) * cos (pose_a f)))%R;
      [ring | rewrite H; ring].
  - ring.
Qed.




(** ** Walks over the model tree *)

Lemma for_return_run {A B} (g : A -> option B) (body : A -> M (option B)) w l :
  (forall a, In a l -> body a w = Ok (g a, w)) ->
  for_return l body w = Ok (first_some g l, w).
Proof.
  induction l as [|a l IH]; intros H; [reflexivity|].
  cbn [for_return first_some fold_right].
  mrun (H a (or_introl eq_refl)).
  destruct (g a); [reflexivity|].
  apply IH. intros a' Ha'. apply H. now right.
Qed.

Lemma tree_ok_children w n m X c :
  tree_ok w (S n) m = true -> models w !! m = Some X -> In c (children X) ->
  tree_ok w n c = true.
Proof.
  cbn [tree_ok]. intros Hok HX Hc. rewrite HX in Hok.
  rewrite forallb_forall in Hok. auto.
Qed.

Lemma tree_ok_lookup w n m :
  tree_ok w n m = true -> exists X, models w !! m = Some X.
Proof.
  destruct n; [discriminate|]. cbn [tree_ok].
  destruct (models w !! m); [eauto|discriminate].
Qed.

Lemma existsb_flat_map {A B} (P : B -> bool) (f : A -> list B) l :
  existsb P (flat_map f l) = existsb (fun a => existsb P (f a)) l.
Proof.
  induction l as [|a l IH]; [reflexivity|].
  cbn [flat_map existsb]. now rewrite existsb_app, IH.
Qed.

Lemma first_some_bool {A} (P : A -> bool) l :
  first_some (fun a => if P a then Some true else None) l
  = if existsb P l then Some true else None.
Proof.
  induction l as [|a l IH]; [reflexivity|].
  cbn [first_some fold_right existsb]. fold (first_some (fun a => if P a then Some true else None) l).
  rewrite IH. destruct (P a); reflexivity.
Qed.

Lemma IsDescendent_run n : forall w m t,
  tree_ok w n m = true ->
  IsDescendent n m t w = Ok (g_list_find (subtree w n m) t, w).
Proof.
  induction n as [|n IH]; intros w m t Hok; [discriminate|].
  destruct (tree_ok_lookup _ _ _ Hok) as [X HX].
  cbn [IsDescendent subtree]. rewrite HX.
  unfold g_list_find. cbn [existsb]. rewrite (Nat.eqb_sym t m).
  destruct (Nat.eqb m t); [reflexivity|]. cbn [orb].
  mrun (get_model_run _ _ _ HX).
  assert (Hloop :
            for_return (children X)
              (fun child =>
                 d <- IsDescendent n child t ;;
                 if d then ret (Some true) else ret None) w
            = Ok (first_some
                    (fun c => if g_list_find (subtree w n c) t then Some true else None)
                    (children X), w)).
  { apply for_return_run. intros c Hc.
    mrun (IH w c t (tree_ok_children _ _ _ _ _ Hok HX Hc)).
    destruct (g_list_find (subtree w n c) t); reflexivity. }
  mrun Hloop.
  rewrite first_some_bool, existsb_flat_map.
  unfold g_list_find. destruct (existsb _ (children X)); reflexivity.
Qed.

(** X3: [IsDescendent] answers whether [testmod] is the model or lies below
    it: following the children lists, it returns true exactly for the
    models of the subtree, returns false otherwise (where [IsAntecedent]
    faults), and changes nothing. *)
Theorem IsDescendent_subtree n w m t :
  tree_ok w n m = true ->
  exists b, IsDescendent n m t w = Ok (b, w)
            /\ (b = true <-> In t (subtree w n m)).
Proof.
  intros Hok. eexists. split; [apply IsDescendent_run, Hok|].
  apply g_list_find_In.
Qed.

Lemma IsDescendent_subtree_chain :
  (exists b, IsDescendent 3 0 2 chain_world = Ok (b, chain_world)
             /\ (b = true <-> In 2 (subtree chain_world 3 0)))
  /\ (exists b, IsDescendent 3 1 3 chain_world = Ok (b, chain_world)
                /\ (b = true <-> In 3 (subtree chain_world 3 1))).
Proof.
  split; apply IsDescendent_subtree; reflexivity.
Defined.

Lemma climb_run n : forall w m,
  rooted w n m = true ->
  exists r, root_of w n m = Some r /\ climb n m w = Ok (r, w).
Proof.
  induction n as [|n IH]; intros w m Hr; [discriminate|].
  cbn [rooted root_of climb] in *.
  destruct (models w !! m) as [X|] eqn:HX; [|discriminate].
  mrun (get_model_run _ _ _ HX).
  destruct (parent X) as [p|]; [apply IH, Hr|eauto].
Qed.

(** X4: [IsRelated] climbs from the model to the top of its tree and looks
    for [mod2] below that top: it returns true exactly when [mod2] is the
    model itself or a model of the tree under the model's root, and it
    changes nothing. *)
Theorem IsRelated_same_tree n w m mod2 r :
  rooted w n m = true ->
  root_of w n m = Some r ->
  tree_ok w n r = true ->
  exists b, IsRelated n m mod2 w = Ok (b, w)
            /\ (b = true <-> m = mod2 \/ In mod2 (subtree w n r)).
Proof.
  intros Hr Hroot Hok. unfold IsRelated.
  destruct (Nat.eqb_spec m mod2) as [->|Hne].
  - exists true. split; [reflexivity|]. split; auto.
  - destruct (climb_run n w m Hr) as (r' & Hr' & Hclimb).
    assert (r' = r) as -> by congruence.
    mrun Hclimb. rewrite (IsDescendent_run n w r mod2 Hok).
    eexists. split; [reflexivity|].
    rewrite g_list_find_In. split; [auto|]. intros [H|H]; [contradiction|exact H].
Qed.

Lemma IsRelated_same_tree_chain :
  (exists b, IsRelated 3 2 0 chain_world = Ok (b, chain_world)
             /\ (b = true <-> 2 = 0 \/ In 0 (subtree chain_world 3 0)))
  /\ (exists b, IsRelated 3 2 3 chain_world = Ok (b, chain_world)
                /\ (b = true <-> 2 = 3 \/ In 3 (subtree chain_world 3 0))).
Proof.
  split; apply IsRelated_same_tree; reflexivity.
Defined.

Lemma TreeToPtrArray_run n : forall w m array,
  tree_ok w n m = true ->
  TreeToPtrArray n m array w
  = Ok ((Z.of_nat (length (subtree w n m)), array ++ subtree w n m), w).
Proof.
  induction n as [|n IH]; intros w m array Hok; [discriminate|].
  destruct (tree_ok_lookup _ _ _ Hok) as [X HX].
  cbn [TreeToPtrArray subtree]. rewrite HX.
  mrun (get_model_run _ _ _ HX).
  assert (Hloop : forall cs st,
             (forall c, In c cs -> tree_ok w n c = true) ->
             for_fold cs
               (fun child st =>
                  r <- TreeToPtrArray n child (snd st) ;;
                  ret ((fst st + fst r)%Z, snd r)) st w
             = Ok (((fst st + Z.of_nat (length (flat_map (subtree w n) cs)))%Z,
                    snd st ++ flat_map (subtree w n) cs), w)).
  { induction cs as [|c cs IHcs]; intros [k arr] Hcs; cbn [for_fold flat_map fst snd].
    - unfold ret. rewrite app_nil_r. do 3 f_equal. simpl. lia.
    - mrun (IH w c arr (Hcs c (or_introl eq_refl))).
      unfold ret at 1. cbv beta iota. cbn [fst snd].
      rewrite (bind_run (fun w0 => Ok (_, w0)) _ w _ w eq_refl).
      rewrite IHcs by (intros c' Hc'; apply Hcs; now right).
      cbn [fst snd]. rewrite length_app, <- app_assoc. do 3 f_equal. lia. }
  rewrite Hloop by (intros c Hc; eapply tree_ok_children; eauto).
  cbn [fst snd length]. rewrite <- app_assoc. do 3 f_equal. lia.
Qed.

(** X5: [TreeToPtrArray] appends the model and all its descendants to the
    array, each model before its children and the children in list
    order, and returns the number of entries it added; the entries
    already in the array stay in front. *)
Theorem TreeToPtrArray_appends_subtree n w m array :
  tree_ok w n m = true ->
  exists added array',
    TreeToPtrArray n m array w = Ok ((added, array'), w)
    /\ array' = array ++ subtree w n m
    /\ added = Z.of_nat (length (subtree w n m))
    /\ Z.of_nat (length array') = (Z.of_nat (length array) + added)%Z.
Proof.
  intros Hok. eexists _, _. split; [apply TreeToPtrArray_run, Hok|].
  split; [reflexivity|]. split; [reflexivity|]. rewrite length_app. lia.
Qed.

Lemma TreeToPtrArray_appends_subtree_chain :
  exists added array',
    TreeToPtrArray 3 0 [3] chain_world = Ok ((added, array'), chain_world)
    /\ array' = [3] ++ subtree chain_world 3 0
    /\ added = Z.of_nat (length (subtree chain_world 3 0))
    /\ Z.of_nat (length array') = (Z.of_nat (length [3]) + added)%Z.
Proof.
  apply TreeToPtrArray_appends_subtree. reflexivity.
Defined.

Lemma find_flat_map {A B} (P : B -> bool) (f : A -> list B) l :
  find P (flat_map f l) = first_some (fun a => find P (f a)) l.
Proof.
  induction l as [|a l IH]; [reflexivity|].
  cbn [flat_map first_some fold_right].
  fold (first_some (fun a => find P (f a)) l). rewrite <- IH.
  induction (f a) as [|b bs IHb]; [reflexivity|].
  cbn [app find]. destruct (P b); [reflexivity|exact IHb].
Qed.

Section ModelTypeFacts.

Variable type_of : model_id -> Z.

Lemma GetUnsubscribedModelOfType_run n : forall w m type,
  tree_ok w n m = true ->
  GetUnsubscribedModelOfType type_of n m type w
  = Ok (find (unsubscribed_of_type type_of w type) (subtree w n m), w).
Proof.
  induction n as [|n IH]; intros w m type Hok; [discriminate|].
  destruct (tree_ok_lookup _ _ _ Hok) as [X HX].
  cbn [GetUnsubscribedModelOfType subtree find]. rewrite HX.
  mrun (get_model_run _ _ _ HX).
  unfold unsubscribed_of_type at 1. rewrite HX.
  destruct ((type_of m =? type)%Z && (subs X =? 0)%Z); [reflexivity|].
  rewrite find_flat_map. apply for_return_run.
  intros c Hc. apply IH. eapply tree_ok_children; eauto.
Qed.

(** X6: [GetUnsubscribedModelOfType] returns the first model, in the order
    model-before-children, of the subtree that has the wanted type and a
    subscription count of exactly 0; it returns null when the subtree
    holds no such model (a model whose count went below 0 is passed
    over), and it changes nothing. *)
Theorem GetUnsubscribedModelOfType_first n w m type :
  tree_ok w n m = true ->
  exists r,
    GetUnsubscribedModelOfType type_of n m type w = Ok (r, w)
    /\ r = find (unsubscribed_of_type type_of w type) (subtree w n m)
    /\ (forall d, r = Some d ->
          In d (subtree w n m) /\ type_of d = type
          /\ field subs d w = Some 0%Z)
    /\ (r = None ->
          forall d Y, In d (subtree w n m) -> models w !! d = Some Y ->
                      type_of d = type -> subs Y <> 0%Z).
Proof.
  intros Hok. eexists. split; [apply GetUnsubscribedModelOfType_run, Hok|].
  split; [reflexivity|]. split.
  - intros d Hd. apply find_some in Hd as [Hin Hw]. split; [exact Hin|].
    unfold unsubscribed_of_type in Hw. unfold field.
    destruct (models w !! d) as [Y|]; [|discriminate].
    apply andb_prop in Hw as [Ht Hs]. apply Z.eqb_eq in Ht, Hs.
    split; [exact Ht|]. simpl. now rewrite Hs.
  - intros Hnone d Y Hin HY Ht Hs.
    pose proof (find_none _ _ Hnone d Hin) as Hw.
    unfold unsubscribed_of_type in Hw. rewrite HY in Hw.
    apply Z.eqb_eq in Ht, Hs. rewrite Ht, Hs in Hw. discriminate.
Qed.

End ModelTypeFacts.

Lemma GetUnsubscribedModelOfType_first_chain :
  exists r,
    GetUnsubscribedModelOfType (fun d => Z.of_nat (d mod 2)) 3 0 1 chain_world
    = Ok (r, chain_world)
    /\ r = Some 1.
Proof.
  destruct (GetUnsubscribedModelOfType_first (fun d => Z.of_nat (d mod 2)) 3
              chain_world 0 1 eq_refl) as (r & Hrun & Hr & _).
  exists r. split; [exact Hrun|]. rewrite Hr. reflexivity.
Defined.

(** ** Up and down the tree *)

Lemma ancestors_extend w n : forall t c C m,
  In c (ancestors w n t) -> models w !! c = Some C -> parent C = Some m ->
  In m (ancestors w (S n) t).
Proof.
  induction n as [|n IH]; intros t c C m Hin HC Hp; [destruct Hin|].
  cbn [ancestors] in Hin. destruct Hin as [<-|Hin].
  - cbn [ancestors]. rewrite HC, Hp. right. now left.
  - change (ancestors w (S (S n)) t)
      with (t :: match models w !! t with
                 | Some X => match parent X with
                             | Some p => ancestors w (S n) p
                             | None => []
                             end
                 | None => []
                 end).
    right.
    destruct (models w !! t) as [T|]; [|destruct Hin].
    destruct (parent T) as [p|]; [|destruct Hin].
    exact (IH p c C m Hin HC Hp).
Qed.

Lemma subtree_extend w n : forall m p P t,
  In p (subtree w n m) -> models w !! p = Some P -> In t (children P) ->
  In t (subtree w (S n) m).
Proof.
  induction n as [|n IH]; intros m p P t Hin HP Ht; [destruct Hin|].
  cbn [subtree] in Hin. destruct Hin as [<-|Hin].
  - change (subtree w (S (S n)) m)
      with (m :: match models w !! m with
                 | Some X => flat_map (subtree w (S n)) (children X)
                 | None => []
                 end).
    right. rewrite HP. apply in_flat_map. exists t. split; [exact Ht|]. now left.
  - change (subtree w (S (S n)) m)
      with (m :: match models w !! m with
                 | Some X => flat_map (subtree w (S n)) (children X)
                 | None => []
                 end).
    right.
    destruct (models w !! m) as [X|]; [|destruct Hin].
    apply in_flat_map in Hin as (c & Hc & Hin).
    apply in_flat_map. exists c. split; [exact Hc|]. exact (IH c p P t Hin HP Ht).
Qed.

Lemma subtree_ancestors w n :
  linked w ->
  forall m t, tree_ok w n m = true -> In t (subtree w n m) -> In m (ancestors w n t).
Proof.
  intros Hl. induction n as [|n IH]; intros m t Hok Hin; [destruct Hin|].
  destruct (tree_ok_lookup _ _ _ Hok) as [X HX].
  cbn [subtree] in Hin. rewrite HX in Hin.
  destruct Hin as [<-|Hin]; [now left|].
  apply in_flat_map in Hin as (c & Hc & Hin).
  pose proof (tree_ok_children _ _ _ _ _ Hok HX Hc) as Hokc.
  destruct (tree_ok_lookup _ _ _ Hokc) as [C HC].
  apply (ancestors_extend w n t c C m (IH c t Hokc Hin) HC).
  now apply (Hl c m C X HC HX).
Qed.

Lemma ancestors_subtree w n :
  linked w ->
  forall t m M0, models w !! m = Some M0 -> In m (ancestors w n t) -> In t (subtree w n m).
Proof.
  intros Hl. induction n as [|n IH]; intros t m M0 HM Hin; [destruct Hin|].
  cbn [ancestors] in Hin. destruct Hin as [<-|Hin]; [now left|].
  destruct (models w !! t) as [T|] eqn:HT; [|destruct Hin].
  destruct (parent T) as [p|] eqn:Hp; [|destruct Hin].
  assert (exists P, models w !! p = Some P) as [P HP].
  { destruct n as [|n']; [destruct Hin|]. cbn [ancestors] in Hin.
    destruct Hin as [<-|Hin]; [eauto|].
    destruct (models w !! p); [eauto|destruct Hin]. }
  apply (subtree_extend w n m p P t (IH p m M0 HM Hin) HP).
  now apply (Hl t p T P HT HP).
Qed.

Lemma IsAntecedent_true_In n : forall w m t w',
  IsAntecedent n m t w = Ok (true, w') -> In t (ancestors w n m).
Proof.
  induction n as [|n IH]; intros w m t w' H; [discriminate|].
  cbn [IsAntecedent] in H. cbn [ancestors].
  destruct (Nat.eqb_spec m t) as [->|Hne]; [now left|]. right.
  apply bind_ok in H as (X & w1 & [HX ->]%get_model_ok & H).
  rewrite HX.
  apply bind_ok in H as (p & w2 & Hp & H).
  destruct (parent X) as [p'|]; [|discriminate].
  injection Hp as -> ->.
  apply bind_ok in H as (r & w3 & Hr & H).
  destruct r; [|discriminate]. exact (IH _ _ _ _ Hr).
Qed.

(** X7: Where the parent pointers and the children lists agree,
    [IsDescendent] and [IsAntecedent] mirror each other on the positive
    side: [m->IsDescendent(t)] returns true exactly when
    [t->IsAntecedent(m)] returns true.  (When the answer is no, the
    former returns false and the latter faults.) *)
Theorem IsDescendent_mirrors_IsAntecedent n w m t :
  linked w ->
  tree_ok w n m = true ->
  exists b, IsDescendent n m t w = Ok (b, w)
            /\ (b = true <-> IsAntecedent n t m w = Ok (true, w)).
Proof.
  intros Hl Hok. eexists. split; [apply IsDescendent_run, Hok|].
  rewrite g_list_find_In. split.
  - intros Hin. apply IsAntecedent_found. now apply subtree_ancestors.
  - intros H%IsAntecedent_true_In.
    destruct (tree_ok_lookup _ _ _ Hok) as [X HX].
    exact (ancestors_subtree w n Hl t m X HX H).
Qed.

Lemma chain_world_linked : linked chain_world.
Proof.
  intros c p C P HC HP.
  destruct c as [|[|[|[|c]]]]; try discriminate; injection HC as <-;
    destruct p as [|[|[|[|p]]]]; try discriminate; injection HP as <-;
    simpl; intuition congruence.
Qed.

Lemma IsDescendent_mirrors_IsAntecedent_chain :
  exists b, IsDescendent 3 0 2 chain_world = Ok (b, chain_world)
            /\ (b = true <-> IsAntecedent 3 2 0 chain_world = Ok (true, chain_world)).
Proof.
  apply IsDescendent_mirrors_IsAntecedent; [exact chain_world_linked|reflexivity].
Defined.

(** ** Chains of parents *)

Lemma chain_mono w n : forall n' m,
  rooted w n m = true -> n <= n' ->
  rooted w n' m = true
  /\ ancestors w n' m = ancestors w n m
  /\ global_pose_of w n' m = global_pose_of w n m
  /\ root_of w n' m = root_of w n m.
Proof.
  induction n as [|n IH]; intros n' m Hr Hle; [discriminate|].
  destruct n' as [|n']; [lia|].
  cbn [rooted ancestors global_pose_of root_of] in *.
  destruct (models w !! m) as [X|]; [|discriminate].
  destruct (parent X) as [p|]; [|auto].
  destruct (IH n' p Hr ltac:(lia)) as (H1 & H2 & H3 & H4).
  rewrite H2, H3, H4. auto.
Qed.

Lemma ancestors_rooted w n : forall m x,
  rooted w n m = true -> In x (ancestors w n m) ->
  rooted w n x = true /\ length (ancestors w n x) <= length (ancestors w n m).
Proof.
  induction n as [|n IH]; intros m x Hr Hin; [discriminate|].
  pose proof Hr as Hr0.
  cbn [rooted ancestors] in Hr, Hin.
  destruct Hin as [<-|Hin]; [auto|].
  destruct (models w !! m) as [X|] eqn:HX; [|discriminate].
  destruct (parent X) as [p|] eqn:Hp; [|destruct Hin].
  destruct (IH p x Hr Hin) as [Hrx Hlen].
  destruct (chain_mono w n (S n) x Hrx ltac:(lia)) as (H1 & H2 & _).
  split; [exact H1|]. rewrite H2.
  cbn [ancestors]. rewrite HX, Hp. simpl. lia.
Qed.

(** A chain of parents that ends does not come back to where it
    started. *)
Lemma rooted_acyclic w n m X p :
  rooted w (S n) m = true -> models w !! m = Some X -> parent X = Some p ->
  rooted w n p = true /\ ~ In m (ancestors w n p).
Proof.
  intros Hr HX Hp.
  assert (Hrp : rooted w n p = true).
  { cbn [rooted] in Hr. now rewrite HX, Hp in Hr. }
  split; [exact Hrp|]. intros Hin.
  destruct (ancestors_rooted w n p m Hrp Hin) as [Hrm Hlen].
  destruct (chain_mono w n (S n) m Hrm ltac:(lia)) as (_ & H2 & _).
  cbn [ancestors] in H2. rewrite HX, Hp in H2.
  apply (f_equal (@length _)) in H2. simpl in H2. lia.
Qed.

Lemma ancestors_head w n m : rooted w n m = true -> In m (ancestors w n m).
Proof. destruct n; [discriminate|]. intros _. now left. Qed.

(** What holds of a chain depends on the models of the chain only. *)
Lemma chain_local w w' n : forall m,
  (forall x, In x (ancestors w n m) ->
             field kinematic x w' = field kinematic x w) ->
  rooted w' n m = rooted w n m
  /\ ancestors w' n m = ancestors w n m
  /\ global_pose_of w' n m = global_pose_of w n m.
Proof.
  induction n as [|n IH]; intros m H; [auto|].
  cbn [rooted ancestors global_pose_of] in *.
  pose proof (H m (or_introl eq_refl)) as Hm. unfold field, kinematic in Hm.
  destruct (models w !! m) as [X|] eqn:HX; destruct (models w' !! m) as [X'|] eqn:HX';
    try discriminate; [|auto].
  injection Hm as Hp Hpose Hgeom. rewrite Hp, Hpose.
  destruct (parent X) as [p|]; [|auto].
  destruct (IH p) as (H1 & H2 & H3); [intros x Hx; apply H; now right|].
  rewrite H1, H2, H3. split; [reflexivity|]. split; [reflexivity|].
  destruct (global_pose_of w n p) eqn:Hg; [|reflexivity].
  assert (Hin : In p (ancestors w n p)).
  { destruct n; [discriminate|]. now left. }
  pose proof (H p (or_intror Hin)) as Hfp. unfold field, kinematic in Hfp.
  destruct (models w !! p) as [P|]; destruct (models w' !! p) as [P'|];
    try discriminate; [|reflexivity].
  injection Hfp as _ _ ->. reflexivity.
Qed.

(** ** The cache of global poses *)

Lemma GetGlobalPose_cache_run n : forall w m,
  rooted w n m = true ->
  exists g w',
    GetGlobalPose n m w = Ok (g, w')
    /\ global_pose_of w n m = Some g
    /\ raster_view w' = raster_view w
    /\ (forall x, In x (ancestors w n m) ->
          field gpose_dirty x w' = Some false
          /\ field global_pose x w' = global_pose_of w n x)
    /\ (forall x, ~ In x (ancestors w n m) -> models w' !! x = models w !! x).
Proof.
  induction n as [|n IH]; intros w m Hr; [discriminate|].
  pose proof Hr as Hr0.
  cbn [rooted] in Hr. destruct (models w !! m) as [X|] eqn:HX; [|discriminate].
  cbn [GetGlobalPose ancestors]. rewrite HX.
  mrun (get_model_run _ _ _ HX).
  destruct (parent X) as [p|] eqn:Hp; cbv beta iota.
  - destruct (rooted_acyclic w n m X p Hr0 HX Hp) as [_ Hnotin].
    destruct (IH w p Hr) as (gp & w1 & Hrun & Hspec & Hv1 & Hcache & Hrest).
    assert (HX1 : models w1 !! m = Some X) by (rewrite Hrest; auto).
    assert (exists P, models w !! p = Some P) as [P HP].
    { destruct n; [discriminate|]. cbn [rooted] in Hr.
      destruct (models w !! p); [eauto|discriminate]. }
    mrun Hrun. mrun (get_model_run _ _ _ HX1).
    mrun (modify_model_run _ (set_global_pose (stg_pose_sum gp (pose X))) _ _ HX1).
    set (X2 := set_global_pose (stg_pose_sum gp (pose X)) X).
    set (w2 := set_models (<[m := X2]> (models w1)) w1).
    assert (Hv2 : raster_view w2 = raster_view w1)
      by (apply raster_view_blind_global_pose; exact HX1).
    assert (HP2 : exists P2, models w2 !! p = Some P2 /\ geom P2 = geom P).
    { destruct (raster_view_lookup w w2 p P) as (P2 & ? & HB); [congruence|exact HP|].
      apply blank_cache_fields in HB as (_ & _ & _ & ? & _). eauto. }
    destruct HP2 as (P2 & HP2 & Hgeom).
    assert (Hm2 : models w2 !! m = Some X2) by (eapply lookup_modified_eq; eauto).
    mrun (get_model_run _ _ _ HP2).
    mrun (modify_model_run _
            (fun X => set_global_pose (add_z (size_z (geom_size (geom P2))) (global_pose X)) X)
            _ _ Hm2).
    set (X3 := set_global_pose _ X2).
    set (w3 := set_models (<[m := X3]> (models w2)) w2).
    assert (Hm3 : models w3 !! m = Some X3) by (eapply lookup_modified_eq; eauto).
    mrun (modify_model_run _ (set_gpose_dirty false) _ _ Hm3).
    set (w4 := set_models _ w3).
    assert (Hm4 : models w4 !! m = Some (set_gpose_dirty false X3))
      by (eapply lookup_modified_eq; eauto).
    mrun (get_model_run _ _ _ Hm4).
    assert (Hother : forall x, x <> m -> models w4 !! x = models w1 !! x).
    { intros x Hx. unfold w4, w3, w2. cbn [models set_models].
      rewrite !list_lookup_insert_ne by auto. reflexivity. }
    eexists _, _. split; [reflexivity|]. split; [|split; [|split]].
    + cbn [global_pose_of]. rewrite HX, Hp, Hspec, HP. simpl. rewrite Hgeom. reflexivity.
    + rewrite <- Hv1, <- Hv2.
      etransitivity; [apply raster_view_blind_gpose_dirty; exact Hm3|].
      apply raster_view_blind_global_pose; exact Hm2.
    + intros x [<-|Hx].
      * unfold field. rewrite Hm4. cbn [global_pose_of]. rewrite HX, Hp, Hspec, HP.
        simpl. rewrite Hgeom. auto.
      * assert (Hne : x <> m) by (intros ->; contradiction).
        unfold field. rewrite (Hother x Hne).
        destruct (Hcache x Hx) as [Hd Hg]. unfold field in Hd, Hg.
        rewrite Hd, Hg. split; [reflexivity|].
        destruct (ancestors_rooted w n p x Hr Hx) as [Hrx _].
        destruct (chain_mono w n (S n) x Hrx ltac:(lia)) as (_ & _ & H3 & _).
        now rewrite H3.
    + intros x Hx.
      assert (Hne : x <> m) by (intros ->; apply Hx; now left).
      rewrite (Hother x Hne). apply Hrest. intros Hin. apply Hx. now right.
  - mrun (modify_model_run _ (fun X => set_global_pose (pose X) X) _ _ HX).
    set (X1 := set_global_pose (pose X) X).
    set (w1 := set_models (<[m := X1]> (models w)) w).
    assert (Hm1 : models w1 !! m = Some X1) by (eapply lookup_modified_eq; eauto).
    mrun (modify_model_run _ (set_gpose_dirty false) _ _ Hm1).
    set (w2 := set_models _ w1).
    assert (Hm2 : models w2 !! m = Some (set_gpose_dirty false X1))
      by (eapply lookup_modified_eq; eauto).
    mrun (get_model_run _ _ _ Hm2).
    eexists _, _. split; [reflexivity|].
    split; [cbn [global_pose_of]; rewrite HX, Hp; reflexivity|]. split; [|split].
    + etransitivity; [apply raster_view_blind_gpose_dirty; exact Hm1|].
      apply raster_view_blind_global_pose; exact HX.
    + intros x [<-|[]]. unfold field. rewrite Hm2.
      cbn [global_pose_of]. rewrite HX, Hp. auto.
    + intros x Hx.
      assert (Hne : m <> x) by (intros ->; apply Hx; now left).
      unfold w2, w1. cbn [models set_models].
      rewrite !list_lookup_insert_ne by auto. reflexivity.
Qed.

(** X8: [GetGlobalPose] refreshes the cache along the whole chain of
    parents: afterwards the cached [global_pose] of the model and of each
    of its ancestors holds that model's global pose and its [gpose_dirty]
    is false, and no other model has changed. *)
Theorem GetGlobalPose_refreshes_chain n w m :
  rooted w n m = true ->
  exists g w',
    GetGlobalPose n m w = Ok (g, w')
    /\ (forall x, In x (ancestors w n m) ->
          field gpose_dirty x w' = Some false
          /\ field global_pose x w' = global_pose_of w n x
          /\ global_pose_of w n x <> None)
    /\ (forall x, ~ In x (ancestors w n m) -> models w' !! x = models w !! x).
Proof.
  intros Hr.
  destruct (GetGlobalPose_cache_run n w m Hr) as (g & w' & Hrun & _ & _ & Hcache & Hrest).
  exists g, w'. split; [exact Hrun|]. split; [|exact Hrest].
  intros x Hx. destruct (Hcache x Hx) as [Hd Hg]. split; [exact Hd|]. split; [exact Hg|].
  destruct (ancestors_rooted w n m x Hr Hx) as [Hrx _].
  destruct (GetGlobalPose_run n w x Hrx) as (gx & _ & _ & Hsome & _).
  congruence.
Qed.

Lemma GetGlobalPose_refreshes_chain_S1 :
  exists g w',
    GetGlobalPose 2 1 S1_world = Ok (g, w')
    /\ field gpose_dirty 0 w' = Some false
    /\ field global_pose 0 w' = Some (new_pose 1 0 0 (PI / 2)).
Proof.
  destruct (GetGlobalPose_refreshes_chain 2 S1_world 1 eq_refl)
    as (g & w' & Hrun & Hcache & _).
  exists g, w'. split; [exact Hrun|].
  destruct (Hcache 0) as (Hd & Hg & _); [simpl; auto|].
  split; [exact Hd|]. rewrite Hg. reflexivity.
Defined.

Lemma global_pose_of_sums w n : forall m g,
  global_pose_of w n m = Some g ->
  pose_a g = Rsum (map (heading_of w) (ancestors w n m))
  /\ pose_z g = (Rsum (map (rise_of w) (ancestors w n m))
                 + Rsum (map (height_of w) (tail (ancestors w n m))))%R.
Proof.
  induction n as [|n IH]; intros m g Hg; [discriminate|].
  cbn [global_pose_of ancestors] in *.
  cbn [map Rsum fold_right tail].
  fold (Rsum (map (heading_of w)
                match models w !! m with
                | Some X => match parent X with
                            | Some p => ancestors w n p
                            | None => []
                            end
                | None => []
                end)).
  fold (Rsum (map (rise_of w)
                match models w !! m with
                | Some X => match parent X with
                            | Some p => ancestors w n p
                            | None => []
                            end
                | None => []
                end)).
  unfold heading_of at 1, rise_of at 1.
  destruct (models w !! m) as [X|] eqn:HX; [|discriminate].
  destruct (parent X) as [p|].
  - destruct (global_pose_of w n p) as [gp|] eqn:Hgp; [|discriminate].
    destruct (models w !! p) as [P|] eqn:HP; [|discriminate].
    injection Hg as <-.
    destruct (IH p gp Hgp) as [Ha Hz].
    assert (Htl : Rsum (map (height_of w) (ancestors w n p))
                  = (size_z (geom_size (geom P))
                     + Rsum (map (height_of w) (tail (ancestors w n p))))%R).
    { destruct n as [|n']; [discriminate|].
      cbn [ancestors map Rsum fold_right tail]. unfold height_of at 1.
      rewrite HP. reflexivity. }
    unfold Rsum in *. rewrite Htl. simpl. lra.
  - injection Hg as <-. simpl. lra.
Qed.

(** X9: The global heading that [GetGlobalPose] returns is the plain sum of
    the headings along the chain of parents (it is not brought back into
    (-pi, pi]), and the global z is the sum of the z offsets along the
    chain plus the heights of all the ancestors. *)
Theorem GetGlobalPose_sums n w m :
  rooted w n m = true ->
  exists g w',
    GetGlobalPose n m w = Ok (g, w')
    /\ pose_a g = Rsum (map (heading_of w) (ancestors w n m))
    /\ pose_z g = (Rsum (map (rise_of w) (ancestors w n m))
                   + Rsum (map (height_of w) (tail (ancestors w n m))))%R.
Proof.
  intros Hr.
  destruct (GetGlobalPose_run n w m Hr) as (g & w' & Hrun & Hspec & _).
  exists g, w'. split; [exact Hrun|]. exact (global_pose_of_sums w n m g Hspec).
Qed.

Lemma GetGlobalPose_sums_S1 :
  exists g w',
    GetGlobalPose 2 1 S1_world = Ok (g, w')
    /\ pose_a g = (0 + (PI / 2 + 0))%R
    /\ pose_z g = (0 + (0 + 0) + (0.2 + 0))%R.
Proof.
  exact (GetGlobalPose_sums 2 S1_world 1 eq_refl).
Defined.

(** ** [NeedRedraw] *)

Lemma NeedRedraw_marks n : forall w m,
  rooted w n m = true ->
  exists w',
    NeedRedraw n m w = Ok (tt, w')
    /\ (forall x, In x (ancestors w n m) -> field rebuild_displaylist x w' = Some true)
    /\ (forall x, ~ In x (ancestors w n m) -> models w' !! x = models w !! x)
    /\ view (set_rebuild_displaylist true) w' = view (set_rebuild_displaylist true) w
    /\ bitmap w' = bitmap w /\ events w' = events w.
Proof.
  induction n as [|n IH]; intros w m Hr; [discriminate|].
  pose proof Hr as Hr0.
  cbn [rooted] in Hr. destruct (models w !! m) as [X|] eqn:HX; [|discriminate].
  cbn [NeedRedraw ancestors]. rewrite HX.
  mrun (modify_model_run _ (set_rebuild_displaylist true) _ _ HX).
  set (X1 := set_rebuild_displaylist true X).
  set (w1 := set_models (<[m := X1]> (models w)) w).
  assert (Hm1 : models w1 !! m = Some X1) by (eapply lookup_modified_eq; eauto).
  assert (Hv1 : view (set_rebuild_displaylist true) w1
                = view (set_rebuild_displaylist true) w).
  { apply (view_blind (set_rebuild_displaylist true) (set_rebuild_displaylist true));
      [reflexivity|exact HX]. }
  mrun (get_model_run _ _ _ Hm1).
  change (parent X1) with (parent X).
  destruct (parent X) as [p|] eqn:Hp.
  - destruct (rooted_acyclic w n m X p Hr0 HX Hp) as [_ Hnotin].
    assert (Hloc : rooted w1 n p = rooted w n p /\ ancestors w1 n p = ancestors w n p
                   /\ global_pose_of w1 n p = global_pose_of w n p).
    { apply chain_local. intros x Hx.
      assert (Hne : m <> x) by (intros ->; contradiction).
      unfold field, w1. cbn [models set_models].
      now rewrite list_lookup_insert_ne by auto. }
    destruct Hloc as (Hr1 & Ha1 & _).
    destruct (IH w1 p) as (w' & Hrun & Hmarks & Hrest & Hv & Hbm & Hev); [congruence|].
    exists w'. split; [exact Hrun|]. rewrite Ha1 in Hmarks, Hrest.
    split; [|split; [|split; [|split]]].
    + intros x [<-|Hx]; [|auto].
      unfold field. rewrite (Hrest m Hnotin), Hm1. reflexivity.
    + intros x Hx.
      assert (Hne : m <> x) by (intros ->; apply Hx; now left).
      rewrite Hrest by (intros Hin; apply Hx; now right).
      unfold w1. cbn [models set_models]. now rewrite list_lookup_insert_ne by auto.
    + now rewrite Hv.
    + now rewrite Hbm.
    + now rewrite Hev.
  - exists w1. split; [reflexivity|]. split; [|split; [|split; [|split]]];
      try reflexivity; try exact Hv1.
    + intros x [<-|[]]. unfold field. rewrite Hm1. reflexivity.
    + intros x Hx.
      assert (Hne : m <> x) by (intros ->; apply Hx; now left).
      unfold w1. cbn [models set_models]. now rewrite list_lookup_insert_ne by auto.
Qed.

(** X10: [NeedRedraw] sets [rebuild_displaylist] on the model and on every
    ancestor up to the top of the tree; no other model is touched and
    nothing but that flag changes. *)
Theorem NeedRedraw_marks_ancestors n w m :
  rooted w n m = true ->
  exists w',
    NeedRedraw n m w = Ok (tt, w')
    /\ (forall x, In x (ancestors w n m) -> field rebuild_displaylist x w' = Some true)
    /\ (forall x, ~ In x (ancestors w n m) -> models w' !! x = models w !! x)
    /\ view (set_rebuild_displaylist true) w' = view (set_rebuild_displaylist true) w.
Proof.
  intros Hr.
  destruct (NeedRedraw_marks n w m Hr) as (w' & H1 & H2 & H3 & H4 & _).
  eauto.
Qed.

Lemma NeedRedraw_marks_ancestors_chain :
  exists w',
    NeedRedraw 3 2 chain_world = Ok (tt, w')
    /\ (forall x, In x (ancestors chain_world 3 2) ->
                  field rebuild_displaylist x w' = Some true)
    /\ (forall x, ~ In x (ancestors chain_world 3 2) ->
                  models w' !! x = models chain_world !! x)
    /\ view (set_rebuild_displaylist true) w'
       = view (set_rebuild_displaylist true) chain_world.
Proof.
  apply NeedRedraw_marks_ancestors. reflexivity.
Defined.

(** ** Velocities in the global frame *)

Lemma raster_view_view {T} (g : StgModel -> T) w w' :
  (forall Y, g (blank_cache Y) = g Y) ->
  raster_view w' = raster_view w -> view g w' = view g w.
Proof.
  intros Hg Hv. apply raster_view_models in Hv. unfold view in *.
  transitivity (g <$> (blank_cache <$> models w')).
  - rewrite <- list_fmap_compose. apply list_fmap_ext. intros _ Y _. simpl. now rewrite Hg.
  - rewrite Hv, <- list_fmap_compose. apply list_fmap_ext. intros _ Y _. simpl. now rewrite Hg.
Qed.

Lemma SetVelocity_keeps {T} (phi : StgWorld -> T) m v :
  (forall x, model_blind phi (set_velocity x)) ->
  (forall x, model_blind phi (set_on_velocity_list x)) ->
  (forall l w, phi (set_velocity_list l w) = phi w) ->
  events_blind phi ->
  keeps phi (SetVelocity m v).
Proof.
  intros H1 H2 H3 H4. unfold SetVelocity, CallCallbacks.
  keeps_tac; try blind_tac; intros w0; first [apply H3 | apply H4].
Qed.

Lemma SetVelocity_total w m X v :
  models w !! m = Some X ->
  exists w', SetVelocity m v w = Ok (tt, w') /\ field velocity m w' = Some v.
Proof.
  intros HX.
  assert (Hlen : m < length (models w)) by (eapply lookup_lt_Some; eauto).
  unfold SetVelocity, bind, modify_model, get_model, modify_world, CallCallbacks, ret.
  rewrite HX. world_cbn.
  rewrite (lookup_insert_Some _ _ _ _ HX).
  cbn [on_velocity_list velocity set_velocity].
  unfold field.
  destruct (on_velocity_list X) eqn:Hon; destruct (velocity_is_nonzero v) eqn:Hnz;
    repeat (progress
              (world_cbn;
               cbn [on_velocity_list velocity set_velocity set_on_velocity_list negb andb];
               rewrite ?Hnz, ?Hon;
               rewrite ?list_lookup_insert_eq by (rewrite ?length_insert; exact Hlen)));
    (eexists; split; [reflexivity|]);
    repeat (progress
              (world_cbn;
               rewrite ?list_lookup_insert_eq by (rewrite ?length_insert; exact Hlen)));
    reflexivity.
Qed.

Lemma chain_view w w' n m :
  view kinematic w' = view kinematic w ->
  rooted w' n m = rooted w n m
  /\ ancestors w' n m = ancestors w n m
  /\ global_pose_of w' n m = global_pose_of w n m.
Proof. intros Hv. apply chain_local. intros x _. now apply view_field. Qed.

Lemma GetGlobalPose_again fuel w m g w1 :
  rooted w fuel m = true ->
  global_pose_of w fuel m = Some g ->
  view kinematic w1 = view kinematic w ->
  exists w2, GetGlobalPose fuel m w1 = Ok (g, w2) /\ raster_view w2 = raster_view w1.
Proof.
  intros Hr Hg Hv.
  destruct (chain_view w w1 fuel m Hv) as (Hr1 & _ & Hg1).
  destruct (GetGlobalPose_run fuel w1 m) as (g' & w2 & Hrun & Hspec & Hv2); [congruence|].
  assert (g' = g) as -> by congruence. eauto.
Qed.

Lemma rotate_back c s x y :
  (s * s + c * c = 1)%R ->
  ((x * c + y * s) * c - (- x * s + y * c) * s = x
   /\ (x * c + y * s) * s + (- x * s + y * c) * c = y)%R.
Proof.
  intros H. split.
  - transitivity (x * (s * s + c * c))%R; [ring | rewrite H; ring].
  - transitivity (y * (s * s + c * c))%R; [ring | rewrite H; ring].
Qed.

(** X11: [SetGlobalVelocity] followed by [GetGlobalVelocity] gives back the x,
    y and turn rate that were set: the rotation into the model's frame
    and the rotation out of it cancel.  The z component does not make the
    trip: the velocity stored has the z of an unassigned local, and so has
    the velocity read. *)
Theorem GlobalVelocity_round_trip fuel w m gv z1 z2 :
  rooted w fuel m = true ->
  exists w1 v w2,
    SetGlobalVelocity fuel m gv z1 w = Ok (tt, w1)
    /\ GetGlobalVelocity fuel m z2 w1 = Ok (v, w2)
    /\ pose_x v = pose_x gv /\ pose_y v = pose_y gv /\ pose_a v = pose_a gv
    /\ pose_z v = z2
    /\ (pose_z <$> field velocity m w1) = Some z1.
Proof.
  intros Hr.
  destruct (GetGlobalPose_run fuel w m Hr) as (g & wa & Hrun & Hspec & Hva).
  assert (exists X, models w !! m = Some X) as [X HX].
  { destruct fuel; [discriminate|]. cbn [rooted] in Hr.
    destruct (models w !! m); [eauto|discriminate]. }
  destruct (raster_view_lookup _ _ _ _ Hva HX) as (Xa & HXa & _).
  set (lv := mk_pose (pose_x gv * cos (pose_a g) + pose_y gv * sin (pose_a g))
                     (- pose_x gv * sin (pose_a g) + pose_y gv * cos (pose_a g))
                     z1 (pose_a gv)).
  destruct (SetVelocity_total wa m Xa lv HXa) as (w1 & Hset & Hvel).
  assert (Hk1 : view kinematic w1 = view kinematic w).
  { transitivity (view kinematic wa).
    - eapply (SetVelocity_keeps (view kinematic)); [| | | |exact Hset];
        try (intros x; apply view_blind; reflexivity); intros ? ?; reflexivity.
    - apply raster_view_view; [reflexivity|exact Hva]. }
  destruct (GetGlobalPose_again fuel w m g w1 Hr Hspec Hk1) as (w2 & Hrun2 & Hv2).
  assert (Hvel2 : field velocity m w2 = Some lv).
  { transitivity (field velocity m w1); [|exact Hvel].
    apply view_field, raster_view_view; [reflexivity|exact Hv2]. }
  unfold field in Hvel2.
  destruct (models w2 !! m) as [X2|] eqn:HX2; [|discriminate].
  injection Hvel2 as Hvel2.
  eexists w1, _, w2. split; [|split].
  - unfold SetGlobalVelocity. mrun Hrun. exact Hset.
  - unfold GetGlobalVelocity. mrun Hrun2. mrun (get_model_run _ _ _ HX2). reflexivity.
  - rewrite Hvel2. cbn [pose_x pose_y pose_z pose_a lv].
    pose proof (sin2_cos2 (pose_a g)) as H1. unfold Rsqr in H1.
    destruct (rotate_back (cos (pose_a g)) (sin (pose_a g)) (pose_x gv) (pose_y gv) H1)
      as [Hx Hy].
    repeat split; try assumption. now rewrite Hvel.
Qed.

Lemma GlobalVelocity_round_trip_S1 :
  exists w1 v w2,
    SetGlobalVelocity 2 1 (new_pose 1 2 3 4) 5 S1_world = Ok (tt, w1)
    /\ GetGlobalVelocity 2 1 6 w1 = Ok (v, w2)
    /\ pose_x v = 1%R /\ pose_y v = 2%R /\ pose_a v = 4%R
    /\ pose_z v = 6%R
    /\ (pose_z <$> field velocity 1 w1) = Some 5%R.
Proof.
  exact (GlobalVelocity_round_trip 2 S1_world 1 (new_pose 1 2 3 4) 5 6 eq_refl).
Defined.

(** X12: [GetGlobalVelocity] turns the velocity by the model's global heading:
    the speed in the plane and the turn rate are those of the local
    velocity, and the model's z velocity is not reported. *)
Theorem GetGlobalVelocity_rotates fuel w m X z0 :
  models w !! m = Some X ->
  rooted w fuel m = true ->
  exists g v w',
    global_pose_of w fuel m = Some g
    /\ GetGlobalVelocity fuel m z0 w = Ok (v, w')
    /\ pose_x v = (pose_x (velocity X) * cos (pose_a g)
                   - pose_y (velocity X) * sin (pose_a g))%R
    /\ pose_y v = (pose_x (velocity X) * sin (pose_a g)
                   + pose_y (velocity X) * cos (pose_a g))%R
    /\ (pose_x v * pose_x v + pose_y v * pose_y v
        = pose_x (velocity X) * pose_x (velocity X)
          + pose_y (velocity X) * pose_y (velocity X))%R
    /\ pose_a v = pose_a (velocity X)
    /\ pose_z v = z0.
Proof.
  intros HX Hr.
  destruct (GetGlobalPose_run fuel w m Hr) as (g & w1 & Hrun & Hspec & Hv).
  assert (Hvel : field velocity m w1 = field velocity m w).
  { apply view_field, raster_view_view; [reflexivity|exact Hv]. }
  unfold field in Hvel. rewrite HX in Hvel.
  destruct (models w1 !! m) as [X1|] eqn:HX1; [|discriminate].
  injection Hvel as Hvel.
  eexists g, _, w1. split; [exact Hspec|]. split.
  - unfold GetGlobalVelocity. mrun Hrun. mrun (get_model_run _ _ _ HX1). reflexivity.
  - rewrite Hvel. cbn [pose_x pose_y pose_z pose_a].
    pose proof (sin2_cos2 (pose_a g)) as H1. unfold Rsqr in H1.
    repeat split.
    transitivity ((pose_x (velocity X) * pose_x (velocity X)
                   + pose_y (velocity X) * pose_y (velocity X))
                  * (sin (pose_a g) * sin (pose_a g) + cos (pose_a g) * cos (pose_a g)))%R;
      [ring | rewrite H1; ring].
Qed.

Lemma GetGlobalVelocity_rotates_S1 :
  exists g v w',
    global_pose_of S1_world 2 1 = Some g
    /\ GetGlobalVelocity 2 1 0 S1_world = Ok (v, w')
    /\ pose_a v = pose_a (velocity S1_child)
    /\ pose_z v = 0%R.
Proof.
  destruct (GetGlobalVelocity_rotates 2 S1_world 1 S1_child 0 eq_refl eq_refl)
    as (g & v & w' & H1 & H2 & _ & _ & _ & H3 & H4).
  exists g, v, w'. auto.
Defined.

(** ** Points in the global frame *)

Lemma LocalToGlobal_run fuel w m X g p :
  models w !! m = Some X ->
  rooted w fuel m = true ->
  global_pose_of w fuel m = Some g ->
  exists w1,
    LocalToGlobal fuel m p w = Ok (pose_sum (pose_sum g (geom_pose (geom X))) p, w1)
    /\ raster_view w1 = raster_view w.
Proof.
  intros HX Hr Hg.
  destruct (GetGlobalPose_run fuel w m Hr) as (g' & w1 & Hrun & Hspec & Hv).
  assert (g' = g) as -> by congruence.
  destruct (raster_view_lookup _ _ _ _ Hv HX) as (X1 & HX1 & HB).
  apply blank_cache_fields in HB as (_ & _ & _ & Hgeom & _).
  exists w1. split; [|exact Hv].
  unfold LocalToGlobal. mrun Hrun. mrun (get_model_run _ _ _ HX1).
  rewrite Hgeom. reflexivity.
Qed.

(** X13: [LocalToGlobal] on points is a rigid motion: two points of the same
    model come out as far apart in the plane as they went in, and with
    the same difference of height. *)
Theorem LocalToGlobal_point_rigid fuel w m a b :
  rooted w fuel m = true ->
  exists a' w1 b' w2,
    LocalToGlobal_point fuel m a w = Ok (a', w1)
    /\ LocalToGlobal_point fuel m b w1 = Ok (b', w2)
    /\ ((pt3_x a' - pt3_x b') * (pt3_x a' - pt3_x b')
        + (pt3_y a' - pt3_y b') * (pt3_y a' - pt3_y b')
        = (pt3_x a - pt3_x b) * (pt3_x a - pt3_x b)
          + (pt3_y a - pt3_y b) * (pt3_y a - pt3_y b))%R
    /\ (pt3_z a' - pt3_z b' = pt3_z a - pt3_z b)%R.
Proof.
  intros Hr.
  destruct (GetGlobalPose_run fuel w m Hr) as (g & _ & _ & Hspec & _).
  assert (exists X, models w !! m = Some X) as [X HX].
  { destruct fuel; [discriminate|]. cbn [rooted] in Hr.
    destruct (models w !! m); [eauto|discriminate]. }
  destruct (LocalToGlobal_run fuel w m X g
              (mk_pose (pt3_x a) (pt3_y a) (pt3_z a) 0) HX Hr Hspec) as (w1 & Hrun1 & Hv1).
  destruct (raster_view_lookup _ _ _ _ Hv1 HX) as (X1 & HX1 & HB).
  apply blank_cache_fields in HB as (_ & _ & _ & Hgeom & _).
  destruct (rooted_global_pose_of_view w w1 fuel m (raster_view_models _ _ Hv1))
    as [Hr1 Hs1].
  destruct (LocalToGlobal_run fuel w1 m X1 g
              (mk_pose (pt3_x b) (pt3_y b) (pt3_z b) 0) HX1) as (w2 & Hrun2 & _);
    [congruence|congruence|].
  eexists _, w1, _, w2. split; [|split].
  - unfold LocalToGlobal_point. mrun Hrun1. reflexivity.
  - unfold LocalToGlobal_point. mrun Hrun2. reflexivity.
  - rewrite Hgeom. cbn [pt3_x pt3_y pt3_z].
    set (G := pose_sum g (geom_pose (geom X))).
    unfold pose_sum. cbn [pose_x pose_y pose_z pose_a].
    pose proof (sin2_cos2 (pose_a G)) as H1. unfold Rsqr in H1.
    split; [|ring].
    transitivity (((pt3_x a - pt3_x b) * (pt3_x a - pt3_x b)
                   + (pt3_y a - pt3_y b) * (pt3_y a - pt3_y b))
                  * (sin (pose_a G) * sin (pose_a G) + cos (pose_a G) * cos (pose_a G)))%R;
      [ring | rewrite H1; ring].
Qed.

Lemma LocalToGlobal_point_rigid_S1 :
  exists a' w1 b' w2,
    LocalToGlobal_point 2 1 (mk_point3 0 0 0) S1_world = Ok (a', w1)
    /\ LocalToGlobal_point 2 1 (mk_point3 3 4 1) w1 = Ok (b', w2)
    /\ ((pt3_x a' - pt3_x b') * (pt3_x a' - pt3_x b')
        + (pt3_y a' - pt3_y b') * (pt3_y a' - pt3_y b')
        = (0 - 3) * (0 - 3) + (0 - 4) * (0 - 4))%R
    /\ (pt3_z a' - pt3_z b' = 0 - 1)%R.
Proof.
  exact (LocalToGlobal_point_rigid 2 S1_world 1 (mk_point3 0 0 0) (mk_point3 3 4 1) eq_refl).
Defined.

Lemma pose_sum_zero_r p : pose_sum p pose_zero = p.
Proof.
  destruct p as [x y z a]. unfold pose_sum, pose_zero, new_pose. simpl. f_equal; ring.
Qed.

(** X14: The round trip from the global frame and back: [LocalToGlobal]
    applied to what [GlobalToLocal] made of a global pose gives that pose
    back in x, y and heading when the model's geometry has no offset.
    The z is not given back: it comes out raised by the model's global
    z, which [GlobalToLocal] never took off. *)
Theorem GlobalToLocal_LocalToGlobal fuel w m X g q :
  models w !! m = Some X ->
  rooted w fuel m = true ->
  global_pose_of w fuel m = Some g ->
  geom_pose (geom X) = pose_zero ->
  exists l w1 r w2,
    GlobalToLocal fuel m q w = Ok (l, w1)
    /\ LocalToGlobal fuel m l w1 = Ok (r, w2)
    /\ pose_x r = pose_x q /\ pose_y r = pose_y q /\ pose_a r = pose_a q
    /\ pose_z r = (pose_z g + pose_z q)%R.
Proof.
  intros HX Hr Hg Hgeom.
  destruct (GetGlobalPose_run fuel w m Hr) as (g' & w1 & Hrun & Hspec & Hv).
  assert (g' = g) as -> by congruence.
  destruct (raster_view_lookup _ _ _ _ Hv HX) as (X1 & HX1 & HB).
  apply blank_cache_fields in HB as (_ & _ & _ & Hgeom1 & _).
  destruct (rooted_global_pose_of_view w w1 fuel m (raster_view_models _ _ Hv))
    as [Hr1 Hs1].
  destruct (LocalToGlobal_run fuel w1 m X1 g (global_to_local g q) HX1) as (w2 & Hrun2 & _);
    [congruence|congruence|].
  eexists _, w1, _, w2. split; [|split; [exact Hrun2|]].
  - unfold GlobalToLocal. mrun Hrun. reflexivity.
  - rewrite Hgeom1, Hgeom, pose_sum_zero_r, pose_sum_global_to_local. simpl. auto.
Qed.

Lemma GlobalToLocal_LocalToGlobal_S1 :
  exists l w1 r w2,
    GlobalToLocal 2 1 (new_pose 5 6 7 1) S1_world = Ok (l, w1)
    /\ LocalToGlobal 2 1 l w1 = Ok (r, w2)
    /\ pose_x r = 5%R /\ pose_y r = 6%R /\ pose_a r = 1%R.
Proof.
  destruct (GlobalToLocal_LocalToGlobal 2 S1_world 1 S1_child
              (add_z 0.2 (pose_sum (new_pose 1 0 0 (PI / 2)) (new_pose 1 0 0 0)))
              (new_pose 5 6 7 1) eq_refl eq_refl eq_refl eq_refl)
    as (l & w1 & r & w2 & H1 & H2 & H3 & H4 & H5 & _).
  exists l, w1, r, w2. auto.
Defined.

(** ** Moving a model: [AddToPose] and [SetGlobalPose] *)






Lemma rooted_lookup w n m : rooted w n m = true -> exists X, models w !! m = Some X.
Proof.
  destruct n; [discriminate|]. cbn [rooted].
  destruct (models w !! m); [eauto|discriminate].
Qed.




(** ** Subscriptions, continued *)

Lemma Startup_keeps_total m : keeps total_subs (Startup m).
Proof.
  unfold Startup, log_event, StartUpdatingModel, CallCallbacks.
  keeps_tac; intros w0; try reflexivity.
  destruct (g_list_find (update_list w0) m); reflexivity.
Qed.

Lemma Shutdown_keeps_total m : keeps total_subs (Shutdown m).
Proof.
  unfold Shutdown, StopUpdatingModel, CallCallbacks.
  keeps_tac; intros w0; reflexivity.
Qed.

Lemma sum_subs_insert l : forall m X d,
  l !! m = Some X ->
  sum_subs (<[m := set_subs (subs X + d) X]> l) = (sum_subs l + d)%Z.
Proof.
  induction l as [|Y l IH]; intros m X d H; [discriminate|].
  destruct m as [|m]; simpl in *.
  - injection H as ->. lia.
  - rewrite (IH m X d H). lia.
Qed.

Lemma step_sub_counts d (c : M unit) w m X w' :
  total_subs w = sum_subs (models w) ->
  models w !! m = Some X ->
  keeps total_subs c -> keeps models c ->
  c (after_sub d m X w) = Ok (tt, w') ->
  total_subs w' = sum_subs (models w').
Proof.
  intros Hinv HX Ht Hm Hrun.
  rewrite (Ht _ _ _ Hrun), (Hm _ _ _ Hrun).
  cbn [after_sub total_subs models set_total_subs set_models].
  rewrite (sum_subs_insert _ _ _ _ HX). lia.
Qed.

Lemma Startup_keeps_models m : keeps models (Startup m).
Proof.
  unfold Startup, log_event, StartUpdatingModel, CallCallbacks.
  keeps_tac; intros w0; try reflexivity.
  destruct (g_list_find (update_list w0) m); reflexivity.
Qed.

Lemma Shutdown_keeps_models m : keeps models (Shutdown m).
Proof.
  unfold Shutdown, StopUpdatingModel, CallCallbacks.
  keeps_tac; intros w0; reflexivity.
Qed.

Lemma Subscribe_total w m X :
  models w !! m = Some X -> exists w', Subscribe m w = Ok (tt, w').
Proof.
  intros HX. rewrite (Subscribe_run _ _ _ HX).
  destruct (subs X + 1 =? 1)%Z; [|unfold ret; eauto].
  destruct (Startup_spec (after_sub 1 m X w) m (set_subs (subs X + 1) X)) as (w' & H & _);
    [eapply lookup_modified_eq; eauto|eauto].
Qed.

Lemma Unsubscribe_total w m X :
  models w !! m = Some X -> exists w', Unsubscribe m w = Ok (tt, w').
Proof.
  intros HX. rewrite (Unsubscribe_run _ _ _ HX).
  destruct (subs X - 1 <? 1)%Z; [|unfold ret; eauto].
  destruct (Shutdown_spec (after_sub (-1) m X w) m) as (w' & H & _). eauto.
Qed.

(** X17: The world's [total_subs] keeps count of the subscriptions of its
    models: when it equals the sum of the models' counts, it still does
    after [Subscribe], after [Unsubscribe] (also when a count goes below
    zero) and after [Init]. *)
Theorem total_subs_is_sum w m X :
  total_subs w = sum_subs (models w) ->
  models w !! m = Some X ->
  (exists w', Subscribe m w = Ok (tt, w') /\ total_subs w' = sum_subs (models w'))
  /\ (exists w', Unsubscribe m w = Ok (tt, w') /\ total_subs w' = sum_subs (models w'))
  /\ (exists w', Init m w = Ok (tt, w') /\ total_subs w' = sum_subs (models w')).
Proof.
  intros Hinv HX.
  assert (Hsub : exists w', Subscribe m w = Ok (tt, w')
                            /\ total_subs w' = sum_subs (models w')).
  { destruct (Subscribe_total w m X HX) as (w' & Hrun). exists w'. split; [exact Hrun|].
    rewrite (Subscribe_run _ _ _ HX) in Hrun.
    eapply (step_sub_counts 1); [exact Hinv|exact HX| | |exact Hrun];
      destruct (subs X + 1 =? 1)%Z;
      first [apply Startup_keeps_total | apply Startup_keeps_models | apply keeps_ret]. }
  split; [exact Hsub|]. split.
  - destruct (Unsubscribe_total w m X HX) as (w' & Hrun). exists w'. split; [exact Hrun|].
    rewrite (Unsubscribe_run _ _ _ HX) in Hrun.
    eapply (step_sub_counts (-1)); [exact Hinv|exact HX| | |exact Hrun];
      destruct (subs X - 1 <? 1)%Z;
      first [apply Shutdown_keeps_total | apply Shutdown_keeps_models | apply keeps_ret].
  - unfold Init. mrun (get_model_run _ _ _ HX).
    destruct (initfunc X); [exact Hsub|]. exists w. split; [reflexivity|exact Hinv].
Qed.

Lemma total_subs_is_sum_S5 :
  (exists w', Subscribe 0 S5_world = Ok (tt, w') /\ total_subs w' = sum_subs (models w'))
  /\ (exists w', Unsubscribe 0 S5_world = Ok (tt, w')
                 /\ total_subs w' = sum_subs (models w'))
  /\ (exists w', Init 0 S5_world = Ok (tt, w') /\ total_subs w' = sum_subs (models w')).
Proof.
  apply (total_subs_is_sum S5_world 0 (set_initfunc true (new_model None))); reflexivity.
Defined.

(** X18: [Init] subscribes the model once when it has an [initfunc] and does
    nothing otherwise.  The [initfunc] runs, followed by the startup
    callback, only when the model had no subscription yet; the update
    list stays in step with the counts. *)
Theorem Init_subscribes w m X :
  update_inv w ->
  models w !! m = Some X ->
  exists w',
    Init m w = Ok (tt, w')
    /\ update_inv w'
    /\ field subs m w' = Some (if initfunc X then subs X + 1 else subs X)%Z
    /\ events w'
       = events w ++ (if initfunc X && (subs X =? 0)%Z
                      then [EvInit m; EvCallback m K_startup_hook] else [])
    /\ (initfunc X = false -> w' = w).
Proof.
  intros Hinv HX. unfold Init. mrun (get_model_run _ _ _ HX).
  destruct (initfunc X) eqn:Hi.
  - destruct (Subscribe_spec w m X Hinv HX) as (w' & Hrun & Hinv' & Hs & Hev).
    exists w'. split; [exact Hrun|]. split; [exact Hinv'|]. split; [exact Hs|].
    split; [|discriminate].
    rewrite Hev. unfold startup_events. rewrite Hi. simpl.
    destruct (subs X =? 0)%Z; reflexivity.
  - exists w. split; [reflexivity|]. split; [exact Hinv|].
    split; [unfold field; now rewrite HX|]. split; [|reflexivity].
    simpl. now rewrite app_nil_r.
Qed.

Lemma Init_subscribes_S5 :
  exists w',
    Init 0 S5_world = Ok (tt, w')
    /\ update_inv w'
    /\ field subs 0 w' = Some 1%Z
    /\ events w' = [EvInit 0; EvCallback 0 K_startup_hook].
Proof.
  destruct (Init_subscribes S5_world 0 (set_initfunc true (new_model None)))
    as (w' & H1 & H2 & H3 & H4 & _); [|reflexivity|].
  - apply update_inv_new. repeat constructor.
  - exists w'. auto.
Defined.

Lemma g_list_remove_notin l m : g_list_find l m = false -> g_list_remove l m = l.
Proof.
  induction l as [|x l IH]; [reflexivity|].
  unfold g_list_find. cbn [existsb g_list_remove]. rewrite (Nat.eqb_sym m x).
  destruct (Nat.eqb x m); [discriminate|]. cbn [orb]. intros H. f_equal. exact (IH H).
Qed.

Lemma g_list_remove_append l m :
  g_list_find l m = false -> g_list_remove (g_list_append l m) m = l.
Proof.
  induction l as [|x l IH].
  - intros _. unfold g_list_append. simpl. now rewrite Nat.eqb_refl.
  - unfold g_list_find, g_list_append in *. cbn [existsb g_list_remove app].
    rewrite (Nat.eqb_sym m x).
    destruct (Nat.eqb x m); [discriminate|]. cbn [orb]. intros H. f_equal. exact (IH H).
Qed.

Lemma set_subs_back X d : set_subs (subs X + d - d) (set_subs (subs X + d) X) = X.
Proof.
  destruct X. unfold set_subs. simpl. f_equal. lia.
Qed.

(** X19: A [Subscribe] followed by an [Unsubscribe] leaves the models, the
    update list and the world's total as they were.  What runs in
    between depends on the count the pair started from: from 0, the
    startup sequence and then the shutdown callback; from a count of 1 or
    more, nothing; from a count below 0, the shutdown callback alone. *)
Theorem Subscribe_Unsubscribe_pair w m X :
  update_inv w ->
  models w !! m = Some X ->
  exists w1 w2,
    Subscribe m w = Ok (tt, w1)
    /\ Unsubscribe m w1 = Ok (tt, w2)
    /\ models w2 = models w
    /\ update_list w2 = update_list w
    /\ total_subs w2 = total_subs w
    /\ events w2
       = events w ++ (if (subs X =? 0)%Z
                      then startup_events m X ++ [EvCallback m K_shutdown_hook]
                      else if (subs X <? 0)%Z then [EvCallback m K_shutdown_hook]
                      else []).
Proof.
  intros [Hnd Hinv] HX.
  assert (Hfind := Hinv _ _ HX).
  set (wa := after_sub 1 m X w).
  set (Xa := set_subs (subs X + 1) X).
  assert (HXa : models wa !! m = Some Xa) by (eapply lookup_modified_eq; eauto).
  (* the first call *)
  assert (H1 : exists w1,
             Subscribe m w = Ok (tt, w1)
             /\ models w1 = models wa
             /\ total_subs w1 = (total_subs w + 1)%Z
             /\ update_list w1 = (if (subs X =? 0)%Z then g_list_append (update_list w) m
                                  else update_list w)
             /\ events w1 = events w ++ (if (subs X =? 0)%Z then startup_events m X else [])).
  { rewrite (Subscribe_run _ _ _ HX). fold wa.
    destruct (Z.eqb_spec (subs X + 1) 1) as [E|E].
    - assert (H0 : subs X = 0%Z) by lia.
      rewrite H0 in Hfind. change (1 <=? 0)%Z with false in Hfind.
      destruct (Startup_spec wa m Xa HXa) as (w1 & Hrun & Hms & Hul & Hev).
      exists w1. split; [exact Hrun|]. split; [exact Hms|]. split; [|split].
      + exact (Startup_keeps_total m _ _ _ Hrun).
      + rewrite Hul. change (update_list wa) with (update_list w).
        rewrite Hfind, H0. reflexivity.
      + rewrite Hev, H0. reflexivity.
    - exists wa. split; [reflexivity|]. split; [reflexivity|]. split; [reflexivity|].
      destruct (Z.eqb_spec (subs X) 0); [lia|]. split; [reflexivity|].
      simpl. now rewrite app_nil_r. }
  destruct H1 as (w1 & Hrun1 & Hms1 & Ht1 & Hul1 & Hev1).
  assert (HX1 : models w1 !! m = Some Xa) by (rewrite Hms1; exact HXa).
  (* the second call *)
  set (wb := after_sub (-1) m Xa w1).
  assert (Hmsb : models wb = models w).
  { unfold wb. cbn [after_sub models set_models set_total_subs].
    rewrite Hms1. unfold wa. cbn [after_sub models set_models set_total_subs].
    rewrite list_insert_insert_eq.
    unfold Xa. cbn [subs set_subs].
    replace (subs X + 1 + -1)%Z with (subs X + 1 - 1)%Z by lia.
    rewrite set_subs_back. now apply list_insert_id. }
  assert (Htb : total_subs wb = total_subs w).
  { unfold wb. cbn [after_sub total_subs set_total_subs]. lia. }
  pose proof (Unsubscribe_run _ _ _ HX1) as Hun. fold wb in Hun.
  change (subs Xa) with (subs X + 1)%Z in Hun.
  destruct (Shutdown_spec wb m) as (w2 & Hrun2 & Hms2 & Hul2 & Hev2).
  change (update_list wb) with (update_list w1) in Hul2.
  change (events wb) with (events w1) in Hev2.
  exists w1.
  destruct (Z.ltb_spec (subs X + 1 - 1) 1) as [E|E].
  - exists w2. split; [exact Hrun1|]. split; [rewrite Hun; exact Hrun2|].
    split; [congruence|]. split; [|split].
    + rewrite Hul2, Hul1.
      destruct (Z.eqb_spec (subs X) 0) as [H0|H0].
      * apply g_list_remove_append. rewrite Hfind, H0. reflexivity.
      * apply g_list_remove_notin. rewrite Hfind. apply Z.leb_gt. lia.
    + rewrite (Shutdown_keeps_total m _ _ _ Hrun2). exact Htb.
    + rewrite Hev2, Hev1, <- app_assoc. f_equal.
      destruct (Z.eqb_spec (subs X) 0) as [H0|H0]; [reflexivity|].
      destruct (Z.ltb_spec (subs X) 0); [reflexivity|lia].
  - exists wb. split; [exact Hrun1|]. split; [rewrite Hun; reflexivity|].
    split; [exact Hmsb|]. split; [|split].
    + change (update_list wb) with (update_list w1). rewrite Hul1.
      destruct (Z.eqb_spec (subs X) 0); [lia|reflexivity].
    + exact Htb.
    + change (events wb) with (events w1). rewrite Hev1.
      destruct (Z.eqb_spec (subs X) 0); [lia|].
      destruct (Z.ltb_spec (subs X) 0); [lia|reflexivity].
Qed.

Lemma Subscribe_Unsubscribe_pair_S5 :
  exists w1 w2,
    Subscribe 0 S5_world = Ok (tt, w1)
    /\ Unsubscribe 0 w1 = Ok (tt, w2)
    /\ models w2 = models S5_world
    /\ update_list w2 = []
    /\ total_subs w2 = 0%Z
    /\ events w2 = [EvInit 0; EvCallback 0 K_startup_hook; EvCallback 0 K_shutdown_hook].
Proof.
  apply (Subscribe_Unsubscribe_pair S5_world 0 (set_initfunc true (new_model None)));
    [|reflexivity].
  apply update_inv_new. repeat constructor.
Defined.

(** ** [SetVelocity], continued *)

Lemma SetVelocity_starts w m X v :
  models w !! m = Some X ->
  on_velocity_list X = false ->
  velocity_is_nonzero v = true ->
  exists w1,
    SetVelocity m v w = Ok (tt, w1)
    /\ velocity_list w1 = m :: velocity_list w
    /\ models w1 !! m = Some (set_on_velocity_list true (set_velocity v X))
    /\ events w1 = events w ++ [EvCallback m K_velocity].
Proof.
  intros HX Hon Hnz.
  assert (Hlen : m < length (models w)) by (eapply lookup_lt_Some; eauto).
  unfold SetVelocity, bind, modify_model, get_model, modify_world, CallCallbacks, ret.
  rewrite HX. world_cbn.
  rewrite (lookup_insert_Some _ _ _ _ HX).
  cbn [on_velocity_list velocity set_velocity].
  repeat (progress
            (world_cbn;
             cbn [on_velocity_list velocity set_velocity set_on_velocity_list negb andb];
             rewrite ?Hnz, ?Hon;
             rewrite ?list_lookup_insert_eq by (rewrite ?length_insert; exact Hlen))).
  eexists. split; [reflexivity|]. world_cbn.
  rewrite ?list_lookup_insert_eq by (rewrite ?length_insert; exact Hlen).
  auto.
Qed.

Lemma SetVelocity_stops w m Y v :
  models w !! m = Some Y ->
  on_velocity_list Y = true ->
  velocity_is_nonzero v = false ->
  exists w2,
    SetVelocity m v w = Ok (tt, w2)
    /\ velocity_list w2 = g_list_remove (velocity_list w) m
    /\ models w2 !! m = Some (set_on_velocity_list false (set_velocity v Y))
    /\ events w2 = events w ++ [EvCallback m K_velocity].
Proof.
  intros HY Hon Hnz.
  assert (Hlen : m < length (models w)) by (eapply lookup_lt_Some; eauto).
  unfold SetVelocity, bind, modify_model, get_model, modify_world, CallCallbacks, ret.
  rewrite HY. world_cbn.
  rewrite (lookup_insert_Some _ _ _ _ HY).
  cbn [on_velocity_list velocity set_velocity].
  repeat (progress
            (world_cbn;
             cbn [on_velocity_list velocity set_velocity set_on_velocity_list negb andb];
             rewrite ?Hnz, ?Hon;
             rewrite ?list_lookup_insert_eq by (rewrite ?length_insert; exact Hlen))).
  eexists. split; [reflexivity|]. world_cbn.
  rewrite ?list_lookup_insert_eq by (rewrite ?length_insert; exact Hlen).
  auto.
Qed.

(** X20: Setting a model in motion and stopping it again leaves the world's
    velocity list exactly as it was: [SetVelocity] with a nonzero
    velocity puts the model at the head of the list, [SetVelocity] with
    the zero velocity takes that entry out, and each call fires the
    velocity callback. *)
Theorem SetVelocity_start_stop w m X v :
  models w !! m = Some X ->
  on_velocity_list X = false ->
  velocity_is_nonzero v = true ->
  exists w1 w2,
    SetVelocity m v w = Ok (tt, w1)
    /\ velocity_list w1 = m :: velocity_list w
    /\ SetVelocity m pose_zero w1 = Ok (tt, w2)
    /\ velocity_list w2 = velocity_list w
    /\ field on_velocity_list m w2 = Some false
    /\ field velocity m w2 = Some pose_zero
    /\ events w2 = events w ++ [EvCallback m K_velocity; EvCallback m K_velocity].
Proof.
  intros HX Hon Hnz.
  destruct (SetVelocity_starts w m X v HX Hon Hnz) as (w1 & Hrun1 & Hvl1 & HX1 & Hev1).
  assert (Hz : velocity_is_nonzero pose_zero = false).
  { unfold velocity_is_nonzero, nonzero, pose_zero, new_pose. simpl.
    destruct (Req_dec_T 0 0); [reflexivity|contradiction]. }
  destruct (SetVelocity_stops w1 m _ pose_zero HX1 eq_refl Hz)
    as (w2 & Hrun2 & Hvl2 & HX2 & Hev2).
  exists w1, w2. split; [exact Hrun1|]. split; [exact Hvl1|]. split; [exact Hrun2|].
  split; [|split; [|split]].
  - rewrite Hvl2, Hvl1. simpl. now rewrite Nat.eqb_refl.
  - unfold field. rewrite HX2. reflexivity.
  - unfold field. rewrite HX2. reflexivity.
  - rewrite Hev2, Hev1, <- app_assoc. reflexivity.
Qed.

Lemma SetVelocity_start_stop_S1 :
  exists w1 w2,
    SetVelocity 1 (new_pose 1 0 0 0) S1_world = Ok (tt, w1)
    /\ velocity_list w1 = [1]
    /\ SetVelocity 1 pose_zero w1 = Ok (tt, w2)
    /\ velocity_list w2 = []
    /\ field on_velocity_list 1 w2 = Some false
    /\ field velocity 1 w2 = Some pose_zero
    /\ events w2 = [EvCallback 1 K_velocity; EvCallback 1 K_velocity].
Proof.
  apply (SetVelocity_start_stop S1_world 1 S1_child (new_pose 1 0 0 0));
    [reflexivity|reflexivity|].
  apply velocity_is_nonzero_iff. left. simpl. lra.
Defined.

(** ** Flags *)

Lemma PopFlag_cons f l : PopFlag (f :: l) = (Some f, l).
Proof. unfold PopFlag. cbn [g_list_remove]. now rewrite Nat.eqb_refl. Qed.

Lemma pop_flags_all l : forall n, length l <= n -> pop_flags n l = l.
Proof.
  induction l as [|f l IH]; intros n Hn.
  - destruct n; reflexivity.
  - destruct n as [|n]; [simpl in Hn; lia|].
    cbn [pop_flags]. rewrite PopFlag_cons. f_equal. apply IH. simpl in Hn. lia.
Qed.

Lemma fold_AddFlag fs : forall l, fold_left AddFlag (map Some fs) l = l ++ fs.
Proof.
  induction fs as [|f fs IH]; intros l; cbn [map fold_left].
  - now rewrite app_nil_r.
  - rewrite IH. unfold AddFlag, g_list_append. now rewrite <- app_assoc.
Qed.

Lemma fold_PushFlag fs : forall l, fold_left PushFlag (map Some fs) l = rev fs ++ l.
Proof.
  induction fs as [|f fs IH]; intros l; cbn [map fold_left rev]; [reflexivity|].
  rewrite IH. unfold PushFlag, g_list_prepend. now rewrite <- app_assoc.
Qed.

(** X21: The flag list is a queue under [AddFlag] and a stack under
    [PushFlag]: [PopFlag] takes the flag at the head, only that entry
    even when the same flag is held again further down, so flags that
    were added come out in the order they went in and flags that were
    pushed come out last first.  On an empty list [PopFlag] hands back
    null, and a null flag is neither added nor pushed. *)
Theorem flag_list_order l fs :
  pop_flags (length l + length fs) (fold_left AddFlag (map Some fs) l) = l ++ fs
  /\ pop_flags (length fs + length l) (fold_left PushFlag (map Some fs) l) = rev fs ++ l
  /\ (forall f, PopFlag (PushFlag l (Some f)) = (Some f, l))
  /\ PopFlag [] = (None, [])
  /\ AddFlag l None = l /\ PushFlag l None = l.
Proof.
  split; [|split; [|split]].
  - rewrite fold_AddFlag. apply pop_flags_all. rewrite length_app. lia.
  - rewrite fold_PushFlag. apply pop_flags_all. rewrite length_app, length_rev. lia.
  - intros f. apply PopFlag_cons.
  - auto.
Qed.

(** X22: [RemoveFlag] takes out one entry, the first one that holds the flag:
    the number of entries holding that flag goes down by one, or stays 0
    when the list did not hold it, and the entries of the other flags
    are all kept. *)
Theorem RemoveFlag_removes_one l f g :
  count_occ Nat.eq_dec (RemoveFlag l (Some f)) g
  = if Nat.eqb g f then pred (count_occ Nat.eq_dec l f) else count_occ Nat.eq_dec l g.
Proof.
  unfold RemoveFlag.
  induction l as [|x l IH]; cbn [g_list_remove count_occ].
  - destruct (Nat.eqb g f); reflexivity.
  - destruct (Nat.eqb_spec x f) as [Exf|Hxf].
    + destruct (Nat.eq_dec x f) as [_|]; [|contradiction].
      destruct (Nat.eqb_spec g f) as [Egf|Hgf].
      * rewrite Egf. reflexivity.
      * destruct (Nat.eq_dec x g); [congruence|reflexivity].
    + cbn [count_occ]. rewrite IH.
      destruct (Nat.eq_dec x f) as [|_]; [contradiction|].
      destruct (Nat.eqb_spec g f) as [Egf|Hgf].
      * destruct (Nat.eq_dec x g); [congruence|reflexivity].
      * reflexivity.
Qed.

(** ** Models without blocks *)

Lemma stg_block_list_destroy_keeps {T} (phi : StgWorld -> T) refs :
  bitmap_blind phi -> keeps phi (stg_block_list_destroy refs).
Proof.
  intros H. unfold stg_block_list_destroy, StgBlock_UnMap. frame.
Qed.

Lemma view_compose {T U} (g : StgModel -> T) (h : T -> U) w w' :
  view g w' = view g w -> view (fun Y => h (g Y)) w' = view (fun Y => h (g Y)) w.
Proof.
  unfold view. intros H. apply (f_equal (fmap h)) in H.
  now rewrite <- !list_fmap_compose in H.
Qed.

Lemma ClearBlocks_run fuel w m X :
  models w !! m = Some X ->
  rooted w fuel m = true ->
  exists w',
    ClearBlocks fuel m w = Ok (tt, w')
    /\ field blocks m w' = Some []
    /\ (forall e, In e (bitmap w') <-> In e (bitmap w) /\ ~ In e (block_refs m X))
    /\ view (fun Y => (parent Y, children Y, pose Y, disabled Y)) w'
       = view (fun Y => (parent Y, children Y, pose Y, disabled Y)) w
    /\ events w' = events w.
Proof.
  intros HX Hr.
  destruct (for_each_UnMap_run (block_refs m X) w) as (w1 & Hun & Hbm1).
  assert (Hms1 : models w1 = models w).
  { apply (stg_block_list_destroy_keeps models (block_refs m X) models_bitmap_blind
             _ _ _ Hun). }
  assert (Hev1 : events w1 = events w).
  { apply (stg_block_list_destroy_keeps events (block_refs m X) events_bitmap_blind
             _ _ _ Hun). }
  assert (HX1 : models w1 !! m = Some X) by (now rewrite Hms1).
  set (X2 := set_blocks [] X).
  set (w2 := set_models (<[m := X2]> (models w1)) w1).
  assert (HX2 : models w2 !! m = Some X2) by (eapply lookup_modified_eq; eauto).
  assert (Hv2 : forall T (g : StgModel -> T),
             (forall v Y, g (set_blocks v Y) = g Y) -> view g w2 = view g w).
  { intros T g Hg. transitivity (view g w1).
    - exact (view_blind g (set_blocks []) (Hg _) w1 m X HX1).
    - unfold view. now rewrite Hms1. }
  assert (Hr2 : rooted w2 fuel m = true).
  { rewrite <- Hr. apply rooted_view, Hv2. reflexivity. }
  destruct (NeedRedraw_marks fuel w2 m Hr2) as (w' & Hnr & _ & _ & Hv' & Hbm' & Hev').
  exists w'. split; [|split; [|split; [|split]]].
  - unfold ClearBlocks. mrun (get_model_run _ _ _ HX).
    change (stg_block_list_destroy (block_refs m X))
      with (for_each (block_refs m X) StgBlock_UnMap).
    mrun Hun. mrun (modify_model_run _ (set_blocks []) _ _ HX1). exact Hnr.
  - pose proof (view_compose _ blocks _ _ Hv') as Hb.
    apply (view_field _ _ _ m) in Hb. unfold field in *.
    rewrite HX2 in Hb. simpl in Hb.
    destruct (models w' !! m); [|discriminate]. simpl in *. exact Hb.
  - intros e. rewrite Hbm'. exact (Hbm1 e).
  - rewrite <- (Hv2 _ (fun Y => (parent Y, children Y, pose Y, disabled Y)))
      by reflexivity.
    exact (view_compose _ (fun Y => (parent Y, children Y, pose Y, disabled Y)) _ _ Hv').
  - now rewrite Hev', <- Hev1.
Qed.

Section Blockless.

Variable world_Raytrace :
  StgWorld -> stg_pose_t -> R -> (block_ref -> model_id -> bool) ->
  model_id -> bool -> option block_ref.

(** X23: After [ClearBlocks] the model has no block, no entry of the spatial
    index refers to one of the blocks it had, and [TestCollision] finds
    it in collision with nothing, for any pose change and whatever the
    raytracer would report. *)
Theorem ClearBlocks_then_no_collision fuel w m X delta :
  models w !! m = Some X ->
  rooted w fuel m = true ->
  exists w',
    ClearBlocks fuel m w = Ok (tt, w')
    /\ field blocks m w' = Some []
    /\ (forall i, i < length (blocks X) -> ~ In (m, i) (bitmap w'))
    /\ (forall e, fst e <> m -> In e (bitmap w') <-> In e (bitmap w))
    /\ TestCollision world_Raytrace fuel m delta w' = Ok (None, w').
Proof.
  intros HX Hr.
  destruct (ClearBlocks_run fuel w m X HX Hr) as (w' & Hrun & Hb & Hbm & Hv & _).
  exists w'. split; [exact Hrun|]. split; [exact Hb|]. split; [|split].
  - intros i Hi Hin. apply Hbm in Hin as [_ Hn]. apply Hn, In_block_refs. auto.
  - intros e He. rewrite Hbm. split; [tauto|]. intros Hin. split; [exact Hin|].
    intros [Hf _]%In_block_refs. contradiction.
  - unfold field in Hb. destruct (models w' !! m) as [X'|] eqn:HX'; [|discriminate].
    injection Hb as Hb.
    assert (Hr' : rooted w' fuel m = true).
    { rewrite <- Hr. apply rooted_view.
      exact (view_compose _ (fun t => fst (fst (fst t))) _ _ Hv). }
    destruct (TestCollision_run world_Raytrace fuel w' m X' delta HX' Hr') as (_ & H & _).
    exact (H Hb).
Qed.

(** X24: A model without blocks is never stalled: [UpdatePose] clears its
    stall flag and moves it by its velocity, whatever lies in its way. *)
Theorem UpdatePose_blockless_moves fuel w m X :
  models w !! m = Some X ->
  disabled X = false ->
  blocks X = [] ->
  tree_ok w fuel m = true ->
  rooted w fuel m = true ->
  subtree_rooted w fuel m = true ->
  exists w',
    UpdatePose world_Raytrace fuel m w = Ok (tt, w')
    /\ field stall m w' = Some false
    /\ field pose m w'
       = Some (pose_after_SetPose (pose X) (pose_sum (pose X) (pose_delta w X))).
Proof.
  intros HX Hdis Hb Hok Hr Hsr.
  destruct (UpdatePose_run world_Raytrace fuel w m X HX Hdis Hok Hr Hsr)
    as (hit & w1 & w' & Htc & Hrun & _ & Hres).
  set (X0 := set_trail (checkpointed w X) X) in *.
  assert (HX0 : models (trail_checked w m X) !! m = Some X0)
    by (eapply lookup_modified_eq; eauto).
  assert (Hr0 : rooted (trail_checked w m X) fuel m = true).
  { rewrite <- Hr. apply rooted_view.
    exact (view_blind parent (set_trail (checkpointed w X)) (fun _ => eq_refl) w m X HX). }
  destruct (TestCollision_run world_Raytrace fuel _ m X0 (pose_delta w X) HX0 Hr0)
    as (_ & Hnone & _).
  rewrite (Hnone Hb) in Htc. injection Htc as <- _.
  exists w'. split; [exact Hrun|]. exact Hres.
Qed.

End Blockless.

Lemma ClearBlocks_then_no_collision_flank :
  exists w',
    ClearBlocks 1 0 flank_world = Ok (tt, w')
    /\ field blocks 0 w' = Some []
    /\ ~ In (0, 0) (bitmap w')
    /\ TestCollision flank_Raytrace 1 0 pose_zero w' = Ok (None, w').
Proof.
  destruct (ClearBlocks_then_no_collision flank_Raytrace 1 flank_world 0 _ pose_zero
              eq_refl eq_refl) as (w' & H1 & H2 & H3 & _ & H5).
  exists w'. split; [exact H1|]. split; [exact H2|]. split; [|exact H5].
  apply H3. simpl. lia.
Defined.

Lemma UpdatePose_blockless_moves_wall :
  exists w',
    UpdatePose wall_Raytrace 1 0 ghost_world = Ok (tt, w')
    /\ field stall 0 w' = Some false.
Proof.
  destruct (UpdatePose_blockless_moves wall_Raytrace 1 ghost_world 0 _
              eq_refl eq_refl eq_refl eq_refl eq_refl eq_refl) as (w' & H1 & H2 & _).
  exists w'. auto.
Defined.

(** ** [ScaleList] *)

Lemma least_step s x l r :
  least (if Rlt_dec x s then x else s) l r -> least s (x :: l) r.
Proof.
  intros (H1 & H2 & H3).
  destruct (Rlt_dec x s) as [Hlt|Hge].
  - split; [lra|]. split.
    + intros y [<-|Hy]; [exact H1|auto].
    + destruct H3 as [->|H3]; right; [now left|now right].
  - split; [exact H1|]. split.
    + intros y [<-|Hy]; [lra|auto].
    + destruct H3 as [->|H3]; [now left|right; now right].
Qed.

Lemma greatest_step s x l r :
  greatest (if Rlt_dec s x then x else s) l r -> greatest s (x :: l) r.
Proof.
  intros (H1 & H2 & H3).
  destruct (Rlt_dec s x) as [Hlt|Hge].
  - split; [lra|]. split.
    + intros y [<-|Hy]; [exact H1|auto].
    + destruct H3 as [->|H3]; right; [now left|now right].
  - split; [exact H1|]. split.
    + intros y [<-|Hy]; [lra|auto].
    + destruct H3 as [->|H3]; [now left|right; now right].
Qed.

Lemma least_nil s : least s [] s.
Proof. split; [lra|]. split; [intros x []|now left]. Qed.

Lemma greatest_nil s : greatest s [] s.
Proof. split; [lra|]. split; [intros x []|now left]. Qed.

Lemma least_app s l1 r1 l2 r2 :
  least s l1 r1 -> least r1 l2 r2 -> least s (l1 ++ l2) r2.
Proof.
  intros (A1 & A2 & A3) (B1 & B2 & B3). split; [lra|]. split.
  - intros x [Hx|Hx]%in_app_or; [specialize (A2 x Hx); lra|auto].
  - destruct B3 as [->|B3]; [|right; apply in_or_app; now right].
    destruct A3 as [->|A3]; [now left|right; apply in_or_app; now left].
Qed.

Lemma greatest_app s l1 r1 l2 r2 :
  greatest s l1 r1 -> greatest r1 l2 r2 -> greatest s (l1 ++ l2) r2.
Proof.
  intros (A1 & A2 & A3) (B1 & B2 & B3). split; [lra|]. split.
  - intros x [Hx|Hx]%in_app_or; [specialize (A2 x Hx); lra|auto].
  - destruct B3 as [->|B3]; [|right; apply in_or_app; now right].
    destruct A3 as [->|A3]; [now left|right; apply in_or_app; now left].
Qed.

Lemma scan_points_spec pts : forall b,
  let b' := fold_left scan_point pts b in
  least (minx b) (map pt_x pts) (minx b')
  /\ least (miny b) (map pt_y pts) (miny b')
  /\ greatest (maxx b) (map pt_x pts) (maxx b')
  /\ greatest (maxy b) (map pt_y pts) (maxy b')
  /\ maxz b' = maxz b.
Proof.
  induction pts as [|pt pts IH]; intros b; cbn [fold_left map].
  - split; [apply least_nil|]. split; [apply least_nil|].
    split; [apply greatest_nil|]. split; [apply greatest_nil|reflexivity].
  - destruct (IH (scan_point b pt)) as (H1 & H2 & H3 & H4 & H5).
    cbn [scan_point minx miny maxx maxy maxz] in *.
    split; [now apply least_step|]. split; [now apply least_step|].
    split; [now apply greatest_step|]. split; [now apply greatest_step|exact H5].
Qed.

Lemma scan_blocks_spec bs : forall b,
  let b' := fold_left scan_block bs b in
  least (minx b) (map pt_x (all_points bs)) (minx b')
  /\ least (miny b) (map pt_y (all_points bs)) (miny b')
  /\ greatest (maxx b) (map pt_x (all_points bs)) (maxx b')
  /\ greatest (maxy b) (map pt_y (all_points bs)) (maxy b')
  /\ greatest (maxz b) (map blk_zmax bs) (maxz b').
Proof.
  induction bs as [|blk bs IH]; intros b; cbn [fold_left map all_points flat_map].
  - split; [apply least_nil|]. split; [apply least_nil|].
    split; [apply greatest_nil|]. split; apply greatest_nil.
  - destruct (IH (scan_block b blk)) as (H1 & H2 & H3 & H4 & H5).
    destruct (scan_points_spec (blk_pts blk) b) as (P1 & P2 & P3 & P4 & P5).
    fold (all_points bs). rewrite !map_app.
    cbn [scan_block minx miny maxx maxy maxz] in *.
    split; [eapply least_app; eauto|]. split; [eapply least_app; eauto|].
    split; [eapply greatest_app; eauto|]. split; [eapply greatest_app; eauto|].
    apply greatest_step. now rewrite <- P5.
Qed.

Lemma scan_loop_run rbs : forall b w,
  exists w',
    for_fold rbs
      (fun rb b => StgBlock_UnMap (fst rb) ;; ret (scan_block b (snd rb))) b w
    = Ok (fold_left scan_block (map snd rbs) b, w')
    /\ models w' = models w
    /\ events w' = events w
    /\ (forall e, In e (bitmap w') <-> In e (bitmap w) /\ ~ In e (map fst rbs)).
Proof.
  induction rbs as [|[r blk] rbs IH]; intros b w; cbn [for_fold map fold_left fst snd].
  - exists w. split; [reflexivity|]. split; [reflexivity|]. split; [reflexivity|].
    intros e. simpl. tauto.
  - set (w1 := set_bitmap (List.filter (fun e => negb (block_ref_eqb e r)) (bitmap w)) w).
    destruct (IH (scan_block b blk) w1) as (w' & Hrun & Hms & Hev & Hbm).
    exists w'. split; [|split; [exact Hms|split; [exact Hev|]]].
    + unfold StgBlock_UnMap, modify_world, bind, ret in *. exact Hrun.
    + intros e. rewrite Hbm. unfold w1. cbn [bitmap set_bitmap].
      rewrite filter_In, negb_true_iff.
      split.
      * intros [[Hin Hne] Hn]. split; [exact Hin|].
        intros [<-|Hr]; [|contradiction].
        assert (block_ref_eqb r r = true) by (now apply block_ref_eqb_eq). congruence.
      * intros [Hin Hn]. split; [split; [exact Hin|]|].
        -- destruct (block_ref_eqb e r) eqn:E; [|reflexivity].
           apply block_ref_eqb_eq in E. exfalso. apply Hn. now left.
        -- intros Hr. apply Hn. now right.
Qed.

Lemma combine_fst_snd {A B} (l1 : list A) (l2 : list B) :
  length l1 = length l2 ->
  map fst (combine l1 l2) = l1 /\ map snd (combine l1 l2) = l2.
Proof.
  revert l2. induction l1 as [|a l1 IH]; intros [|b l2] H; try discriminate; [auto|].
  simpl in *. destruct (IH l2) as [-> ->]; [lia|auto].
Qed.


Lemma block_refs_length m X : length (block_refs m X) = length (blocks X).
Proof. unfold block_refs. now rewrite length_map, length_seq. Qed.

(** *** The second pass *)

Lemma bind_fault {A B} (c : M A) (k : A -> M B) w f :
  c w = Fault f -> bind c k w = Fault f.
Proof. intros H. unfold bind. now rewrite H. Qed.

Lemma nan_quotient_nonzero a b : b <> 0%R -> nan_quotient a b = false.
Proof. intros H. unfold nan_quotient. now destruct (Req_dec_T b 0). Qed.

Lemma nan_quotient_zero : nan_quotient 0 0 = true.
Proof. unfold nan_quotient. destruct (Req_dec_T 0 0); [reflexivity|contradiction]. Qed.

Lemma scale_points_run b size pts : forall done w,
  (maxx b - minx b <> 0)%R -> (maxy b - miny b <> 0)%R ->
  for_fold pts (fun pt done => q <- scale_point b size pt ;; ret (done ++ [q])) done w
  = Ok (done ++ blk_pts (scaled_block b size (mk_block pts 0 0 0 true)), w).
Proof.
  induction pts as [|pt pts IH]; intros done w Hx Hy; cbn [for_fold].
  - cbn [scaled_block blk_pts map]. now rewrite app_nil_r.
  - unfold bind at 1. unfold scale_point at 1, bind at 1. cbv zeta.
    rewrite !nan_quotient_nonzero by assumption. unfold ret at 1 2.
    rewrite IH by assumption. cbn [scaled_block blk_pts map].
    now rewrite <- app_assoc.
Qed.

Lemma scale_blocks_run b size bs : forall done w,
  (maxx b - minx b <> 0)%R -> (maxy b - miny b <> 0)%R ->
  for_fold bs (fun block done => blk <- scale_block b size block ;; ret (done ++ [blk]))
    done w
  = Ok (done ++ map (scaled_block b size) bs, w).
Proof.
  induction bs as [|blk bs IH]; intros done w Hx Hy; cbn [for_fold map].
  - now rewrite app_nil_r.
  - assert (Hblk : scale_block b size blk w = Ok (scaled_block b size blk, w)).
    { unfold scale_block. cbv zeta.
      mrun (scale_points_run b size (blk_pts blk) [] w Hx Hy). reflexivity. }
    mrun Hblk. rewrite (bind_run (ret _) _ w _ w eq_refl).
    rewrite IH by assumption. now rewrite <- app_assoc.
Qed.

(** A point whose quotient is NaN stops the pass. *)
Lemma scale_points_abort b size pts : forall done w,
  pts <> [] ->
  (forall pt, In pt pts ->
     nan_quotient (pt_x pt - minx b) (maxx b - minx b) = true
     \/ nan_quotient (pt_y pt - miny b) (maxy b - miny b) = true) ->
  for_fold pts (fun pt done => q <- scale_point b size pt ;; ret (done ++ [q])) done w
  = Fault AssertFailed.
Proof.
  intros done w Hne Hnan. destruct pts as [|pt pts]; [contradiction|].
  cbn [for_fold].
  assert (Hpt : scale_point b size pt w = Fault AssertFailed).
  { unfold scale_point. cbv zeta.
    destruct (Hnan pt (in_eq _ _)) as [-> | Hy]; [reflexivity|].
    rewrite Hy. now destruct (nan_quotient (pt_x pt - minx b) (maxx b - minx b)). }
  apply bind_fault, bind_fault, Hpt.
Qed.

Lemma scale_blocks_abort b size bs : forall done w,
  all_points bs <> [] ->
  (forall pt, In pt (all_points bs) ->
     nan_quotient (pt_x pt - minx b) (maxx b - minx b) = true
     \/ nan_quotient (pt_y pt - miny b) (maxy b - miny b) = true) ->
  for_fold bs (fun block done => blk <- scale_block b size block ;; ret (done ++ [blk]))
    done w
  = Fault AssertFailed.
Proof.
  induction bs as [|blk bs IH]; intros done w Hne Hnan; [contradiction|].
  cbn [for_fold].
  cbn [all_points flat_map] in *. fold (all_points bs) in *.
  destruct (blk_pts blk) as [|pt pts] eqn:Hpts.
  - assert (Hblk : exists blk', scale_block b size blk w = Ok (blk', w)).
    { unfold scale_block. cbv zeta. rewrite Hpts. eexists. reflexivity. }
    destruct Hblk as [blk' Hblk]. mrun Hblk. rewrite (bind_run (ret _) _ w _ w eq_refl).
    apply IH; [exact Hne|exact Hnan].
  - assert (Hblk : scale_block b size blk w = Fault AssertFailed).
    { unfold scale_block. cbv zeta. rewrite Hpts.
      apply bind_fault, scale_points_abort; [discriminate|].
      intros q Hq. apply Hnan. apply in_or_app. now left. }
    apply bind_fault, bind_fault, Hblk.
Qed.

Lemma ScaleList_first_pass m w X :
  models w !! m = Some X ->
  exists w1,
    for_fold (combine (block_refs m X) (blocks X))
      (fun rb b => StgBlock_UnMap (fst rb) ;; ret (scan_block b (snd rb))) bounds_start w
    = Ok (fold_left scan_block (blocks X) bounds_start, w1)
    /\ models w1 = models w
    /\ events w1 = events w
    /\ (forall e, In e (bitmap w1) <-> In e (bitmap w) /\ ~ In e (block_refs m X)).
Proof.
  intros HX.
  destruct (scan_loop_run (combine (block_refs m X) (blocks X)) bounds_start w)
    as (w1 & Hrun & Hms & Hev & Hbm).
  destruct (combine_fst_snd (block_refs m X) (blocks X) (block_refs_length m X))
    as [Hfst Hsnd].
  rewrite Hfst in Hbm. rewrite Hsnd in Hrun. eauto.
Qed.

Lemma ScaleList_run m w X size :
  models w !! m = Some X ->
  blocks X <> [] ->
  let b := fold_left scan_block (blocks X) bounds_start in
  (maxx b - minx b <> 0)%R -> (maxy b - miny b <> 0)%R ->
  exists w',
    ScaleList m size w
    = Ok (tt, w')
    /\ models w' !! m
       = Some (set_blocks (map (scaled_block b size) (blocks X)) X)
    /\ (forall d, d <> m -> models w' !! d = models w !! d)
    /\ (forall e, In e (bitmap w') <-> In e (bitmap w) /\ ~ In e (block_refs m X))
    /\ events w' = events w.
Proof.
  intros HX Hne b Hx Hy. unfold ScaleList. mrun (get_model_run _ _ _ HX).
  assert (Hlen : (length (blocks X) <? 1) = false)
    by (destruct (blocks X); [contradiction|reflexivity]).
  rewrite Hlen.
  destruct (ScaleList_first_pass m w X HX) as (w1 & Hrun & Hms & Hev & Hbm).
  mrun Hrun. subst b.
  mrun (scale_blocks_run _ size (blocks X) [] w1 Hx Hy). cbn [app].
  assert (HX1 : models w1 !! m = Some X) by (now rewrite Hms).
  rewrite (modify_model_run _ _ _ _ HX1).
  eexists. split; [reflexivity|]. split; [|split; [|split]].
  - eapply lookup_modified_eq; eauto.
  - intros d Hd. cbn [models set_models].
    rewrite list_lookup_insert_ne by auto. now rewrite Hms.
  - exact Hbm.
  - exact Hev.
Qed.

(** The bounds of the first pass are tight: when the greatest x is the
    least x, every point has that x; likewise for y. *)
Lemma scan_bounds_tight bs pt :
  let b := fold_left scan_block bs bounds_start in
  In pt (all_points bs) ->
  ((maxx b - minx b = 0)%R -> (pt_x pt - minx b = 0)%R)
  /\ ((maxy b - miny b = 0)%R -> (pt_y pt - miny b = 0)%R).
Proof.
  intros b Hpt.
  destruct (scan_blocks_spec bs bounds_start)
    as ((_ & A2 & _) & (_ & B2 & _) & (_ & C2 & _) & (_ & D2 & _) & _).
  fold b in A2, B2, C2, D2.
  pose proof (A2 _ (in_map pt_x _ _ Hpt)). pose proof (C2 _ (in_map pt_x _ _ Hpt)).
  pose proof (B2 _ (in_map pt_y _ _ Hpt)). pose proof (D2 _ (in_map pt_y _ _ Hpt)).
  split; intros; lra.
Qed.

(** Two points apart in x, or in y, give the outline an extent there. *)
Lemma bounds_spread bs p q :
  In p (all_points bs) -> In q (all_points bs) ->
  let b := fold_left scan_block bs bounds_start in
  ((pt_x p < pt_x q)%R -> (maxx b - minx b <> 0)%R)
  /\ ((pt_y p < pt_y q)%R -> (maxy b - miny b <> 0)%R).
Proof.
  intros Hp Hq b.
  destruct (scan_blocks_spec bs bounds_start)
    as ((_ & A2 & _) & (_ & B2 & _) & (_ & C2 & _) & (_ & D2 & _) & _).
  fold b in A2, B2, C2, D2.
  pose proof (A2 _ (in_map pt_x _ _ Hp)). pose proof (C2 _ (in_map pt_x _ _ Hq)).
  pose proof (B2 _ (in_map pt_y _ _ Hp)). pose proof (D2 _ (in_map pt_y _ _ Hq)).
  split; intros; lra.
Qed.

(** Points that share one y within the start values leave none. *)
Lemma bounds_flat_y bs c :
  all_points bs <> [] ->
  (forall p, In p (all_points bs) -> pt_y p = c) ->
  (- billion <= c <= billion)%R ->
  let b := fold_left scan_block bs bounds_start in
  (maxy b - miny b = 0)%R.
Proof.
  intros Hne Hall Hc b.
  destruct (scan_blocks_spec bs bounds_start)
    as (_ & (B1 & B2 & B3) & _ & (D1 & D2 & D3) & _).
  fold b in B1, B2, B3, D1, D2, D3.
  cbn [bounds_start miny maxy] in *.
  destruct (all_points bs) as [|p0 ps] eqn:E; [contradiction|].
  pose proof (Hall p0 (or_introl eq_refl)) as H0.
  pose proof (B2 (pt_y p0) (or_introl eq_refl)) as Hlo.
  pose proof (D2 (pt_y p0) (or_introl eq_refl)) as Hhi.
  assert (Hmin : miny b = c).
  { destruct B3 as [Eb|Hin]; [lra|].
    apply in_map_iff in Hin as (p & <- & Hp). now apply Hall. }
  assert (Hmax : maxy b = c).
  { destruct D3 as [Eb|Hin]; [lra|].
    apply in_map_iff in Hin as (p & <- & Hp). now apply Hall. }
  lra.
Qed.

(** With an outline that has no extent in x, or none in y, the scaled
    coordinate of the first point is 0/0 and the assertion on it fails. *)
Lemma ScaleList_abort m w X size :
  models w !! m = Some X ->
  all_points (blocks X) <> [] ->
  let b := fold_left scan_block (blocks X) bounds_start in
  (maxx b - minx b = 0 \/ maxy b - miny b = 0)%R ->
  ScaleList m size w = Fault AssertFailed.
Proof.
  intros HX Hpts b Hflat. unfold ScaleList. mrun (get_model_run _ _ _ HX).
  assert (Hlen : (length (blocks X) <? 1) = false)
    by (destruct (blocks X); [contradiction|reflexivity]).
  rewrite Hlen.
  destruct (ScaleList_first_pass m w X HX) as (w1 & Hrun & _).
  mrun Hrun. subst b.
  apply bind_fault. apply scale_blocks_abort; [exact Hpts|].
  intros pt Hpt. destruct (scan_bounds_tight (blocks X) pt Hpt) as [Tx Ty].
  destruct Hflat as [E|E]; [left; rewrite E, (Tx E)|right; rewrite E, (Ty E)];
    apply nan_quotient_zero.
Qed.





(** ** Setters that fire callbacks under other keys *)

(** A world that differs from [w] in its models only. *)
Lemma opt_modify_run (o : option model_id) (f : StgModel -> StgModel) w :
  (forall a, o = Some a -> exists Y, models w !! a = Some Y) ->
  exists ms,
    (match o with
     | Some a => modify_model a f
     | None => ret tt
     end) w = Ok (tt, set_models ms w)
    /\ forall x, ms !! x = (if decide (o = Some x) then f else fun Y => Y) <$> models w !! x.
Proof.
  intros H. destruct o as [a|].
  - destruct (H a eq_refl) as [Y HY].
    rewrite (modify_model_run _ _ _ _ HY). eexists. split; [reflexivity|].
    intros x. destruct (decide (Some a = Some x)) as [[= ->]|Hne].
    + rewrite list_lookup_insert_eq by (eapply lookup_lt_Some; eauto).
      now rewrite HY.
    + rewrite list_lookup_insert_ne by congruence.
      destruct (models w !! x); reflexivity.
  - exists (models w). split; [unfold ret; now rewrite set_models_same|].
    intros x. destruct (decide (None = Some x)); [discriminate|].
    destruct (models w !! x); reflexivity.
Qed.

Lemma set_models_twice ms ms' w : set_models ms (set_models ms' w) = set_models ms w.
Proof. reflexivity. Qed.

Section OtherCallbackFacts.

Variable CallCallbacks_of : model_id -> attr_key -> M unit.

(** X26: [SetObstacleReturn] decides whether the model is an obstacle to the
    others: in the world handed to the callbacks, [collision_match]
    accepts a block of the model, for a finder other than the model,
    exactly when the value set is nonzero; blocks of other models are
    judged as before. *)
Theorem SetObstacleReturn_filters m val w X :
  models w !! m = Some X ->
  exists w1,
    SetObstacleReturn CallCallbacks_of m val w
    = CallCallbacks_of m A_obstacle_return w1
    /\ (forall i finder,
          collision_match w1 (m, i) finder
          = negb (Nat.eqb m finder) && negb (val =? 0)%Z)
    /\ (forall b finder, Model b <> m ->
          collision_match w1 b finder = collision_match w b finder)
    /\ bitmap w1 = bitmap w.
Proof.
  intros HX. unfold SetObstacleReturn.
  eexists. split; [mrun (modify_model_run _ (set_obstacle_return val) _ _ HX); reflexivity|].
  unfold collision_match, ObstacleReturn, Model. cbn [fst models set_models].
  split; [|split; [|reflexivity]].
  - intros i finder.
    rewrite list_lookup_insert_eq by (eapply lookup_lt_Some; eauto). reflexivity.
  - intros b finder Hb. rewrite list_lookup_insert_ne by auto. reflexivity.
Qed.

Lemma SetParent_run m newparent w X :
  models w !! m = Some X ->
  (forall p, parent X = Some p -> exists P, models w !! p = Some P) ->
  (forall np, newparent = Some np -> exists P, models w !! np = Some P) ->
  exists ms,
    SetParent CallCallbacks_of m newparent w
    = (CallCallbacks_of m A_parent ;; ret 0%Z) (set_models ms w)
    /\ (forall x Y, models w !! x = Some Y ->
          exists Y1, ms !! x = Some Y1
            /\ children Y1 = relinked m (parent X) newparent x (children Y)
            /\ parent Y1 = (if decide (x = m) then newparent else parent Y)
            /\ set_parent None (set_children [] Y1) = set_parent None (set_children [] Y))
    /\ (forall x, models w !! x = None -> ms !! x = None).
Proof.
  intros HX Hold Hnew.
  destruct (opt_modify_run (parent X)
              (fun P => set_children (g_list_remove (children P) m) P) w Hold)
    as (ms1 & Hrun1 & Hms1).
  destruct (opt_modify_run newparent
              (fun P => set_children (g_list_append (children P) m) P)
              (set_models ms1 w)) as (ms2 & Hrun2 & Hms2).
  { intros np Hnp. destruct (Hnew np Hnp) as [P HP].
    cbn [models set_models]. rewrite Hms1, HP. simpl. eauto. }
  rewrite set_models_twice in Hrun2. cbn [models set_models] in Hms2.
  destruct (opt_modify_run (Some m) (set_parent newparent) (set_models ms2 w))
    as (ms3 & Hrun3 & Hms3).
  { intros a [= <-]. cbn [models set_models]. rewrite Hms2, Hms1, HX. simpl. eauto. }
  rewrite set_models_twice in Hrun3. cbn [models set_models] in Hms3.
  exists ms3. split; [|split].
  - unfold SetParent. mrun (get_model_run _ _ _ HX).
    mrun Hrun1. mrun Hrun2. mrun Hrun3. reflexivity.
  - intros x Y HY. rewrite Hms3, Hms2, Hms1, HY. simpl.
    eexists. split; [reflexivity|]. unfold relinked.
    destruct (decide (Some m = Some x)) as [Hm|Hm];
      destruct (decide (x = m)) as [Hx|Hx]; try (exfalso; congruence);
      destruct (decide (newparent = Some x));
      destruct (decide (parent X = Some x));
      cbn [children parent set_children set_parent]; auto.
  - intros x Hx. rewrite Hms3, Hms2, Hms1, Hx. reflexivity.
Qed.

Lemma In_g_list_remove_ne l m c : c <> m -> (In c (g_list_remove l m) <-> In c l).
Proof.
  intros Hne. induction l as [|x l IH]; [reflexivity|].
  cbn [g_list_remove]. destruct (Nat.eqb_spec x m) as [->|Hx].
  - simpl. split; [auto|]. intros [E|H]; [congruence|exact H].
  - simpl. now rewrite IH.
Qed.

Lemma relinked_other m old new x l c :
  c <> m -> (In c (relinked m old new x l) <-> In c l).
Proof.
  intros Hne. unfold relinked, g_list_append.
  destruct (decide (new = Some x)); destruct (decide (old = Some x));
    rewrite ?in_app_iff, ?In_g_list_remove_ne by exact Hne;
    simpl; intuition congruence.
Qed.

Lemma relinked_self m old new x l :
  NoDup l -> (In m l <-> old = Some x) ->
  (In m (relinked m old new x l) <-> new = Some x)
  /\ NoDup (relinked m old new x l).
Proof.
  intros Hnd Hl. unfold relinked.
  assert (Hrm : ~ In m (g_list_remove l m)).
  { intros H. apply (g_list_remove_In l m m Hnd) in H. tauto. }
  destruct (decide (old = Some x)) as [Ho|Ho]; destruct (decide (new = Some x)) as [Hn|Hn].
  - split.
    + unfold g_list_append. rewrite in_app_iff. simpl. tauto.
    + apply g_list_append_NoDup; [now apply g_list_remove_NoDup|].
      destruct (g_list_find (g_list_remove l m) m) eqn:E; [|reflexivity].
      apply g_list_find_In in E. contradiction.
  - split; [tauto|now apply g_list_remove_NoDup].
  - split.
    + unfold g_list_append. rewrite in_app_iff. simpl. tauto.
    + apply g_list_append_NoDup; [exact Hnd|].
      destruct (g_list_find l m) eqn:E; [|reflexivity].
      apply g_list_find_In in E. tauto.
  - split; [tauto|exact Hnd].
Qed.

(** X27: [SetParent] rewrites the links between models and leaves the world's
    own list of children alone.  If parent pointers and the children
    lists of the models agreed before (no list holding a model twice),
    they agree in the world handed to the callbacks, where the model's
    parent is the new one.  The world's list is the same as before: it
    still agrees with the parent pointers exactly when the model had a
    parent before and has one now, or had none and has none; a top-level
    model that is given a parent stays in the world's list, a model that
    loses its parent does not enter it.  Nothing else is done: no pose,
    cached global pose or dirty flag changes and the spatial index is
    left as it is, although the model's global pose depends on its
    parent. *)
Theorem SetParent_relinks m newparent w X :
  well_linked w ->
  top_linked w ->
  models w !! m = Some X ->
  (forall np, newparent = Some np -> exists P, models w !! np = Some P) ->
  exists w1,
    SetParent CallCallbacks_of m newparent w
    = (CallCallbacks_of m A_parent ;; ret 0%Z) w1
    /\ well_linked w1
    /\ world_children w1 = world_children w
    /\ (top_linked w1 <-> (parent X = None <-> newparent = None))
    /\ field parent m w1 = Some newparent
    /\ view (fun Y => set_parent None (set_children [] Y)) w1
       = view (fun Y => set_parent None (set_children [] Y)) w
    /\ bitmap w1 = bitmap w.
Proof.
  intros (Hl & Hnd & Hpar) (Htnd & Htop) HX Hnew.
  destruct (SetParent_run m newparent w X HX (fun p => Hpar m X p HX) Hnew)
    as (ms & Hrun & Hsome & Hnone).
  exists (set_models ms w). split; [exact Hrun|].
  assert (Hback : forall x Y1, ms !! x = Some Y1 ->
            exists Y, models w !! x = Some Y
              /\ children Y1 = relinked m (parent X) newparent x (children Y)
              /\ parent Y1 = (if decide (x = m) then newparent else parent Y)).
  { intros x Y1 HY1. destruct (models w !! x) as [Y|] eqn:HY.
    - destruct (Hsome x Y HY) as (Y1' & H1 & H2 & H3 & _).
      exists Y. split; [reflexivity|]. assert (Y1' = Y1) as <- by congruence. auto.
    - rewrite (Hnone x HY) in HY1. discriminate. }
  split; [|split; [reflexivity|split; [|split; [|split; [|reflexivity]]]]].
  - cbn [well_linked models set_models]. split; [|split].
    + intros c p C1 P1 HC1 HP1.
      destruct (Hback c C1 HC1) as (C & HC & _ & HCp).
      destruct (Hback p P1 HP1) as (P & HP & HPc & _).
      rewrite HCp, HPc.
      destruct (decide (c = m)) as [->|Hc].
      * assert (C = X) as -> by congruence.
        destruct (relinked_self m (parent X) newparent p (children P) (Hnd p P HP))
          as [H _]; [symmetry; apply (Hl m p X P HX HP)|].
        symmetry. exact H.
      * rewrite relinked_other by exact Hc. apply (Hl c p C P HC HP).
    + intros p P1 HP1.
      destruct (Hback p P1 HP1) as (P & HP & HPc & _). rewrite HPc.
      apply relinked_self; [exact (Hnd p P HP)|].
      symmetry. apply (Hl m p X P HX HP).
    + intros c C1 p HC1 Hp.
      destruct (Hback c C1 HC1) as (C & HC & _ & HCp). rewrite HCp in Hp.
      assert (exists P, models w !! p = Some P) as [P HP].
      { destruct (decide (c = m)); [exact (Hnew p Hp)|exact (Hpar c C p HC Hp)]. }
      destruct (Hsome p P HP) as (P1 & HP1 & _). eauto.
  - unfold top_linked. cbn [world_children models set_models].
    pose proof (Htop m X HX) as Hm.
    split.
    + intros [_ H1].
      destruct (Hsome m X HX) as (X1 & HX1 & _ & Hp1 & _).
      destruct (decide (m = m)); [|contradiction].
      pose proof (H1 m X1 HX1) as H. rewrite Hp1 in H. tauto.
    + intros Hsame. split; [exact Htnd|].
      intros c C1 HC1. destruct (Hback c C1 HC1) as (C & HC & _ & HCp).
      rewrite HCp. destruct (decide (c = m)) as [->|Hc].
      * tauto.
      * exact (Htop c C HC).
  - unfold field. cbn [models set_models].
    destruct (Hsome m X HX) as (X1 & HX1 & _ & Hp & _). rewrite HX1. simpl.
    rewrite Hp. destruct (decide (m = m)); [reflexivity|contradiction].
  - unfold view. cbn [models set_models].
    apply list_eq. intros x. rewrite !list_lookup_fmap.
    destruct (models w !! x) as [Y|] eqn:HY.
    + destruct (Hsome x Y HY) as (Y1 & HY1 & _ & _ & Hrest). rewrite HY1. simpl.
      now rewrite Hrest.
    + now rewrite (Hnone x HY).
Qed.

Lemma GetGlobalPose_Ok_rooted n : forall w m g w',
  GetGlobalPose n m w = Ok (g, w') -> rooted w n m = true.
Proof.
  induction n as [|n IH]; intros w m g w' H; [discriminate|].
  cbn [GetGlobalPose] in H. cbn [rooted].
  apply bind_ok in H as (X & w1 & [HX ->]%get_model_ok & H). rewrite HX.
  destruct (parent X) as [p|]; [|reflexivity].
  apply bind_ok in H as (u & w2 & H & _).
  apply bind_ok in H as (gp & w3 & H & _).
  exact (IH _ _ _ _ H).
Qed.

(** X28: [SetParent] does not look for cycles.  A model may be given itself
    or one of its own descendants as its parent; in the world handed to
    the callbacks the chain of parents of the model then never ends, and
    [GetGlobalPose] on the model returns no pose, whatever the fuel. *)
Theorem SetParent_accepts_cycle n m np w X :
  models w !! m = Some X ->
  (forall p, parent X = Some p -> exists P, models w !! p = Some P) ->
  models w !! np <> None ->
  In m (ancestors w n np) ->
  exists w1,
    SetParent CallCallbacks_of m (Some np) w
    = (CallCallbacks_of m A_parent ;; ret 0%Z) w1
    /\ field parent m w1 = Some (Some np)
    /\ (forall fuel, rooted w1 fuel m = false)
    /\ (forall fuel g w', GetGlobalPose fuel m w1 <> Ok (g, w')).
Proof.
  intros HX Hold Hnp Hin.
  destruct (SetParent_run m (Some np) w X HX Hold) as (ms & Hrun & Hsome & Hnone).
  { intros a [= <-]. destruct (models w !! np); [eauto|contradiction]. }
  set (w1 := set_models ms w).
  exists w1. split; [exact Hrun|].
  destruct (Hsome m X HX) as (X1 & HX1 & _ & Hp1 & _).
  destruct (decide (m = m)); [|contradiction].
  assert (Hreach : forall k x, In m (ancestors w k x) ->
            forall fuel, rooted w1 fuel x = true -> In m (ancestors w1 fuel x)).
  { induction k as [|k IH]; intros x Hx fuel Hr; [destruct Hx|].
    destruct fuel as [|fuel]; [discriminate|].
    cbn [ancestors] in Hx. destruct Hx as [->|Hx]; [now left|].
    destruct (decide (x = m)) as [->|Hxm]; [now left|].
    destruct (models w !! x) as [Y|] eqn:HY; [|destruct Hx].
    destruct (parent Y) as [p|] eqn:Hp; [|destruct Hx].
    destruct (Hsome x Y HY) as (Y1 & HY1 & _ & Hp1' & _).
    destruct (decide (x = m)); [contradiction|].
    cbn [rooted ancestors] in *. unfold w1 in *. cbn [models set_models] in *.
    rewrite HY1 in *. rewrite Hp1', Hp in *. right. exact (IH p Hx fuel Hr). }
  assert (Hnever : forall fuel, rooted w1 fuel m = false).
  { intros fuel. destruct (rooted w1 fuel m) eqn:Hr; [|reflexivity]. exfalso.
    destruct fuel as [|fuel]; [discriminate|].
    destruct (rooted_acyclic w1 fuel m X1 np Hr HX1 Hp1) as [Hrnp Hnot].
    exact (Hnot (Hreach n np Hin fuel Hrnp)). }
  split; [unfold field, w1; cbn [models set_models]; rewrite HX1; simpl; now rewrite Hp1|].
  split; [exact Hnever|].
  intros fuel g w' H. apply GetGlobalPose_Ok_rooted in H. rewrite Hnever in H. discriminate.
Qed.

Lemma set_blocks_same X : set_blocks (blocks X) X = X.
Proof. destruct X; reflexivity. Qed.

Lemma ScaleList_any m w X size :
  models w !! m = Some X ->
  let b := fold_left scan_block (blocks X) bounds_start in
  (maxx b - minx b <> 0)%R -> (maxy b - miny b <> 0)%R ->
  exists w',
    ScaleList m size w = Ok (tt, w')
    /\ models w' !! m = Some (set_blocks (map (scaled_block b size) (blocks X)) X)
    /\ (forall d, d <> m -> models w' !! d = models w !! d)
    /\ (forall e, In e (bitmap w') <-> In e (bitmap w) /\ ~ In e (block_refs m X))
    /\ events w' = events w.
Proof.
  intros HX b Hx Hy. destruct (blocks X) as [|b0 bs] eqn:Hb.
  - exists w. split; [|split; [|split; [|split]]]; try reflexivity.
    + unfold ScaleList. mrun (get_model_run _ _ _ HX). now rewrite Hb.
    + cbn [map]. now rewrite <- Hb, set_blocks_same.
    + intros e. unfold block_refs. rewrite Hb. simpl. tauto.
  - subst b. rewrite <- Hb in *. apply ScaleList_run; auto. rewrite Hb. discriminate.
Qed.

Lemma all_points_scaled_length b size bs :
  length (all_points (map (scaled_block b size) bs)) = length (all_points bs).
Proof.
  unfold all_points. induction bs as [|blk bs IH]; [reflexivity|].
  cbn [map flat_map]. rewrite !length_app, IH.
  cbn [scaled_block blk_pts]. now rewrite length_map.
Qed.

(** *** The cache of global poses after [Map] *)

Lemma ancestors_view w w' n :
  view parent w' = view parent w ->
  forall m, ancestors w' n m = ancestors w n m.
Proof.
  intros Hv. induction n as [|n IH]; intros m; cbn [ancestors]; [auto|].
  destruct (models w !! m) as [X|] eqn:HX.
  - destruct (view_lookup parent _ _ _ _ Hv HX) as (X' & -> & ->).
    destruct (parent X); [now rewrite IH|reflexivity].
  - now rewrite (view_lookup_None parent _ _ _ Hv HX).
Qed.

Lemma blank_view_parent w w' :
  view blank_cache w' = view blank_cache w -> view parent w' = view parent w.
Proof. intros Hv. exact (view_compose blank_cache parent _ _ Hv). Qed.

Lemma chain_cached_view w0 w fuel m w' :
  view blank_cache w = view blank_cache w0 ->
  chain_cached w fuel m w' -> chain_cached w0 fuel m w'.
Proof.
  intros Hv H x Hx.
  rewrite <- (ancestors_view _ _ fuel (blank_view_parent _ _ Hv)) in Hx.
  destruct (H x Hx) as [H1 H2]. split; [exact H1|].
  rewrite H2. apply rooted_global_pose_of_view, Hv.
Qed.

Lemma chain_cached_models w fuel m w1 w' :
  models w' = models w1 -> chain_cached w fuel m w1 -> chain_cached w fuel m w'.
Proof. intros E H x Hx. unfold field. rewrite E. exact (H x Hx). Qed.

Lemma LocalToGlobal_point_cache fuel m pt w :
  rooted w fuel m = true ->
  exists q w', LocalToGlobal_point fuel m pt w = Ok (q, w')
               /\ raster_view w' = raster_view w
               /\ chain_cached w fuel m w'
               /\ (forall x, ~ In x (ancestors w fuel m) -> models w' !! x = models w !! x).
Proof.
  intros Hr. destruct (rooted_present _ _ _ Hr) as [X HX].
  destruct (GetGlobalPose_cache_run fuel w m Hr) as (g & w' & Hrun & _ & Hv & Hc & Hrest).
  destruct (raster_view_lookup _ _ _ _ Hv HX) as (X' & HX' & _).
  eexists _, w'. split; [|split; [exact Hv|split; [exact Hc|exact Hrest]]].
  unfold LocalToGlobal_point, LocalToGlobal. cbv zeta.
  mrun Hrun. mrun (get_model_run _ _ _ HX'). reflexivity.
Qed.

Lemma vertex_loop_cache fuel m z pts : forall w,
  rooted w fuel m = true ->
  exists w',
    for_each pts
      (fun pt => LocalToGlobal_point fuel m (mk_point3 (pt_x pt) (pt_y pt) z) ;; ret tt) w
    = Ok (tt, w')
    /\ raster_view w' = raster_view w
    /\ (forall x, ~ In x (ancestors w fuel m) -> models w' !! x = models w !! x)
    /\ match pts with
       | [] => w' = w
       | _ :: _ => chain_cached w fuel m w'
       end.
Proof.
  induction pts as [|pt pts IH]; intros w Hr.
  - exists w. repeat split; reflexivity.
  - destruct (LocalToGlobal_point_cache fuel m (mk_point3 (pt_x pt) (pt_y pt) z) w Hr)
      as (q & w1 & Hrun & Hv1 & Hc1 & Hrest1).
    pose proof (raster_view_models _ _ Hv1) as Hb1.
    destruct (IH w1) as (w' & Hloop & Hv' & Hrest' & Hc').
    { rewrite <- Hr. now apply rooted_raster_view. }
    rewrite (ancestors_view _ _ fuel (blank_view_parent _ _ Hb1)) in Hrest'.
    exists w'. split; [|split; [congruence|split]].
    + cbn [for_each]. mrun Hrun. rewrite (bind_run (ret tt) _ w1 tt w1 eq_refl).
      exact Hloop.
    + intros x Hx. rewrite (Hrest' x Hx). exact (Hrest1 x Hx).
    + destruct pts as [|pt' pts'].
      * now subst w'.
      * exact (chain_cached_view _ _ _ _ _ Hb1 Hc').
Qed.

Lemma Map_loop_cache fuel d bs : forall pre w X0,
  models w !! d = Some X0 -> blocks X0 = pre ++ bs -> rooted w fuel d = true ->
  exists w',
    for_each (map (fun i => (d, i)) (seq (length pre) (length bs))) (StgBlock_Map fuel) w
    = Ok (tt, w')
    /\ view blank_cache w' = view blank_cache w
    /\ (forall x, ~ In x (ancestors w fuel d) -> models w' !! x = models w !! x)
    /\ match all_points bs with
       | [] => models w' = models w
       | _ :: _ => chain_cached w fuel d w'
       end.
Proof.
  induction bs as [|blk bs IH]; intros pre w X0 HX0 Hb Hr.
  - exists w. repeat split; reflexivity.
  - assert (Hblk : blocks X0 !! length pre = Some blk).
    { rewrite Hb. apply list_lookup_middle. reflexivity. }
    destruct (vertex_loop_cache fuel d (blk_zmin blk) (blk_pts blk) w Hr)
      as (w1 & Hloop & Hv1 & Hrest1 & Hc1).
    set (w2 := set_bitmap ((d, length pre) :: bitmap w1) w1).
    assert (Hrun : StgBlock_Map fuel (d, length pre) w = Ok (tt, w2)).
    { unfold StgBlock_Map, get_block. cbn [Model fst snd].
      mrun (get_model_run _ _ _ HX0). rewrite Hblk.
      rewrite (bind_run (ret blk) _ w blk w eq_refl).
      mrun Hloop. reflexivity. }
    assert (Hb2 : view blank_cache w2 = view blank_cache w)
      by exact (raster_view_models _ _ Hv1).
    destruct (view_lookup blank_cache w w2 d X0 Hb2 HX0) as (X2 & HX2 & HB).
    apply blank_cache_fields in HB as (_ & _ & _ & _ & Hblocks & _).
    destruct (IH (pre ++ [blk]) w2 X2 HX2) as (w' & Hrest & Hv' & Hrest' & Hc').
    { rewrite Hblocks, Hb, <- app_assoc. reflexivity. }
    { rewrite <- Hr. now apply rooted_global_pose_of_view. }
    rewrite length_app, Nat.add_1_r in Hrest.
    rewrite (ancestors_view _ _ fuel (blank_view_parent _ _ Hb2)) in Hrest'.
    exists w'. split; [|split; [congruence|split]].
    + cbn [length seq map for_each]. mrun Hrun. exact Hrest.
    + intros x Hx. rewrite (Hrest' x Hx). exact (Hrest1 x Hx).
    + unfold all_points in *. cbn [flat_map].
      destruct (blk_pts blk) as [|p ps].
      * subst w1. cbn [app].
        destruct (flat_map blk_pts bs); [exact Hc'|].
        exact (chain_cached_view _ _ _ _ _ Hb2 Hc').
      * cbn [app].
        destruct (flat_map blk_pts bs).
        -- apply (chain_cached_models _ _ _ w1); [|exact Hc1]. exact Hc'.
        -- exact (chain_cached_view _ _ _ _ _ Hb2 Hc').
Qed.

Lemma Map_cache fuel w d X :
  models w !! d = Some X ->
  rooted w fuel d = true ->
  exists w', Map fuel d w = Ok (tt, w')
             /\ (forall e, In e (bitmap w') <-> In e (block_refs d X) \/ In e (bitmap w))
             /\ view blank_cache w' = view blank_cache w
             /\ (forall x, ~ In x (ancestors w fuel d) -> models w' !! x = models w !! x)
             /\ match all_points (blocks X) with
                | [] => models w' = models w
                | _ :: _ => chain_cached w fuel d w'
                end.
Proof.
  intros HX Hr.
  destruct (Map_run fuel w d X HX Hr) as (w' & Hrun & Hbm & Hv).
  destruct (Map_loop_cache fuel d (blocks X) [] w X HX eq_refl Hr)
    as (w'' & Hrun' & _ & Hrest & Hc).
  assert (w'' = w') as ->.
  { unfold Map in Hrun. rewrite (bind_run _ _ _ _ _ (get_model_run _ _ _ HX)) in Hrun.
    unfold block_refs in Hrun. cbn [length] in Hrun'.
    assert (E : @Ok (unit * StgWorld) (tt, w'') = Ok (tt, w'))
      by (rewrite <- Hrun, <- Hrun'; reflexivity).
    now injection E. }
  exists w'. auto.
Qed.

(** X29: [SetGeom] stores the geometry, scales the blocks to the new size as
    [ScaleList] does and maps them again.
    When the outline has no extent in x or none in y (the greatest x
    that [ScaleList] finds is its least x, or the same in y) and there is
    a point at all, the call does not return: [ScaleList] stops at its
    assertion on the first scaled coordinate, after the blocks left the
    spatial index and the geometry was stored.
    Otherwise the world handed to the callbacks holds the new geometry,
    the pose as it was, every point scaled, the heights scaled if a
    block had a positive [zmax], and the model's blocks in the spatial
    index, next to the untouched entries of the other models.  The model
    marks its own cached global pose dirty, but mapping a block asks for
    the global pose once per point: with a point, the model and its
    ancestors end up with a clean cache that holds their global poses;
    without one, the model stays dirty.  No other model is changed: the
    descendants, whose global z rests on the model's height, are neither
    marked dirty nor refreshed. *)
Theorem SetGeom_rescales fuel m geom0 w X :
  models w !! m = Some X ->
  let b := fold_left scan_block (blocks X) bounds_start in
  (all_points (blocks X) <> [] ->
   (maxx b - minx b = 0 \/ maxy b - miny b = 0)%R ->
   SetGeom CallCallbacks_of fuel m geom0 w = Fault AssertFailed)
  /\ (rooted w fuel m = true ->
      (maxx b - minx b <> 0)%R -> (maxy b - miny b <> 0)%R ->
      exists w1 X1,
        SetGeom CallCallbacks_of fuel m geom0 w = CallCallbacks_of m A_geom w1
        /\ models w1 !! m = Some X1
        /\ geom X1 = geom0
        /\ pose X1 = pose X
        /\ map blk_pts (blocks X1)
           = map (fun blk => blk_pts (scaled_block b (geom_size geom0) blk)) (blocks X)
        /\ ((0 < maxz b)%R ->
            blocks X1 = map (scaled_block b (geom_size geom0)) (blocks X))
        /\ (all_points (blocks X) = [] ->
            gpose_dirty X1 = true /\ global_pose X1 = global_pose X)
        /\ (all_points (blocks X) <> [] ->
            forall x, In x (ancestors w fuel m) ->
              field gpose_dirty x w1 = Some false
              /\ field global_pose x w1 = global_pose_of w1 fuel x)
        /\ (forall d, ~ In d (ancestors w fuel m) -> models w1 !! d = models w !! d)
        /\ (forall i, i < length (blocks X) -> In (m, i) (bitmap w1))
        /\ (forall e, fst e <> m -> In e (bitmap w1) <-> In e (bitmap w))).
Proof.
  intros HX b.
  (* the dirty flag *)
  set (Xa := set_gpose_dirty true X).
  set (wa := set_models (<[m := Xa]> (models w)) w).
  assert (HXa : models wa !! m = Some Xa) by (eapply lookup_modified_eq; eauto).
  (* unmapping *)
  destruct (UnMap_run wa m Xa HXa) as (wb & Hun & Hbmb).
  assert (Hmsb : models wb = models wa)
    by exact (UnMap_keeps models m models_bitmap_blind _ _ _ Hun).
  assert (HXb : models wb !! m = Some Xa) by (now rewrite Hmsb).
  (* the geometry *)
  set (Xc := set_geom geom0 Xa).
  set (wc := set_models (<[m := Xc]> (models wb)) wb).
  assert (HXc : models wc !! m = Some Xc) by (eapply lookup_modified_eq; eauto).
  assert (Hstart : SetGeom CallCallbacks_of fuel m geom0 w
                   = (ScaleList m (geom_size geom0) ;;
                      NeedRedraw fuel m ;; Map fuel m ;; CallCallbacks_of m A_geom) wc).
  { unfold SetGeom.
    mrun (modify_model_run _ (set_gpose_dirty true) _ _ HX).
    mrun Hun. mrun (modify_model_run _ (set_geom geom0) _ _ HXb). reflexivity. }
  split.
  { intros Hpts Hflat. rewrite Hstart. apply bind_fault.
    exact (ScaleList_abort m wc Xc (geom_size geom0) HXc Hpts Hflat). }
  intros Hr Hx Hy.
  (* scaling *)
  destruct (ScaleList_any m wc Xc (geom_size geom0) HXc Hx Hy)
    as (wd & Hsc & HXd & Hothd & Hbmd & _).
  change (blocks Xc) with (blocks X) in HXd. fold b in HXd.
  set (Xd := set_blocks _ Xc) in HXd.
  assert (Hold : forall x, x <> m -> models wd !! x = models w !! x).
  { intros x Hne. rewrite (Hothd x Hne). unfold wc. cbn [models set_models].
    rewrite list_lookup_insert_ne, Hmsb by auto. unfold wa. cbn [models set_models].
    now rewrite list_lookup_insert_ne by auto. }
  assert (Hpar_d : view parent wd = view parent w).
  { unfold view. apply list_eq. intros x. rewrite !list_lookup_fmap.
    destruct (decide (x = m)) as [->|Hne].
    - rewrite HXd, HX. reflexivity.
    - now rewrite (Hold x Hne). }
  (* redraw flags *)
  assert (Hrd : rooted wd fuel m = true).
  { rewrite <- Hr. now apply rooted_view. }
  destruct (NeedRedraw_marks fuel wd m Hrd) as (we & Hnr & _ & Hreste & Hve & Hbme & _).
  rewrite (ancestors_view _ _ fuel Hpar_d) in Hreste.
  assert (Hpar_e : view parent we = view parent w).
  { rewrite <- Hpar_d.
    exact (view_compose (set_rebuild_displaylist true) parent _ _ Hve). }
  assert (exists Xe, models we !! m = Some Xe
                     /\ geom Xe = geom0 /\ blocks Xe = blocks Xd
                     /\ gpose_dirty Xe = true /\ pose Xe = pose X
                     /\ global_pose Xe = global_pose X)
    as (Xe & HXe & Hge & Hbe & Hde & Hpe & Hgpe).
  { pose proof (view_field _ _ _ m
                  (view_compose _ (fun Y => (geom Y, blocks Y, gpose_dirty Y,
                                             pose Y, global_pose Y)) _ _ Hve)) as H.
    unfold field in H. rewrite HXd in H.
    destruct (models we !! m) as [Xe|]; [|discriminate].
    simpl in H. injection H as H1 H2 H3 H4 H5. exists Xe. auto 10. }
  (* mapping again *)
  assert (Hre : rooted we fuel m = true).
  { rewrite <- Hr. now apply rooted_view. }
  destruct (Map_cache fuel we m Xe HXe Hre) as (w1 & Hmap & Hbm1 & Hv1 & Hrest1 & Hc1).
  rewrite (ancestors_view _ _ fuel Hpar_e) in Hrest1.
  destruct (view_lookup blank_cache we w1 m Xe Hv1 HXe) as (X1 & HX1 & HB).
  apply blank_cache_fields in HB as (_ & _ & Hp1 & Hg1 & Hb1 & _).
  assert (Hblocks : blocks X1 = map (scaled_block b (geom_size geom0)) (blocks X)).
  { rewrite Hb1, Hbe. reflexivity. }
  assert (Hlen : length (all_points (blocks Xe)) = length (all_points (blocks X))).
  { rewrite Hbe. unfold Xd. cbn [blocks set_blocks]. apply all_points_scaled_length. }
  exists w1, X1. split; [|split; [exact HX1|]].
  - rewrite Hstart. mrun Hsc. mrun Hnr. mrun Hmap. reflexivity.
  - split; [congruence|]. split; [congruence|].
    split; [rewrite Hblocks, map_map; reflexivity|]. split; [intros _; exact Hblocks|].
    split; [|split; [|split; [|split]]].
    + intros Hnone. rewrite Hnone in Hlen.
      destruct (all_points (blocks Xe)); [|discriminate].
      rewrite Hc1, HXe in HX1. injection HX1 as <-. auto.
    + intros Hsome x Hin.
      destruct (all_points (blocks Xe)) as [|p ps].
      { destruct (all_points (blocks X)); [contradiction|discriminate]. }
      rewrite <- (ancestors_view _ _ fuel Hpar_e) in Hin.
      destruct (Hc1 x Hin) as [Hd Hg]. split; [exact Hd|].
      rewrite Hg. symmetry. apply rooted_global_pose_of_view, Hv1.
    + intros d Hd.
      assert (Hne : d <> m).
      { intros ->. apply Hd. now apply ancestors_head. }
      rewrite (Hrest1 d Hd), (Hreste d Hd). exact (Hold d Hne).
    + intros i Hi. apply Hbm1. left. apply In_block_refs. simpl.
      rewrite Hbe. unfold Xd. cbn [blocks set_blocks]. now rewrite length_map.
    + intros e He. rewrite Hbm1, Hbme, Hbmd. unfold wc. cbn [bitmap set_bitmap set_models].
      rewrite Hbmb. unfold wa. cbn [bitmap set_bitmap set_models].
      rewrite !In_block_refs. tauto.
Qed.

End OtherCallbackFacts.

Lemma SetObstacleReturn_filters_flank :
  exists w1,
    SetObstacleReturn (fun _ _ => ret tt) 1 0 flank_world = Ok (tt, w1)
    /\ collision_match w1 (1, 0) 0 = false
    /\ collision_match w1 (2, 0) 0 = collision_match flank_world (2, 0) 0.
Proof.
  destruct (SetObstacleReturn_filters (fun _ _ => ret tt) 1 0 flank_world _ eq_refl)
    as (w1 & H1 & H2 & H3 & _).
  exists w1. split; [exact H1|]. split; [apply H2|apply H3]. simpl. lia.
Defined.

Lemma chain_world_well_linked : well_linked chain_world.
Proof.
  split; [exact chain_world_linked|]. split.
  - intros p P HP.
    destruct p as [|[|[|[|p]]]]; try discriminate; injection HP as <-; simpl;
      first [apply NoDup_nil_2 | apply NoDup_singleton].
  - intros c C p HC Hp.
    destruct c as [|[|[|[|c]]]]; try discriminate; injection HC as <-;
      simpl in Hp; try discriminate; injection Hp as <-; simpl; eauto.
Qed.

Lemma chain_world_top_linked : top_linked chain_world.
Proof.
  split.
  - cbn. apply NoDup_cons. split; [|apply NoDup_singleton].
    intros H%list_elem_of_singleton. discriminate.
  - intros c C HC.
    destruct c as [|[|[|[|c]]]]; try discriminate; injection HC as <-; cbn;
      split; intros H; try discriminate; auto;
      repeat (destruct H as [H|H]; try discriminate); destruct H.
Qed.

(** Moving model 2 of the chain world from under model 1 to under
    model 3 leaves every list right; putting the top-level model 3 under
    model 2 leaves it in the world's list. *)
Lemma SetParent_relinks_chain :
  (exists w1,
     SetParent (fun _ _ => ret tt) 2 (Some 3) chain_world = Ok (0%Z, w1)
     /\ well_linked w1 /\ top_linked w1
     /\ field parent 2 w1 = Some (Some 3)
     /\ bitmap w1 = bitmap chain_world)
  /\ (exists w1,
        SetParent (fun _ _ => ret tt) 3 (Some 2) chain_world = Ok (0%Z, w1)
        /\ well_linked w1 /\ ~ top_linked w1
        /\ field parent 3 w1 = Some (Some 2)
        /\ In 3 (world_children w1)).
Proof.
  split.
  - destruct (SetParent_relinks (fun _ _ => ret tt) 2 (Some 3) chain_world _
                chain_world_well_linked chain_world_top_linked eq_refl)
      as (w1 & H1 & H2 & _ & H4 & H5 & _ & H7).
    { intros np [= <-]. simpl. eauto. }
    exists w1. split; [exact H1|]. split; [exact H2|]. split; [|auto].
    apply H4. simpl. split; discriminate.
  - destruct (SetParent_relinks (fun _ _ => ret tt) 3 (Some 2) chain_world _
                chain_world_well_linked chain_world_top_linked eq_refl)
      as (w1 & H1 & H2 & H3 & H4 & H5 & _).
    { intros np [= <-]. simpl. eauto. }
    exists w1. split; [exact H1|]. split; [exact H2|]. split; [|split; [exact H5|]].
    + intros H. apply H4 in H. simpl in H. destruct H as [H _].
      specialize (H eq_refl). discriminate.
    + rewrite H3. simpl. auto.
Defined.

(** Making model 0 of the chain world the child of its grandchild. *)
Lemma SetParent_accepts_cycle_chain :
  exists w1,
    SetParent (fun _ _ => ret tt) 0 (Some 2) chain_world = Ok (0%Z, w1)
    /\ field parent 0 w1 = Some (Some 2)
    /\ (forall fuel g w', GetGlobalPose fuel 0 w1 <> Ok (g, w')).
Proof.
  destruct (SetParent_accepts_cycle (fun _ _ => ret tt) 3 0 2 chain_world _ eq_refl)
    as (w1 & H1 & H2 & _ & H4).
  - intros p [=].
  - discriminate.
  - simpl. auto.
  - exists w1. auto.
Defined.

(** A fresh model given the unit cube for its geometry; and the model of
    the flat world, whose points share one y. *)
Lemma SetGeom_rescales_fresh :
  (exists w1 X1,
     SetGeom (fun _ _ => ret tt) 1 0 unit_cube (new_world [new_model None]) = Ok (tt, w1)
     /\ models w1 !! 0 = Some X1
     /\ geom X1 = unit_cube
     /\ gpose_dirty X1 = false
     /\ In (0, 0) (bitmap w1))
  /\ SetGeom (fun _ _ => ret tt) 1 0 unit_cube flat_world = Fault AssertFailed.
Proof.
  split.
  - destruct (proj2 (SetGeom_rescales (fun _ _ => ret tt) 1 0 unit_cube
                       (new_world [new_model None]) _ eq_refl) eq_refl)
      as (w1 & X1 & H1 & H2 & H3 & _ & _ & _ & _ & H8 & _ & H10 & _).
    + apply (bounds_spread (blocks (new_model None))
               (mk_point (-0.5) (-0.5)) (mk_point (-0.5 + 1) (-0.5)));
        simpl; auto; lra.
    + apply (bounds_spread (blocks (new_model None))
               (mk_point (-0.5) (-0.5)) (mk_point (-0.5) (-0.5 + 1)));
        simpl; auto 6; lra.
    + exists w1, X1. split; [exact H1|]. split; [exact H2|]. split; [exact H3|].
      split; [|apply H10; simpl; lia].
      destruct (H8 ltac:(simpl; discriminate) 0 (or_introl eq_refl)) as [Hd _].
      unfold field in Hd. rewrite H2 in Hd. simpl in Hd. now injection Hd.
  - apply (proj1 (SetGeom_rescales (fun _ _ => ret tt) 1 0 unit_cube flat_world _ eq_refl)).
    + discriminate.
    + right. apply (bounds_flat_y _ 0); simpl.
      * discriminate.
      * intros p [<-|[<-|[]]]; reflexivity.
      * unfold billion. lra.
Defined.

(** ** What a collision test can report *)

Lemma fold_hit_source l : forall h d,
  fold_left hit_update l h = Some d ->
  h = Some d \/ exists blk, In (Some blk) l /\ Model blk = d.
Proof.
  induction l as [|s l IH]; intros h d H; [now left|].
  cbn [fold_left] in H. apply IH in H as [H|(blk & Hin & Hd)].
  - destruct s as [blk|]; cbn [hit_update] in H; [|now left].
    injection H as <-. right. exists blk. split; [now left|reflexivity].
  - right. exists blk. split; [now right|exact Hd].
Qed.

Section HonestRaytracer.

Variable world_Raytrace :
  StgWorld -> stg_pose_t -> R -> (block_ref -> model_id -> bool) ->
  model_id -> bool -> option block_ref.

(** X30: [TestCollision] reports obstacles only, and never the model under
    test: with a raytracer that hands back no block but one its match
    function accepts, the model returned is another model and its
    [obstacle_return] is nonzero. *)
Theorem TestCollision_reports_obstacles fuel w m X delta d w' :
  (forall wv origin range func finder ztest b,
     world_Raytrace wv origin range func finder ztest = Some b ->
     func b finder = true) ->
  models w !! m = Some X ->
  rooted w fuel m = true ->
  TestCollision world_Raytrace fuel m delta w = Ok (Some d, w') ->
  d <> m /\ exists Y, models w !! d = Some Y /\ obstacle_return Y <> 0%Z.
Proof.
  intros Hhonest HX Hr Hrun.
  destruct (TestCollision_run world_Raytrace fuel w m X delta HX Hr) as (_ & Hnone & Hsome).
  destruct (blocks X) as [|b0 bs] eqn:Hb.
  - rewrite (Hnone eq_refl) in Hrun. discriminate.
  - destruct Hsome as (gp & w1 & w2 & _ & Hun & _ & Htc & _); [discriminate|].
    rewrite Htc in Hrun. injection Hrun as Hhit _.
    apply fold_hit_source in Hhit as [Hh|(blk & Hin & <-)]; [discriminate|].
    unfold edge_samples in Hin. apply in_flat_map in Hin as (blk0 & _ & Hin).
    apply in_map_iff in Hin as (p & Hs & _). unfold edge_sample in Hs.
    apply Hhonest in Hs. apply collision_match_iff in Hs as (Hne & Y1 & HY1 & Hob).
    split; [exact Hne|].
    assert (Hms1 : models w1 = models w)
      by exact (UnMap_keeps models m models_bitmap_blind _ _ _ Hun).
    unfold raster_view in HY1. cbn [models set_models] in HY1.
    rewrite Hms1, list_lookup_fmap in HY1.
    destruct (models w !! Model blk) as [Y|]; [|discriminate].
    injection HY1 as <-. exists Y. split; [reflexivity|exact Hob].
Qed.

End HonestRaytracer.

Lemma TestCollision_reports_obstacles_flank :
  exists d w',
    TestCollision flank_Raytrace 1 0 pose_zero flank_world = Ok (Some d, w')
    /\ d <> 0
    /\ exists Y, models flank_world !! d = Some Y /\ obstacle_return Y <> 0%Z.
Proof.
  destruct (TestCollision_run flank_Raytrace 1 flank_world 0 (new_model None) pose_zero
              eq_refl eq_refl) as (_ & _ & H).
  destruct H as (gp & w1 & w' & Hg & Hun & _ & Hrun & _); [discriminate|].
  injection Hg as <-.
  assert (Hms : models w1 = models flank_world)
    by exact (UnMap_keeps models 0 models_bitmap_blind _ _ _ Hun).
  rewrite (flank_samples w1 Hms) in Hrun.
  exists 1, w'. split; [exact Hrun|].
  apply (TestCollision_reports_obstacles flank_Raytrace 1 flank_world 0
           (new_model None) pose_zero 1 w'); [|reflexivity|reflexivity|exact Hrun].
  intros wv origin range func finder ztest b. unfold flank_Raytrace.
  destruct (Rlt_dec (pose_y origin) 0);
    match goal with |- (if ?c then _ else _) = _ -> _ => destruct c eqn:E end;
    intros [= <-]; exact E.
Defined.
